(** * Huffman encoding and decoding: a shallow embedding of huffman.py

    The Python program is translated function by function.  Python values are
    modelled as follows.

    - [str] is a list of Unicode code points ([Z]); a character is a [str]
      of length one, as in Python.  Bit strings are [str]s made of the
      characters '0' (48) and '1' (49).
    - [bytes] is a list of integers in [0, 256).
    - A [dict] is an association list in insertion order, with unique keys.
    - Exceptions are the [Raise] results of the [result] monad.  Loops that
      are [while] loops in the source run on fuel; running out of fuel is the
      separate outcome [OutOfFuel], which the theorems show never to occur.
    - Every [Node] object carries the number of its allocation ([ref]); the
      built-in [id()] is a function [id_of] from allocation numbers to
      integers, a parameter of everything that compares nodes. *)

From stdpp Require Import base tactics option numbers list.

(** ** Python values *)

Definition str := list Z.
Definition bytes := list Z.

Inductive exn :=
  | ValueError | KeyError | TypeError | AttributeError | OverflowError | IndexError
  | RecursionError.

Inductive result (A : Type) :=
  | Ok (a : A)
  | Raise (e : exn)
  | OutOfFuel.
Arguments Ok {A} a.
Arguments Raise {A} e.
Arguments OutOfFuel {A}.

Definition bind {A B} (m : result A) (f : A → result B) : result B :=
  match m with
  | Ok a => f a
  | Raise e => Raise e
  | OutOfFuel => OutOfFuel
  end.

#[global] Instance result_bind : MBind result := λ A B f m, bind m f.
#[global] Instance result_ret : MRet result := λ A a, Ok a.

(** [l[i]] for a non-negative index. *)
Definition getitem {A} (l : list A) (i : nat) : result A :=
  match l !! i with
  | Some x => Ok x
  | None => Raise IndexError
  end.

(** Characters '0' and '1', and the one-character strings "0" and "1". *)
Definition c0 : Z := 48.
Definition c1 : Z := 49.

(** *** Dictionaries *)

Definition dict (K V : Type) := list (K * V).

Section dict.
Context {K V : Type} `{EqDecision K}.

Fixpoint dict_get (d : dict K V) (k : K) : option V :=
  match d with
  | [] => None
  | (k', v) :: d' => if decide (k' = k) then Some v else dict_get d' k
  end.

(** [d[k] = v]: an existing key keeps its position, a new key goes last. *)
Fixpoint dict_set (d : dict K V) (k : K) (v : V) : dict K V :=
  match d with
  | [] => [(k, v)]
  | (k', v') :: d' =>
      if decide (k' = k) then (k', v) :: d' else (k', v') :: dict_set d' k v
  end.

Definition dict_keys (d : dict K V) : list K := d.*1.

(** [d[k]], raising KeyError. *)
Definition dict_getitem (d : dict K V) (k : K) : result V :=
  match dict_get d k with
  | Some v => Ok v
  | None => Raise KeyError
  end.
End dict.

(** ** heapq (the standard library's binary heap on a list) *)

Section heapq.
Context {A : Type} (lt : A → A → bool).

(** The loop of [_siftdown]: move [newitem] towards [startpos] while it is
    smaller than its parent. *)
Fixpoint siftdown_loop (fuel : nat) (heap : list A) (newitem : A)
    (startpos pos : nat) : result (list A) :=
  match fuel with
  | O => OutOfFuel
  | S fuel' =>
      if decide (startpos < pos) then
        let parentpos := (pos - 1) `div` 2 in
        parent ← getitem heap parentpos;
        if lt newitem parent
        then siftdown_loop fuel' (<[pos := parent]> heap) newitem startpos parentpos
        else Ok (<[pos := newitem]> heap)
      else Ok (<[pos := newitem]> heap)
  end.

Definition _siftdown (heap : list A) (startpos pos : nat) : result (list A) :=
  newitem ← getitem heap pos;
  siftdown_loop (S pos) heap newitem startpos pos.

(** The loop of [_siftup]: bubble the smaller child up until a leaf is
    reached; returns the heap and the position of the hole. *)
Fixpoint siftup_loop (fuel : nat) (heap : list A) (endpos pos childpos : nat)
    : result (list A * nat) :=
  match fuel with
  | O => OutOfFuel
  | S fuel' =>
      if decide (childpos < endpos) then
        let rightpos := childpos + 1 in
        childpos' ← (if decide (rightpos < endpos) then
             c ← getitem heap childpos;
             r ← getitem heap rightpos;
             Ok (if lt c r then childpos else rightpos)
           else Ok childpos);
        x ← getitem heap childpos';
        siftup_loop fuel' (<[pos := x]> heap) endpos childpos' (2 * childpos' + 1)
      else Ok (heap, pos)
  end.

Definition _siftup (heap : list A) (pos : nat) : result (list A) :=
  let endpos := length heap in
  let startpos := pos in
  newitem ← getitem heap pos;
  '(heap', pos') ← siftup_loop (S endpos) heap endpos pos (2 * pos + 1);
  _siftdown (<[pos' := newitem]> heap') startpos pos'.

Definition heappush (heap : list A) (item : A) : result (list A) :=
  let heap := heap ++ [item] in
  _siftdown heap 0 (length heap - 1).

Definition heappop (heap : list A) : result (A * list A) :=
  match last heap with
  | None => Raise IndexError
  | Some lastelt =>
      match removelast heap with
      | [] => Ok (lastelt, [])
      | returnitem :: rest =>
          heap' ← _siftup (lastelt :: rest) 0;
          Ok (returnitem, heap')
      end
  end.
End heapq.

(** ** The program *)

(** [class Node]. *)
Unset Elimination Schemes.
Inductive Node : Type :=
  mkNode {
    freq : Z;
    symbol : option str;
    left : option Node;
    right : option Node;
    ref : nat
  }.
Set Elimination Schemes.

Section program.
(** The value of [id()] for the object of each allocation. *)
Variable id_of : nat → Z.

(** [Node.__lt__]. *)
Definition Node_lt (self other : Node) : bool :=
  if (freq self =? freq other)%Z
  then (id_of (ref self) <? id_of (ref other))%Z
  else (freq self <? freq other)%Z.

(** The characters of a text, each a string of length one. *)
Definition chars (text : str) : list str := (λ c, [c]) <$> text.

(** [build_frequency_map]: [freq] is a [defaultdict(int)]. *)
Definition build_frequency_map (text : str) : dict str Z :=
  foldl (λ freq ch, dict_set freq ch (default 0%Z (dict_get freq ch) + 1)%Z)
        [] (chars text).

(** The [for] loop of [build_huffman_tree]; the state is the heap and the
    number of nodes allocated so far. *)
Fixpoint push_leaves (items : dict str Z) (heap : list Node) (n : nat)
    : result (list Node * nat) :=
  match items with
  | [] => Ok (heap, n)
  | (sym, f) :: items' =>
      heap' ← heappush Node_lt heap (mkNode f (Some sym) None None n);
      push_leaves items' heap' (S n)
  end.

(** The [while len(heap) > 1] loop. *)
Fixpoint merge_loop (fuel : nat) (heap : list Node) (n : nat)
    : result (list Node) :=
  match fuel with
  | O => OutOfFuel
  | S fuel' =>
      if decide (1 < length heap) then
        '(a, heap1) ← heappop Node_lt heap;
        '(b, heap2) ← heappop Node_lt heap1;
        let parent := mkNode (freq a + freq b) None (Some a) (Some b) n in
        heap3 ← heappush Node_lt heap2 parent;
        merge_loop fuel' heap3 (S n)
      else Ok heap
  end.

Definition build_huffman_tree (freq_map : dict str Z) : result (option Node) :=
  '(heap, n) ← push_leaves freq_map [] 0;
  '(heap, n) ← (if decide (length heap = 1) then
       '(sole, heap1) ← heappop Node_lt heap;
       let dummy := mkNode 0 (Some []) None None n in
       let parent := mkNode (freq sole) None (Some sole) (Some dummy) (S n) in
       heap2 ← heappush Node_lt heap1 parent;
       Ok (heap2, S (S n))
     else Ok (heap, n));
  heap ← merge_loop (S (length heap)) heap n;
  Ok (head heap).
End program.

(** [generate_codes]: [dfs] updates the dictionary [codes]. *)
Fixpoint dfs (node : Node) (path : str) (codes : dict str str) : dict str str :=
  match node with
  | mkNode _ sym l r _ =>
      match sym, l, r with
      | Some s, None, None =>
          dict_set codes s (if decide (path = []) then [c0] else path)
      | _, _, _ =>
          let codes :=
            match l with
            | Some l' => dfs l' (path ++ [c0]) codes
            | None => codes
            end in
          match r with
          | Some r' => dfs r' (path ++ [c1]) codes
          | None => codes
          end
      end
  end.

Definition generate_codes (root : option Node) : dict str str :=
  match root with
  | None => []
  | Some r => dfs r [] []
  end.

(** [encode_text]. *)
Fixpoint encode_chars (cs : list str) (codes : dict str str) : result str :=
  match cs with
  | [] => Ok []
  | ch :: cs' =>
      code ← dict_getitem codes ch;
      rest ← encode_chars cs' codes;
      Ok (code ++ rest)
  end.

Definition encode_text (text : str) (codes : dict str str) : result str :=
  encode_chars (chars text) codes.

(** ** Bit packing *)

Definition is_bit (c : Z) : bool := (c =? c0)%Z || (c =? c1)%Z.

(** [int(s, 2)] on a string of binary digits.  (Python also accepts a sign,
    a 0b prefix, underscores and surrounding blanks; bit strings have none
    of these, and here they are a ValueError like any other character.) *)
Definition int_base2 (s : str) : result Z :=
  if decide (s = []) then Raise ValueError
  else if forallb is_bit s
       then Ok (foldl (λ acc c, 2 * acc + (c - c0))%Z 0%Z s)
       else Raise ValueError.

(** [range(0, stop, step)] and [l[i:j]] for non-negative bounds. *)
Definition py_range0 (stop step : nat) : list nat :=
  (λ k, k * step) <$> seq 0 ((stop + step - 1) `div` step).

Definition slice {A} (l : list A) (i j : nat) : list A := take (j - i) (drop i l).

(** [bytearray.append]. *)
Definition bytearray_append (b : bytes) (v : Z) : result bytes :=
  if decide (0 ≤ v < 256)%Z then Ok (b ++ [v]) else Raise ValueError.

Fixpoint pack_loop (padded : str) (idx : list nat) (b : bytes) : result bytes :=
  match idx with
  | [] => Ok b
  | i :: idx' =>
      v ← int_base2 (slice padded i (i + 8));
      b' ← bytearray_append b v;
      pack_loop padded idx' b'
  end.

Definition bits_to_bytes (bitstring : str) : result (bytes * Z) :=
  let padding := ((8 - Z.of_nat (length bitstring) `mod` 8) `mod` 8)%Z in
  let bitstring_padded := bitstring ++ replicate (Z.to_nat padding) c0 in
  b ← pack_loop bitstring_padded (py_range0 (length bitstring_padded) 8) [];
  Ok (b, padding).

(** [f'{byte:08b}'] for a byte. *)
Definition format_08b (byte : Z) : str :=
  (λ k, if Z.testbit byte k then c1 else c0) <$> [7; 6; 5; 4; 3; 2; 1; 0]%Z.

Definition bytes_to_bits (b : bytes) : str := mjoin (format_08b <$> b).

(** ** JSON and UTF-8 (the standard library's json module and codecs) *)

Inductive pyfloat :=
  | FDec (m e : Z)      (* the decimal m * 10^e, before rounding *)
  | FNan
  | FInf (neg : bool).

Unset Elimination Schemes.
Inductive json :=
  | JNull
  | JBool (b : bool)
  | JInt (n : Z)
  | JFloat (f : pyfloat)
  | JStr (s : str)
  | JList (l : list json)
  | JDict (d : list (str * json)).
Set Elimination Schemes.

(** *** json.dumps of the header, with [ensure_ascii=False] *)

Definition hex_digit (n : Z) : Z := (if n <? 10 then 48 + n else 87 + n)%Z.

Definition escape_char (c : Z) : str :=
  (if c =? 34 then [92; 34]
   else if c =? 92 then [92; 92]
   else if c =? 10 then [92; 110]
   else if c =? 13 then [92; 114]
   else if c =? 9 then [92; 116]
   else if c =? 8 then [92; 98]
   else if c =? 12 then [92; 102]
   else if (0 <=? c) && (c <? 32)
        then [92; 117; 48; 48; hex_digit (c / 16); hex_digit (c `mod` 16)]
   else [c])%Z.

Definition dumps_str (s : str) : str := [34%Z] ++ mjoin (escape_char <$> s) ++ [34%Z].

Fixpoint dec_digits (fuel : nat) (n : Z) (acc : str) : str :=
  match fuel with
  | O => acc
  | S fuel' =>
      let acc' := (48 + n `mod` 10)%Z :: acc in
      if (n / 10 =? 0)%Z then acc' else dec_digits fuel' (n / 10)%Z acc'
  end.

(** [str(n)] for an integer. *)
Definition str_of_int (n : Z) : str :=
  let digits m := dec_digits (S (Z.to_nat (Z.log2 m))) m [] in
  (if n <? 0 then 45 :: digits (- n) else digits n)%Z.

(** [", ".join(items)]. *)
Fixpoint join_comma (items : list str) : str :=
  match items with
  | [] => []
  | [x] => x
  | x :: rest => x ++ [44; 32]%Z ++ join_comma rest
  end.

Definition dumps_codes (codes : dict str str) : str :=
  [123%Z] ++ join_comma ((λ kv, dumps_str kv.1 ++ [58; 32]%Z ++ dumps_str kv.2) <$> codes)
          ++ [125%Z].

(** [json.dumps({'codes': codes, 'padding': padding}, ensure_ascii=False)]. *)
Definition dumps_header (codes : dict str str) (padding : Z) : str :=
  [123%Z] ++ dumps_str [99; 111; 100; 101; 115]%Z ++ [58; 32]%Z ++ dumps_codes codes
  ++ [44; 32]%Z
  ++ dumps_str [112; 97; 100; 100; 105; 110; 103]%Z ++ [58; 32]%Z ++ str_of_int padding
  ++ [125%Z].

(** *** str.encode('utf-8') and bytes.decode('utf-8') *)

Definition utf8_encode_char (c : Z) : option bytes :=
  (if c <? 0 then None
   else if c <? 128 then Some [c]
   else if c <? 2048 then Some [192 + c / 64; 128 + c `mod` 64]
   else if c <? 65536 then
     if (55296 <=? c) && (c <? 57344) then None
     else Some [224 + c / 4096; 128 + (c / 64) `mod` 64; 128 + c `mod` 64]
   else if c <? 1114112 then
     Some [240 + c / 262144; 128 + (c / 4096) `mod` 64; 128 + (c / 64) `mod` 64;
           128 + c `mod` 64]
   else None)%Z.

Fixpoint utf8_encode (s : str) : option bytes :=
  match s with
  | [] => Some []
  | c :: s' =>
      b ← utf8_encode_char c;
      r ← utf8_encode s';
      Some (b ++ r)
  end.

(** UnicodeEncodeError is a subclass of ValueError. *)
Definition str_encode (s : str) : result bytes :=
  match utf8_encode s with
  | Some b => Ok b
  | None => Raise ValueError
  end.

Definition is_cont (b : Z) : bool := (128 <=? b)%Z && (b <? 192)%Z.

Fixpoint utf8_decode (b : bytes) : option str :=
  match b with
  | [] => Some []
  | b0 :: r =>
      if (b0 <? 128)%Z then cons b0 <$> utf8_decode r
      else if (b0 <? 194)%Z then None
      else if (b0 <? 224)%Z then
        match r with
        | b1 :: r' =>
            if is_cont b1
            then cons ((b0 - 192) * 64 + (b1 - 128))%Z <$> utf8_decode r'
            else None
        | _ => None
        end
      else if (b0 <? 240)%Z then
        match r with
        | b1 :: b2 :: r' =>
            let c := ((b0 - 224) * 4096 + (b1 - 128) * 64 + (b2 - 128))%Z in
            if is_cont b1 && is_cont b2 && (2048 <=? c)%Z
               && negb ((55296 <=? c)%Z && (c <? 57344)%Z)
            then cons c <$> utf8_decode r'
            else None
        | _ => None
        end
      else if (b0 <? 245)%Z then
        match r with
        | b1 :: b2 :: b3 :: r' =>
            let c := ((b0 - 240) * 262144 + (b1 - 128) * 4096 + (b2 - 128) * 64
                      + (b3 - 128))%Z in
            if is_cont b1 && is_cont b2 && is_cont b3 && (65536 <=? c)%Z
               && (c <? 1114112)%Z
            then cons c <$> utf8_decode r'
            else None
        | _ => None
        end
      else None
  end.

(** UnicodeDecodeError is a subclass of ValueError. *)
Definition bytes_decode (b : bytes) : result str :=
  match utf8_decode b with
  | Some s => Ok s
  | None => Raise ValueError
  end.

(** *** json.loads *)

Definition is_ws (c : Z) : bool :=
  ((c =? 32) || (c =? 9) || (c =? 10) || (c =? 13))%Z.

Fixpoint skip_ws (s : str) : str :=
  match s with
  | c :: r => if is_ws c then skip_ws r else s
  | [] => []
  end.

Definition hexval (c : Z) : option Z :=
  (if (48 <=? c) && (c <=? 57) then Some (c - 48)
   else if (97 <=? c) && (c <=? 102) then Some (c - 87)
   else if (65 <=? c) && (c <=? 70) then Some (c - 55)
   else None)%Z.

Definition hex4 (a b c d : Z) : option Z :=
  x ← hexval a; y ← hexval b; z ← hexval c; w ← hexval d;
  Some (((x * 16 + y) * 16 + z) * 16 + w)%Z.

(** The characters that may follow a backslash, other than u. *)
Definition unescape (e : Z) : option Z :=
  (if e =? 34 then Some 34
   else if e =? 92 then Some 92
   else if e =? 47 then Some 47
   else if e =? 98 then Some 8
   else if e =? 102 then Some 12
   else if e =? 110 then Some 10
   else if e =? 114 then Some 13
   else if e =? 116 then Some 9
   else None)%Z.

Definition is_high_surrogate (u : Z) : bool := (55296 <=? u)%Z && (u <=? 56319)%Z.
Definition is_low_surrogate (u : Z) : bool := (56320 <=? u)%Z && (u <=? 57343)%Z.

(** [scanstring], strict: the text after an opening quote, up to the closing
    quote; the result is the string and the text after it. *)
Fixpoint scanstring (s : str) : option (str * str) :=
  match s with
  | [] => None
  | c :: r =>
      if (c =? 34)%Z then Some ([], r)
      else if (c =? 92)%Z then
        match r with
        | [] => None
        | e :: r1 =>
            if (e =? 117)%Z then
              match r1 with
              | h1 :: h2 :: h3 :: h4 :: r2 =>
                  uni ← hex4 h1 h2 h3 h4;
                  let single := '(x, rest) ← scanstring r2; Some (uni :: x, rest) in
                  if is_high_surrogate uni then
                    match r2 with
                    | b1 :: u1 :: r3 =>
                        if (b1 =? 92)%Z && (u1 =? 117)%Z then
                          match r3 with
                          | g1 :: g2 :: g3 :: g4 :: r4 =>
                              uni2 ← hex4 g1 g2 g3 g4;
                              if is_low_surrogate uni2 then
                                '(x, rest) ← scanstring r4;
                                Some ((65536 + (uni - 55296) * 1024 + (uni2 - 56320))%Z :: x,
                                      rest)
                              else single
                          | _ => None
                          end
                        else single
                    | _ => single
                    end
                  else single
              | _ => None
              end
            else
              ch ← unescape e;
              '(x, rest) ← scanstring r1;
              Some (ch :: x, rest)
        end
      else if (c <? 32)%Z then None
      else '(x, rest) ← scanstring r; Some (c :: x, rest)
  end.

Definition is_digit (c : Z) : bool := (48 <=? c)%Z && (c <=? 57)%Z.

Fixpoint take_digits (s : str) : str * str :=
  match s with
  | c :: r => if is_digit c then let '(ds, rest) := take_digits r in (c :: ds, rest)
              else ([], s)
  | [] => ([], [])
  end.

Definition digits_value (ds : str) : Z := foldl (λ acc c, 10 * acc + (c - 48))%Z 0%Z ds.

(** A number: an optional minus sign; then 0, or a digit from 1 to 9 followed
    by digits; then, optionally, a point followed by at least one digit; then,
    optionally, e or E, an optional sign and at least one digit.  With a
    fraction or an exponent the number is a float, otherwise an int (of any
    number of digits: the limit that recent versions put on it is left
    out). *)
Definition parse_number (s : str) : option (json * str) :=
  let '(neg, s1) := match s with
                    | c :: r => if (c =? 45)%Z then (true, r) else (false, s)
                    | [] => (false, s)
                    end in
  '(ipart, s2) ←
    match s1 with
    | d :: r =>
        if (d =? 48)%Z then Some ([d], r)
        else if is_digit d then let '(ds, rest) := take_digits r in Some (d :: ds, rest)
        else None
    | [] => None
    end;
  let '(frac, s3) :=
    match s2 with
    | c :: r =>
        if (c =? 46)%Z then
          let '(fd, rest) := take_digits r in
          if decide (fd = []) then (None, s2) else (Some fd, rest)
        else (None, s2)
    | [] => (None, s2)
    end in
  let '(exp, s4) :=
    match s3 with
    | c :: r =>
        if (c =? 101)%Z || (c =? 69)%Z then
          let '(eneg, r') := match r with
                             | g :: r'' => if (g =? 45)%Z then (true, r'')
                                           else if (g =? 43)%Z then (false, r'')
                                           else (false, r)
                             | [] => (false, r)
                             end in
          let '(ed, rest) := take_digits r' in
          if decide (ed = []) then (None, s3)
          else (Some (if eneg then - digits_value ed else digits_value ed)%Z, rest)
        else (None, s3)
    | [] => (None, s3)
    end in
  let sign (z : Z) := if neg then (- z)%Z else z in
  match frac, exp with
  | None, None => Some (JInt (sign (digits_value ipart)), s4)
  | _, _ =>
      let fd := default [] frac in
      Some (JFloat (FDec (sign (digits_value (ipart ++ fd)))
                         (default 0%Z exp - Z.of_nat (length fd))), s4)
  end.

(** [s.startswith(p)], returning the rest. *)
Fixpoint strip_prefix (p s : str) : option str :=
  match p, s with
  | [], _ => Some s
  | a :: p', b :: s' => if (a =? b)%Z then strip_prefix p' s' else None
  | _ :: _, [] => None
  end.

(** [dict(pairs)]. *)
Definition dict_of_pairs {V} (pairs : list (str * V)) : dict str V :=
  foldl (λ d kv, dict_set d kv.1 kv.2) [] pairs.

(** The scanner: one JSON value at the start of [s]. *)
Fixpoint scan_once (fuel : nat) (s : str) : option (json * str) :=
  match fuel with
  | O => None
  | S fuel' =>
      match s with
      | [] => None
      | c :: r =>
          if (c =? 34)%Z then '(x, rest) ← scanstring r; Some (JStr x, rest)
          else if (c =? 123)%Z then
            match skip_ws r with
            | c' :: r' =>
                if (c' =? 125)%Z then Some (JDict [], r')
                else if (c' =? 34)%Z then JSONObject fuel' r' []
                else None
            | [] => None
            end
          else if (c =? 91)%Z then
            match skip_ws r with
            | c' :: r' =>
                if (c' =? 93)%Z then Some (JList [], r')
                else JSONArray fuel' (c' :: r') []
            | [] => None
            end
          else
            match strip_prefix [110; 117; 108; 108]%Z s,
                  strip_prefix [116; 114; 117; 101]%Z s,
                  strip_prefix [102; 97; 108; 115; 101]%Z s with
            | Some rest, _, _ => Some (JNull, rest)
            | _, Some rest, _ => Some (JBool true, rest)
            | _, _, Some rest => Some (JBool false, rest)
            | _, _, _ =>
                match parse_number s with
                | Some res => Some res
                | None =>
                    match strip_prefix [78; 97; 78]%Z s,
                          strip_prefix [73; 110; 102; 105; 110; 105; 116; 121]%Z s,
                          strip_prefix [45; 73; 110; 102; 105; 110; 105; 116; 121]%Z s with
                    | Some rest, _, _ => Some (JFloat FNan, rest)
                    | _, Some rest, _ => Some (JFloat (FInf false), rest)
                    | _, _, Some rest => Some (JFloat (FInf true), rest)
                    | _, _, _ => None
                    end
                end
            end
      end
  end
(** The members of an object, from after the opening quote of a key. *)
with JSONObject (fuel : nat) (s : str) (pairs : list (str * json))
    : option (json * str) :=
  match fuel with
  | O => None
  | S fuel' =>
      '(key, r) ← scanstring s;
      match skip_ws r with
      | c :: r1 =>
          if (c =? 58)%Z then
            '(value, r2) ← scan_once fuel' (skip_ws r1);
            let pairs := pairs ++ [(key, value)] in
            match skip_ws r2 with
            | c' :: r3 =>
                if (c' =? 125)%Z then Some (JDict (dict_of_pairs pairs), r3)
                else if (c' =? 44)%Z then
                  match skip_ws r3 with
                  | c'' :: r4 => if (c'' =? 34)%Z then JSONObject fuel' r4 pairs else None
                  | [] => None
                  end
                else None
            | [] => None
            end
          else None
      | [] => None
      end
  end
(** The elements of an array, from its first element. *)
with JSONArray (fuel : nat) (s : str) (values : list json) : option (json * str) :=
  match fuel with
  | O => None
  | S fuel' =>
      '(value, r) ← scan_once fuel' s;
      let values := values ++ [value] in
      match skip_ws r with
      | c :: r1 =>
          if (c =? 93)%Z then Some (JList values, r1)
          else if (c =? 44)%Z then JSONArray fuel' (skip_ws r1) values
          else None
      | [] => None
      end
  end.

(** [json.loads(s)] for a [str], when the nesting of the text stays within what
    the interpreter allows: [json_loads_limit] below has the limit, and does
    the same unless it raises RecursionError ([json_loads_limit_agree]).
    JSONDecodeError is a subclass of ValueError.  The fuel is more than the
    scanner needs on a text of this length (more fuel never changes its
    result). *)
Definition json_loads (s : str) : result json :=
  match s with
  | 65279%Z :: _ => Raise ValueError
  | _ =>
      match scan_once (S (2 * length s)) (skip_ws s) with
      | Some (obj, rest) => if decide (skip_ws rest = []) then Ok obj else Raise ValueError
      | None => Raise ValueError
      end
  end.

(** *** json.loads and the recursion limit

    The scanner enters a recursive call for every object and every array
    that it opens, an empty one too, and raises RecursionError when the
    interpreter allows no further call.  [depth] is the number of objects and
    arrays inside one another that the interpreter allows at the call of
    [json.loads]: its recursion limit less the calls in progress. *)

(** A value that is neither a string, an object nor an array. *)
Definition scan_literal (s : str) : option (json * str) :=
  match strip_prefix [110; 117; 108; 108]%Z s,
        strip_prefix [116; 114; 117; 101]%Z s,
        strip_prefix [102; 97; 108; 115; 101]%Z s with
  | Some rest, _, _ => Some (JNull, rest)
  | _, Some rest, _ => Some (JBool true, rest)
  | _, _, Some rest => Some (JBool false, rest)
  | _, _, _ =>
      match parse_number s with
      | Some res => Some res
      | None =>
          match strip_prefix [78; 97; 78]%Z s,
                strip_prefix [73; 110; 102; 105; 110; 105; 116; 121]%Z s,
                strip_prefix [45; 73; 110; 102; 105; 110; 105; 116; 121]%Z s with
          | Some rest, _, _ => Some (JFloat FNan, rest)
          | _, Some rest, _ => Some (JFloat (FInf false), rest)
          | _, _, Some rest => Some (JFloat (FInf true), rest)
          | _, _, _ => None
          end
      end
  end.

(** StopIteration in the scanner becomes JSONDecodeError, a ValueError. *)
Definition or_decode_error {A} (o : option A) : result A :=
  match o with
  | Some a => Ok a
  | None => Raise ValueError
  end.

Fixpoint scan_once_limit (fuel depth : nat) (s : str) : result (json * str) :=
  match fuel with
  | O => OutOfFuel
  | S fuel' =>
      match s with
      | [] => Raise ValueError
      | c :: r =>
          if (c =? 34)%Z then
            '(x, rest) ← or_decode_error (scanstring r); Ok (JStr x, rest)
          else if (c =? 123)%Z then
            match depth with
            | O => Raise RecursionError
            | S depth' =>
                match skip_ws r with
                | c' :: r' =>
                    if (c' =? 125)%Z then Ok (JDict [], r')
                    else if (c' =? 34)%Z then JSONObject_limit fuel' depth' r' []
                    else Raise ValueError
                | [] => Raise ValueError
                end
            end
          else if (c =? 91)%Z then
            match depth with
            | O => Raise RecursionError
            | S depth' =>
                match skip_ws r with
                | c' :: r' =>
                    if (c' =? 93)%Z then Ok (JList [], r')
                    else JSONArray_limit fuel' depth' (c' :: r') []
                | [] => Raise ValueError
                end
            end
          else or_decode_error (scan_literal s)
      end
  end
(** The members of an object, from after the opening quote of a key. *)
with JSONObject_limit (fuel depth : nat) (s : str) (pairs : list (str * json))
    : result (json * str) :=
  match fuel with
  | O => OutOfFuel
  | S fuel' =>
      '(key, r) ← or_decode_error (scanstring s);
      match skip_ws r with
      | c :: r1 =>
          if (c =? 58)%Z then
            '(value, r2) ← scan_once_limit fuel' depth (skip_ws r1);
            let pairs := pairs ++ [(key, value)] in
            match skip_ws r2 with
            | c' :: r3 =>
                if (c' =? 125)%Z then Ok (JDict (dict_of_pairs pairs), r3)
                else if (c' =? 44)%Z then
                  match skip_ws r3 with
                  | c'' :: r4 =>
                      if (c'' =? 34)%Z then JSONObject_limit fuel' depth r4 pairs
                      else Raise ValueError
                  | [] => Raise ValueError
                  end
                else Raise ValueError
            | [] => Raise ValueError
            end
          else Raise ValueError
      | [] => Raise ValueError
      end
  end
(** The elements of an array, from its first element. *)
with JSONArray_limit (fuel depth : nat) (s : str) (values : list json)
    : result (json * str) :=
  match fuel with
  | O => OutOfFuel
  | S fuel' =>
      '(value, r) ← scan_once_limit fuel' depth s;
      let values := values ++ [value] in
      match skip_ws r with
      | c :: r1 =>
          if (c =? 93)%Z then Ok (JList values, r1)
          else if (c =? 44)%Z then JSONArray_limit fuel' depth (skip_ws r1) values
          else Raise ValueError
      | [] => Raise ValueError
      end
  end.

(** [json.loads(s)] when the interpreter allows [depth] objects and arrays
    inside one another.  The fuel is never used up. *)
Definition json_loads_limit (depth : nat) (s : str) : result json :=
  match s with
  | 65279%Z :: _ => Raise ValueError
  | _ =>
      '(obj, rest) ← scan_once_limit (S (2 * length s)) depth (skip_ws s);
      if decide (skip_ws rest = []) then Ok obj else Raise ValueError
  end.

(** ** The container *)

(** [n.to_bytes(4, byteorder='big')] and [int.from_bytes(b, byteorder='big')]. *)
Definition int_to_bytes4 (n : Z) : result bytes :=
  if decide (0 ≤ n < 2 ^ 32)%Z
  then Ok [n / 2 ^ 24; (n / 2 ^ 16) `mod` 256; (n / 2 ^ 8) `mod` 256; n `mod` 256]%Z
  else Raise OverflowError.

Definition int_from_bytes (b : bytes) : Z := foldl (λ acc x, acc * 256 + x)%Z 0%Z b.

(** [write_huff_file]: the result is the content of the file written. *)
Definition write_huff_file (codes : dict str str) (payload_bytes : bytes) (padding : Z)
    : result bytes :=
  header_json ← str_encode (dumps_header codes padding);
  let header_len := Z.of_nat (length header_json) in
  len_bytes ← int_to_bytes4 header_len;
  Ok (len_bytes ++ header_json ++ payload_bytes).

(** [read_huff_file] on the content of the file read, when the nesting of the
    header stays within what the interpreter allows. *)
Definition read_huff_file (data : bytes) : result (json * bytes) :=
  let header_len_bytes := take 4 data in
  let data1 := drop 4 data in
  if decide (length header_len_bytes < 4) then Raise ValueError
  else
    let header_len := Z.to_nat (int_from_bytes header_len_bytes) in
    let header_json := take header_len data1 in
    let data2 := drop header_len data1 in
    text ← bytes_decode header_json;
    header ← json_loads text;
    let payload := data2 in
    Ok (header, payload).

(** [read_huff_file] when the interpreter allows [depth] nested objects and
    arrays to [json.loads]. *)
Definition read_huff_file_limit (depth : nat) (data : bytes) : result (json * bytes) :=
  let header_len_bytes := take 4 data in
  let data1 := drop 4 data in
  if decide (length header_len_bytes < 4) then Raise ValueError
  else
    let header_len := Z.to_nat (int_from_bytes header_len_bytes) in
    let header_json := take header_len data1 in
    let data2 := drop header_len data1 in
    text ← bytes_decode header_json;
    header ← json_loads_limit depth text;
    let payload := data2 in
    Ok (header, payload).

(** ** Decoding *)

(** Truth value of a float: it is zero when the decimal rounds to zero, that
    is when its magnitude is at most 2^-1075. *)
Definition float_truthy (f : pyfloat) : bool :=
  match f with
  | FDec m e =>
      negb (m =? 0)%Z &&
      (if (0 <=? e)%Z then true
       else (10 ^ (- e) <? Z.abs m * 2 ^ 1075)%Z)
  | FNan | FInf _ => true
  end.

(** [bool(x)]. *)
Definition truthy (x : json) : bool :=
  match x with
  | JNull => false
  | JBool b => b
  | JInt n => negb (n =? 0)%Z
  | JFloat f => float_truthy f
  | JStr s => negb (bool_decide (s = []))
  | JList l => match l with [] => false | _ => true end
  | JDict d => match d with [] => false | _ => true end
  end.

(** [l[:stop]] for an integer [stop]. *)
Definition slice_to {A} (l : list A) (stop : Z) : list A :=
  let n := Z.of_nat (length l) in
  let stop' := (if stop <? 0 then Z.max (stop + n) 0 else Z.min stop n)%Z in
  take (Z.to_nat stop') l.

(** [bits[:-padding]]: unary minus needs a number, a slice index an int. *)
Definition strip_padding (bits : str) (padding : json) : result str :=
  match padding with
  | JInt n => Ok (slice_to bits (- n))
  | JBool b => Ok (slice_to bits (- (if b then 1 else 0)))
  | _ => Raise TypeError
  end.

(** [if padding: bits = bits[:-padding]]. *)
Definition remove_padding (bits : str) (padding : json) : result str :=
  if truthy padding then strip_padding bits padding else Ok bits.

(** [{v: k for k, v in codes.items()}].  The values must be hashable.  Only
    the entries whose key is a [str] are kept here: the dictionary is only
    ever looked up at a [str], which no other key equals. *)
Fixpoint build_rev (items : list (str * json)) (rev : dict str str)
    : result (dict str str) :=
  match items with
  | [] => Ok rev
  | (k, v) :: items' =>
      match v with
      | JStr s => build_rev items' (dict_set rev s k)
      | JList _ | JDict _ => Raise TypeError
      | _ => build_rev items' rev
      end
  end.

Definition reverse_map (codes : json) : result (dict str str) :=
  match codes with
  | JDict d => build_rev d []
  | _ => Raise AttributeError
  end.

(** The [for bit in bits] loop; the state is [cur] and [out_chars]. *)
Fixpoint decode_loop (rev : dict str str) (bits : str) (cur : str) (out_chars : list str)
    : str * list str :=
  match bits with
  | [] => (cur, out_chars)
  | bit :: bits' =>
      let cur := cur ++ [bit] in
      match dict_get rev cur with
      | Some ch => decode_loop rev bits' [] (out_chars ++ [ch])
      | None => decode_loop rev bits' cur out_chars
      end
  end.

Definition decode_bits_to_text (bits : str) (codes padding : json) : result str :=
  bits ← remove_padding bits padding;
  rev ← reverse_map codes;
  let '(cur, out_chars) := decode_loop rev bits [] [] in
  if decide (cur ≠ []) then Raise ValueError
  else Ok (mjoin out_chars).

(** ** The two pipelines

    The files are the arguments and results: [compress_file] takes the text
    read from the input file and returns the bytes written to the output file;
    [decompress_file] takes the bytes of the input file and returns the text
    written to the output file.  The statistics printed are left out. *)

Section pipelines.
Variable id_of : nat → Z.

Definition compress_file (text : str) : result bytes :=
  let freq_map := build_frequency_map text in
  root ← build_huffman_tree id_of freq_map;
  let codes := generate_codes root in
  bitstring ← encode_text text codes;
  '(payload_bytes, padding) ← bits_to_bytes bitstring;
  write_huff_file codes payload_bytes padding.
End pipelines.

(** The compressed size that [compress_file] reports:
    [4 + len(json.dumps({'codes': codes, 'padding': padding},
    ensure_ascii=False).encode('utf-8')) + len(payload_bytes)]. *)
Definition comp_size (codes : dict str str) (padding : Z) (payload_bytes : bytes)
    : result Z :=
  header ← str_encode (dumps_header codes padding);
  Ok (4 + Z.of_nat (length header) + Z.of_nat (length payload_bytes))%Z.

(** [header['codes']]. *)
Definition header_codes (header : json) : result json :=
  match header with
  | JDict d => dict_getitem d [99; 111; 100; 101; 115]%Z
  | _ => Raise TypeError
  end.

(** [header.get('padding', 0)], for a header that is a dictionary. *)
Definition header_padding (header : json) : result json :=
  match header with
  | JDict d => Ok (default (JInt 0) (dict_get d [112; 97; 100; 100; 105; 110; 103]%Z))
  | _ => Raise AttributeError
  end.

(** [decompress_file], when the nesting of the header stays within what the
    interpreter allows: [decompress_file_limit] below has the limit, and does
    the same unless it raises RecursionError ([decompress_file_limit_agree]);
    on what [compress_file] writes it does the same with two levels or more
    ([decompress_file_limit_compressed]). *)
Definition decompress_file (data : bytes) : result str :=
  '(header, payload) ← read_huff_file data;
  codes ← header_codes header;
  padding ← header_padding header;
  let bits := bytes_to_bits payload in
  text ← decode_bits_to_text bits codes padding;
  _ ← str_encode text;
  Ok text.

(** [decompress_file] when the interpreter allows [depth] nested objects and
    arrays to [json.loads]. *)
Definition decompress_file_limit (depth : nat) (data : bytes) : result str :=
  '(header, payload) ← read_huff_file_limit depth data;
  codes ← header_codes header;
  padding ← header_padding header;
  let bits := bytes_to_bits payload in
  text ← decode_bits_to_text bits codes padding;
  _ ← str_encode text;
  Ok text.

(** * Properties *)

(** ** The result monad *)

Lemma Ok_bind {A B} (a : A) (f : A → result B) : Ok a ≫= f = f a.
Proof. done. Qed.

Lemma Raise_bind {A B} e (f : A → result B) : Raise e ≫= f = Raise e.
Proof. done. Qed.

Lemma getitem_Ok {A} (l : list A) i x : l !! i = Some x → getitem l i = Ok x.
Proof. intros H. unfold getitem. by rewrite H. Qed.

(** ** heapq keeps the elements of the heap *)

Section heapq_perm.
Context {A : Type} (lt : A → A → bool).

Lemma hole_move (l : list A) i j x y :
  i ≠ j → l !! i = Some x → j < length l →
  <[i:=y]> (<[j:=x]> l) ≡ₚ <[j:=y]> l.
Proof.
  intros Hij Hi Hj.
  rewrite <-(list_insert_insert_eq l j x y).
  apply Permutation_insert_swap.
  - rewrite list_lookup_insert_eq; [done|lia].
  - by rewrite list_lookup_insert_ne.
Qed.

Lemma siftdown_loop_S fuel (heap : list A) newitem startpos pos :
  siftdown_loop lt (S fuel) heap newitem startpos pos =
    if decide (startpos < pos) then
      parent ← getitem heap ((pos - 1) `div` 2);
      if lt newitem parent
      then siftdown_loop lt fuel (<[pos := parent]> heap) newitem startpos
                         ((pos - 1) `div` 2)
      else Ok (<[pos := newitem]> heap)
    else Ok (<[pos := newitem]> heap).
Proof. done. Qed.

Lemma siftup_loop_S fuel (heap : list A) endpos pos childpos :
  siftup_loop lt (S fuel) heap endpos pos childpos =
    if decide (childpos < endpos) then
      childpos' ← (if decide (childpos + 1 < endpos) then
                     c ← getitem heap childpos;
                     r ← getitem heap (childpos + 1);
                     Ok (if lt c r then childpos else childpos + 1)
                   else Ok childpos);
      x ← getitem heap childpos';
      siftup_loop lt fuel (<[pos := x]> heap) endpos childpos' (2 * childpos' + 1)
    else Ok (heap, pos).
Proof. done. Qed.

Lemma siftdown_loop_perm fuel : ∀ (heap : list A) newitem startpos pos,
  pos < length heap → pos < fuel →
  ∃ heap', siftdown_loop lt fuel heap newitem startpos pos = Ok heap'
           ∧ heap' ≡ₚ <[pos:=newitem]> heap.
Proof.
  induction fuel as [|fuel IH]; intros heap newitem startpos pos Hpos Hfuel; [lia|].
  rewrite siftdown_loop_S. case_decide as Hlt; [|eauto].
  assert ((pos - 1) `div` 2 < pos) as Hpar.
  { apply Nat.Div0.div_lt_upper_bound. lia. }
  destruct (lookup_lt_is_Some_2 heap ((pos - 1) `div` 2)) as [parent Hparent]; [lia|].
  rewrite (getitem_Ok _ _ _ Hparent). rewrite ?Ok_bind.
  destruct (lt newitem parent); [|eauto].
  destruct (IH (<[pos:=parent]> heap) newitem startpos ((pos - 1) `div` 2))
    as (heap' & -> & Hperm); [rewrite length_insert; lia|lia|].
  eexists; split; [done|].
  rewrite Hperm. apply hole_move; [lia|done|done].
Qed.

Lemma siftdown_perm (heap : list A) startpos pos :
  pos < length heap →
  ∃ heap', _siftdown lt heap startpos pos = Ok heap' ∧ heap' ≡ₚ heap.
Proof.
  intros Hpos. unfold _siftdown.
  destruct (lookup_lt_is_Some_2 heap pos) as [newitem Hnew]; [done|].
  rewrite (getitem_Ok _ _ _ Hnew). rewrite ?Ok_bind.
  destruct (siftdown_loop_perm (S pos) heap newitem startpos pos)
    as (heap' & -> & Hperm); [done|lia|].
  eexists; split; [done|]. by rewrite Hperm, list_insert_id.
Qed.

Lemma siftup_loop_perm fuel : ∀ (heap : list A) newitem pos,
  pos < length heap → length heap - pos < fuel →
  ∃ heap' pos',
    siftup_loop lt fuel heap (length heap) pos (2 * pos + 1) = Ok (heap', pos')
    ∧ pos' < length heap' ∧ <[pos':=newitem]> heap' ≡ₚ <[pos:=newitem]> heap.
Proof.
  induction fuel as [|fuel IH]; intros heap newitem pos Hpos Hfuel; [lia|].
  rewrite siftup_loop_S. case_decide as Hc; [|eauto 6].
  set (childpos := 2 * pos + 1) in *.
  assert (∃ childpos', childpos' < length heap ∧ pos < childpos' ∧
    (if decide (childpos + 1 < length heap)
     then c ← getitem heap childpos; r ← getitem heap (childpos + 1);
          Ok (if lt c r then childpos else childpos + 1)
     else Ok childpos) = Ok childpos') as (childpos' & Hc' & Hpc & ->).
  { case_decide as Hr.
    - destruct (lookup_lt_is_Some_2 heap childpos) as [c Hcv]; [done|].
      destruct (lookup_lt_is_Some_2 heap (childpos + 1)) as [r Hrv]; [done|].
      rewrite (getitem_Ok _ _ _ Hcv), (getitem_Ok _ _ _ Hrv). rewrite ?Ok_bind.
      destruct (lt c r); eexists; (split; [|split; [|done]]); lia.
    - exists childpos. split; [done|]. split; [lia|done]. }
  rewrite ?Ok_bind.
  destruct (lookup_lt_is_Some_2 heap childpos') as [x Hx]; [done|].
  rewrite (getitem_Ok _ _ _ Hx). rewrite ?Ok_bind.
  destruct (IH (<[pos:=x]> heap) newitem childpos')
    as (heap' & pos' & Heq & Hpos' & Hperm); [rewrite length_insert; lia ..|].
  rewrite length_insert in Heq. rewrite Heq.
  eexists _, _; split; [done|]. split; [done|].
  rewrite Hperm. apply hole_move; [lia|done|done].
Qed.

Lemma siftup_perm (heap : list A) pos :
  pos < length heap →
  ∃ heap', _siftup lt heap pos = Ok heap' ∧ heap' ≡ₚ heap.
Proof.
  intros Hpos. unfold _siftup.
  destruct (lookup_lt_is_Some_2 heap pos) as [newitem Hnew]; [done|].
  rewrite (getitem_Ok _ _ _ Hnew). rewrite ?Ok_bind.
  destruct (siftup_loop_perm (S (length heap)) heap newitem pos)
    as (heap' & pos' & -> & Hpos' & Hperm); [done|lia|].
  rewrite ?Ok_bind.
  destruct (siftdown_perm (<[pos':=newitem]> heap') pos pos')
    as (heap'' & -> & Hperm'); [by rewrite length_insert|].
  eexists; split; [done|].
  by rewrite Hperm', Hperm, list_insert_id.
Qed.

Lemma heappush_perm (heap : list A) item :
  ∃ heap', heappush lt heap item = Ok heap' ∧ heap' ≡ₚ item :: heap.
Proof.
  unfold heappush.
  destruct (siftdown_perm (heap ++ [item]) 0 (length (heap ++ [item]) - 1))
    as (heap' & -> & Hperm); [rewrite length_app; simpl; lia|].
  eexists; split; [done|]. by rewrite Hperm, Permutation_app_comm.
Qed.

Lemma heappop_perm (heap : list A) :
  heap ≠ [] →
  ∃ x heap', heappop lt heap = Ok (x, heap') ∧ x :: heap' ≡ₚ heap.
Proof.
  intros Hne. unfold heappop.
  destruct (last heap) as [lastelt|] eqn:Hlast; [|by apply last_None in Hlast].
  apply last_Some in Hlast as [front ->].
  rewrite removelast_last.
  destruct front as [|returnitem rest].
  - eexists _, _; split; [done|]. done.
  - destruct (siftup_perm (lastelt :: rest) 0) as (heap' & -> & Hperm);
      [simpl; lia|].
    eexists _, _; split; [done|]. simpl. f_equiv.
    by rewrite Hperm, (Permutation_app_comm rest).
Qed.
End heapq_perm.

(** ** heapq keeps the heap ordered *)

Lemma parent_lt i : 0 < i → (i - 1) `div` 2 < i.
Proof. intros. pose proof (Nat.div_mod_eq (i - 1) 2). lia. Qed.

Lemma parent_child c p :
  0 < c → (c - 1) `div` 2 = p ↔ c = 2 * p + 1 ∨ c = 2 * p + 2.
Proof.
  intros. pose proof (Nat.div_mod_eq (c - 1) 2).
  pose proof (Nat.mod_upper_bound (c - 1) 2). lia.
Qed.

Section heapq_order.
Context {A : Type} (lt : A → A → bool) (le : A → A → Prop) `{!PreOrder le}.
Hypothesis lt_le : ∀ a b, lt a b = true → le a b.
Hypothesis nlt_le : ∀ a b, lt a b = false → le b a.

(** Every element is at least its parent. *)
Definition heap_ok (heap : list A) : Prop :=
  ∀ i x p, 0 < i → heap !! i = Some x → heap !! ((i - 1) `div` 2) = Some p → le p x.

(** The heap is ordered but for the position [pos], and the children of
    [pos] are at least the parent of [pos]. *)
Definition hole_ok (heap : list A) (pos : nat) : Prop :=
  (∀ i x p, 0 < i → i ≠ pos → (i - 1) `div` 2 ≠ pos →
     heap !! i = Some x → heap !! ((i - 1) `div` 2) = Some p → le p x)
  ∧ (∀ c x g, 0 < pos → 0 < c → (c - 1) `div` 2 = pos →
       heap !! c = Some x → heap !! ((pos - 1) `div` 2) = Some g → le g x).

Definition below_children (newitem : A) (heap : list A) (pos : nat) : Prop :=
  ∀ c x, 0 < c → (c - 1) `div` 2 = pos → heap !! c = Some x → le newitem x.

Lemma heap_ok_root heap r :
  heap_ok heap → heap !! 0 = Some r → ∀ x, x ∈ heap → le r x.
Proof using PreOrder0.
  intros Hok Hr x [i Hi]%list_elem_of_lookup. revert x Hi.
  induction (lt_wf i) as [i _ IH]. intros x Hi.
  destruct (decide (i = 0)) as [->|Hne]; [by simplify_eq|].
  pose proof (parent_lt i) as Hlt.
  destruct (lookup_lt_is_Some_2 heap ((i - 1) `div` 2)) as [p Hp].
  { apply lookup_lt_Some in Hi. lia. }
  trans p; [apply (IH ((i - 1) `div` 2)); [lia|done]|].
  apply (Hok i); [lia|done..].
Qed.

Lemma hole_ok_insert heap pos x : hole_ok heap pos → hole_ok (<[pos:=x]> heap) pos.
Proof.
  intros [H1 H2]. split.
  - intros i y p Hi Hne Hpar. rewrite !list_lookup_insert_ne by done. by apply H1.
  - intros c y g Hpos Hc Hpar.
    pose proof (parent_lt pos Hpos). pose proof (parent_lt c Hc).
    rewrite !list_lookup_insert_ne by lia. by apply H2.
Qed.

(** Leaving the loop of [_siftdown]: the new item goes into the hole. *)
Lemma siftdown_exit heap newitem pos :
  pos < length heap → hole_ok heap pos → below_children newitem heap pos →
  (0 < pos → ∃ pv, heap !! ((pos - 1) `div` 2) = Some pv ∧ lt newitem pv = false) →
  heap_ok (<[pos:=newitem]> heap).
Proof using nlt_le.
  intros Hpos [H1 H2] Hch Hpar i x p Hi Hx Hpx.
  destruct (decide (i = pos)) as [->|Hne].
  - destruct (Hpar Hi) as (pv & Hpv & Hcmp). pose proof (parent_lt pos Hi).
    rewrite list_lookup_insert_eq in Hx by done.
    rewrite list_lookup_insert_ne in Hpx by lia. simplify_eq. by apply nlt_le.
  - rewrite list_lookup_insert_ne in Hx by done.
    destruct (decide ((i - 1) `div` 2 = pos)) as [Heq|Hne'].
    + rewrite Heq, list_lookup_insert_eq in Hpx by done. simplify_eq.
      by apply (Hch i).
    + rewrite list_lookup_insert_ne in Hpx by done. by apply (H1 i).
Qed.

(** One turn of the loop of [_siftdown]: the parent goes into the hole. *)
Lemma siftdown_step heap newitem pos pv :
  pos < length heap → hole_ok heap pos → below_children newitem heap pos →
  0 < pos → heap !! ((pos - 1) `div` 2) = Some pv → lt newitem pv = true →
  hole_ok (<[pos:=pv]> heap) ((pos - 1) `div` 2)
  ∧ below_children newitem (<[pos:=pv]> heap) ((pos - 1) `div` 2).
Proof using PreOrder0 lt_le.
  intros Hpos [H1 H2] Hch Hp Hpv Hcmp. pose proof (parent_lt pos Hp) as Hlt.
  split; [split|].
  - intros i x p Hi Hne Hne' Hx Hpx.
    destruct (decide (i = pos)) as [->|Hnp]; [done|].
    rewrite list_lookup_insert_ne in Hx by done.
    destruct (decide ((i - 1) `div` 2 = pos)) as [Heq|Hnp'].
    + rewrite Heq, list_lookup_insert_eq in Hpx by done. simplify_eq.
      by apply (H2 i x).
    + rewrite list_lookup_insert_ne in Hpx by done. by apply (H1 i).
  - intros c x g Hpp Hc Hpar Hx Hg.
    pose proof (parent_lt _ Hpp) as Hlt'.
    rewrite list_lookup_insert_ne in Hg by lia.
    assert (le g pv) as Hgp.
    { apply (H1 ((pos - 1) `div` 2)); [done|lia|lia|done|done]. }
    destruct (decide (c = pos)) as [->|Hnp].
    + rewrite list_lookup_insert_eq in Hx by done. by simplify_eq.
    + rewrite list_lookup_insert_ne in Hx by done.
      trans pv; [done|]. apply (H1 c); rewrite ?Hpar; done || lia.
  - intros c x Hc Hpar Hx.
    destruct (decide (c = pos)) as [->|Hnp].
    + rewrite list_lookup_insert_eq in Hx by done. simplify_eq. by apply lt_le.
    + rewrite list_lookup_insert_ne in Hx by done.
      trans pv; [by apply lt_le|]. apply (H1 c); rewrite ?Hpar; done || lia.
Qed.

Lemma siftdown_loop_ok fuel : ∀ heap newitem pos heap',
  pos < length heap → hole_ok heap pos → below_children newitem heap pos →
  siftdown_loop lt fuel heap newitem 0 pos = Ok heap' → heap_ok heap'.
Proof using PreOrder0 lt_le nlt_le.
  induction fuel as [|fuel IH]; intros heap newitem pos heap' Hpos Hhole Hch; [done|].
  rewrite siftdown_loop_S. case_decide as Hp.
  - destruct (heap !! ((pos - 1) `div` 2)) as [pv|] eqn:Hpv.
    2:{ unfold getitem. by rewrite Hpv. }
    rewrite (getitem_Ok _ _ _ Hpv), Ok_bind.
    destruct (lt newitem pv) eqn:Hcmp.
    + destruct (siftdown_step heap newitem pos pv) as [Hhole' Hch']; [done..|].
      apply IH; [|done..]. rewrite length_insert. pose proof (parent_lt pos Hp). lia.
    + intros [= <-]. apply siftdown_exit; eauto.
  - intros [= <-]. apply siftdown_exit; [done..|]. intros ?. lia.
Qed.

Lemma siftdown_ok heap pos heap' :
  pos < length heap → hole_ok heap pos →
  (∀ c, 0 < c → (c - 1) `div` 2 = pos → length heap ≤ c) →
  _siftdown lt heap 0 pos = Ok heap' → heap_ok heap'.
Proof using PreOrder0 lt_le nlt_le.
  intros Hpos Hhole Hleaf. unfold _siftdown.
  destruct (lookup_lt_is_Some_2 heap pos) as [newitem Hnew]; [done|].
  rewrite (getitem_Ok _ _ _ Hnew), Ok_bind.
  apply siftdown_loop_ok; [done..|].
  intros c x Hc Hpar Hx. apply lookup_lt_Some in Hx.
  specialize (Hleaf c Hc Hpar). lia.
Qed.

Lemma heappush_ok heap item heap' :
  heap_ok heap → heappush lt heap item = Ok heap' → heap_ok heap'.
Proof using PreOrder0 lt_le nlt_le.
  intros Hok. unfold heappush. rewrite length_app. simpl.
  replace (length heap + 1 - 1) with (length heap) by lia.
  apply siftdown_ok.
  - rewrite length_app. simpl. lia.
  - split.
    + intros i x p Hi Hne Hne' Hx Hpx.
      assert (i < length heap).
      { apply lookup_lt_Some in Hx. rewrite length_app in Hx. simpl in Hx. lia. }
      pose proof (parent_lt i Hi).
      rewrite lookup_app_l in Hx, Hpx by lia. by apply (Hok i).
    + intros c x g _ Hc Hpar Hx. apply lookup_lt_Some in Hx.
      rewrite length_app in Hx. simpl in Hx. apply parent_child in Hpar; lia.
  - intros c Hc Hpar. rewrite length_app. simpl. apply parent_child in Hpar; lia.
Qed.

(** One turn of the loop of [_siftup]: the smaller child goes into the
    hole. *)
Lemma siftup_loop_ok fuel : ∀ heap pos heap' pos',
  pos < length heap → hole_ok heap pos →
  siftup_loop lt fuel heap (length heap) pos (2 * pos + 1) = Ok (heap', pos') →
  hole_ok heap' pos' ∧ pos' < length heap' ∧ length heap' ≤ 2 * pos' + 1.
Proof using PreOrder0 lt_le nlt_le.
  induction fuel as [|fuel IH]; intros heap pos heap' pos' Hpos [H1 H2]; [done|].
  rewrite siftup_loop_S. case_decide as Hc.
  2:{ intros [= <- <-]. split; [done|]. lia. }
  set (childpos := 2 * pos + 1) in *.
  destruct (lookup_lt_is_Some_2 heap childpos) as [cv Hcv]; [done|].
  assert (∃ c' x, c' < length heap ∧ (c' = childpos ∨ c' = childpos + 1)
    ∧ heap !! c' = Some x
    ∧ (∀ o y, (o = childpos ∨ o = childpos + 1) → heap !! o = Some y → le x y)
    ∧ (if decide (childpos + 1 < length heap)
       then c ← getitem heap childpos; r ← getitem heap (childpos + 1);
            Ok (if lt c r then childpos else childpos + 1)
       else Ok childpos) = Ok c') as (c' & x & Hc' & Hwhich & Hx & Hmin & ->).
  { case_decide as Hr.
    - destruct (lookup_lt_is_Some_2 heap (childpos + 1)) as [rv Hrv]; [done|].
      rewrite (getitem_Ok _ _ _ Hcv), (getitem_Ok _ _ _ Hrv), !Ok_bind.
      destruct (lt cv rv) eqn:Hcmp.
      + exists childpos, cv. split; [done|]. split; [auto|]. split; [done|].
        split; [|done]. intros o y [-> | ->] Hy; simplify_eq; [done|by apply lt_le].
      + exists (childpos + 1), rv. split; [done|]. split; [auto|]. split; [done|].
        split; [|done]. intros o y [-> | ->] Hy; simplify_eq; [by apply nlt_le|done].
    - exists childpos, cv. split; [done|]. split; [auto|]. split; [done|].
      split; [|done]. intros o y [-> | ->] Hy; simplify_eq; [done|].
      apply lookup_lt_Some in Hy. lia. }
  rewrite Ok_bind, (getitem_Ok _ _ _ Hx), Ok_bind.
  intros Hloop. rewrite <-(length_insert heap pos x) in Hloop.
  apply IH in Hloop; [|by rewrite length_insert|].
  { done. }
  assert (pos < c') as Hpc by (unfold childpos in *; lia).
  assert ((c' - 1) `div` 2 = pos) as Hparc.
  { apply parent_child; unfold childpos in *; lia. }
  split.
  - intros i y p Hi Hne Hne' Hy Hp.
    destruct (decide (i = pos)) as [->|Hnp].
    + pose proof (parent_lt pos Hi).
      rewrite list_lookup_insert_eq in Hy by done.
      rewrite list_lookup_insert_ne in Hp by lia. simplify_eq.
      apply (H2 c'); done || lia.
    + rewrite list_lookup_insert_ne in Hy by done.
      destruct (decide ((i - 1) `div` 2 = pos)) as [Heq|Hnp'].
      * rewrite Heq, list_lookup_insert_eq in Hp by done. simplify_eq.
        apply (Hmin i); [|done]. apply parent_child in Heq; [|done].
        unfold childpos. lia.
      * rewrite list_lookup_insert_ne in Hp by done. by apply (H1 i).
  - intros d y g _ Hd Hpar Hy Hg.
    assert (pos < d).
    { apply parent_child in Hpar; lia. }
    rewrite list_lookup_insert_ne in Hy by lia.
    rewrite Hparc, list_lookup_insert_eq in Hg by done. simplify_eq.
    apply (H1 d); try done; lia.
Qed.

Lemma heappop_ok heap x heap' :
  heap_ok heap → heappop lt heap = Ok (x, heap') →
  (∀ y, y ∈ heap → le x y) ∧ heap_ok heap'.
Proof using PreOrder0 lt_le nlt_le.
  intros Hok. unfold heappop.
  destruct (last heap) as [lastelt|] eqn:Hlast; [|done].
  apply last_Some in Hlast as [front ->]. rewrite removelast_last.
  destruct front as [|returnitem rest].
  { intros [= <- <-]. split; [|done].
    intros y ->%list_elem_of_singleton. done. }
  destruct (_siftup lt (lastelt :: rest) 0) as [heap1| |] eqn:Hsift; [|done..].
  rewrite Ok_bind. intros [= <- <-]. split.
  { by apply heap_ok_root. }
  revert Hsift. unfold _siftup.
  change (getitem (lastelt :: rest) 0) with (Ok lastelt). rewrite Ok_bind.
  destruct (siftup_loop lt (S (length (lastelt :: rest))) (lastelt :: rest)
              (length (lastelt :: rest)) 0 (2 * 0 + 1)) as [[heap2 pos2]| |] eqn:Hloop;
    [|done..].
  rewrite Ok_bind.
  apply siftup_loop_ok in Hloop as (Hhole & Hpos2 & Hleaf); [|simpl; lia|].
  - apply siftdown_ok.
    + by rewrite length_insert.
    + by apply hole_ok_insert.
    + intros c Hc Hpar. rewrite length_insert. apply parent_child in Hpar; lia.
  - split; [|intros ??? Hpos; lia].
    intros i y p Hi _ Hne Hy Hp.
    assert (i < S (length rest)) by (apply lookup_lt_Some in Hy; simpl in Hy; lia).
    pose proof (parent_lt i Hi).
    apply (Hok i); [done| |].
    + destruct i; [lia|]. simpl in *. by rewrite lookup_app_l by lia.
    + destruct ((i - 1) `div` 2) eqn:Heq; [done|]. simpl in *.
      by rewrite lookup_app_l by lia.
Qed.
End heapq_order.

Lemma eq_reflexivity_perm {A} (l k : list A) : l = k → l ≡ₚ k.
Proof. by intros ->. Qed.

(** ** Trees *)

(** Induction on a node, with its children if any. *)
Fixpoint Node_ind (P : Node → Prop)
    (H : ∀ f s l r i, from_option P True l → from_option P True r →
                      P (mkNode f s l r i))
    (n : Node) : P n :=
  match n with
  | mkNode f s l r i =>
      H f s l r i
        (match l return from_option P True l with
         | Some x => Node_ind P H x
         | None => I
         end)
        (match r return from_option P True r with
         | Some x => Node_ind P H x
         | None => I
         end)
  end.

(** The leaves that [dfs] records, in the order of the traversal, each with
    the path from the node to it. *)
Fixpoint leaf_paths (node : Node) : list (str * str) :=
  match node with
  | mkNode _ sym l r _ =>
      match sym, l, r with
      | Some s, None, None => [(s, [])]
      | _, _, _ =>
          match l with
          | Some l' => prod_map id (cons c0) <$> leaf_paths l'
          | None => []
          end ++
          match r with
          | Some r' => prod_map id (cons c1) <$> leaf_paths r'
          | None => []
          end
      end
  end.

Definition symbols_of (node : Node) : list str := (leaf_paths node).*1.

(** [path or '0']. *)
Definition or0 (path : str) : str := if decide (path = []) then [c0] else path.

Definition record (path : str) (codes : dict str str) (sp : str * str) : dict str str :=
  dict_set codes sp.1 (or0 (path ++ sp.2)).

Lemma foldl_record_cons c path l codes :
  foldl (record path) codes (prod_map id (cons c) <$> l)
  = foldl (record (path ++ [c])) codes l.
Proof.
  revert codes. induction l as [|[s p] l IH]; intros codes; [done|].
  simpl. rewrite <-IH. unfold record at 2 4. simpl.
  by rewrite <-(assoc_L (++)).
Qed.

Lemma dfs_spec node : ∀ path codes,
  dfs node path codes = foldl (record path) codes (leaf_paths node).
Proof.
  induction node as [f s l r i IHl IHr] using Node_ind. intros path codes.
  assert (∀ codes,
    match l with Some l' => dfs l' (path ++ [c0]) codes | None => codes end
    = foldl (record path) codes
        match l with Some l' => prod_map id (cons c0) <$> leaf_paths l' | None => [] end)
    as Hl.
  { intros codes'. destruct l as [l'|]; [|done]. simpl in IHl.
    by rewrite IHl, foldl_record_cons. }
  assert (∀ codes,
    match r with Some r' => dfs r' (path ++ [c1]) codes | None => codes end
    = foldl (record path) codes
        match r with Some r' => prod_map id (cons c1) <$> leaf_paths r' | None => [] end)
    as Hr.
  { intros codes'. destruct r as [r'|]; [|done]. simpl in IHr.
    by rewrite IHr, foldl_record_cons. }
  destruct s as [s|], l as [l'|], r as [r'|]; simpl;
    rewrite ?foldl_app; simpl in Hl, Hr; rewrite <-?Hr, <-?Hl; try done.
  unfold record, or0. simpl. by rewrite (right_id_L [] (++)).
Qed.

Lemma generate_codes_spec root :
  generate_codes (Some root) = foldl (record []) [] (leaf_paths root).
Proof. apply dfs_spec. Qed.

(** *** Dictionaries *)

Section dict_facts.
Context {K V : Type} `{EqDecision K}.
Implicit Types (d : dict K V) (k : K) (v : V).

Lemma dict_get_set d k k' v :
  dict_get (dict_set d k v) k' = if decide (k = k') then Some v else dict_get d k'.
Proof.
  induction d as [|[k0 v0] d IH]; simpl; [done|].
  destruct (decide (k0 = k)); simpl; [|rewrite IH];
    repeat case_decide; by simplify_eq.
Qed.

Lemma dict_get_Some_elem d k v : dict_get d k = Some v → (k, v) ∈ d.
Proof.
  induction d as [|[k0 v0] d IH]; simpl; [done|].
  case_decide; simplify_eq.
  - intros [= ->]. left.
  - intros ?. right. auto.
Qed.

Lemma dict_get_None d k : dict_get d k = None ↔ k ∉ d.*1.
Proof.
  induction d as [|[k0 v0] d IH]; simpl.
  - split; [|done]. intros _. apply not_elem_of_nil.
  - rewrite not_elem_of_cons. case_decide; simplify_eq.
    + split; [done|]. by intros [? _].
    + rewrite IH. split; [intros ?; split; [congruence|done] | by intros [_ ?]].
Qed.

Lemma dict_get_NoDup d k v : NoDup d.*1 → (k, v) ∈ d → dict_get d k = Some v.
Proof.
  induction d as [|[k0 v0] d IH]; simpl; [by intros _ ?%elem_of_nil|].
  intros [Hk0 Hnd]%NoDup_cons [Heq|Hin]%elem_of_cons.
  - simplify_eq. by rewrite decide_True.
  - case_decide; simplify_eq.
    + destruct Hk0. apply list_elem_of_fmap. by exists (k, v).
    + auto.
Qed.

Lemma dict_set_fresh d k v : k ∉ d.*1 → dict_set d k v = d ++ [(k, v)].
Proof.
  induction d as [|[k0 v0] d IH]; simpl; [done|].
  rewrite not_elem_of_cons. intros [? ?]. rewrite decide_False by done.
  by rewrite IH.
Qed.

Lemma dict_set_keys d k v :
  (dict_set d k v).*1 = if decide (k ∈ d.*1) then d.*1 else d.*1 ++ [k].
Proof.
  induction d as [|[k0 v0] d IH].
  - rewrite decide_False; [done|]. apply not_elem_of_nil.
  - cbn [dict_set fmap list_fmap]. destruct (decide (k0 = k)) as [->|Hne].
    + rewrite decide_True; [done|]. left.
    + cbn [fmap list_fmap]. rewrite IH. simpl. destruct (decide (k ∈ d.*1)).
      * rewrite decide_True; [done|]. by right.
      * rewrite decide_False; [done|]. rewrite not_elem_of_cons. by split.
Qed.

Lemma dict_set_NoDup d k v : NoDup d.*1 → NoDup (dict_set d k v).*1.
Proof.
  intros Hnd. rewrite dict_set_keys. case_decide; [done|].
  apply NoDup_app. split; [done|]. split; [|apply NoDup_singleton].
  intros x Hx ->%list_elem_of_singleton. done.
Qed.
End dict_facts.

(** With distinct symbols the code table is the list of the leaves. *)
Lemma foldl_record_NoDup path l codes :
  NoDup (codes.*1 ++ l.*1) →
  foldl (record path) codes l = codes ++ (prod_map id (λ p, or0 (path ++ p)) <$> l).
Proof.
  revert codes. induction l as [|[s p] l IH]; intros codes Hnd; simpl.
  - by rewrite (right_id_L [] (++)).
  - simpl in Hnd. apply NoDup_app in Hnd as (Hc & Hdisj & Hl).
    unfold record at 2. simpl. rewrite dict_set_fresh.
    2:{ intros Hin. apply (Hdisj _ Hin). left. }
    rewrite IH.
    + by rewrite <-(assoc_L (++)).
    + rewrite fmap_app. simpl. rewrite <-(assoc_L (++)). simpl.
      apply NoDup_app. split; [done|]. split; [|done]. done.
Qed.

(** An entry of the table is a leaf of the tree. *)
Lemma foldl_record_get path l : ∀ codes a c,
  dict_get (foldl (record path) codes l) a = Some c →
  dict_get codes a = Some c ∨ ∃ p, (a, p) ∈ l ∧ c = or0 (path ++ p).
Proof.
  induction l as [|[s p] l IH]; intros codes a c; simpl; [auto|].
  intros [Hget|(q & Hin & ->)]%IH.
  - unfold record in Hget. rewrite dict_get_set in Hget. simpl in Hget.
    case_decide; simplify_eq; [|auto].
    right. exists p. split; [left|done].
  - right. exists q. split; [by right|done].
Qed.

(** ** Building the tree *)

Section build.
Variable id_of : nat → Z.

Definition leaf (sym : str) (f : Z) (n : nat) : Node := mkNode f (Some sym) None None n.
Definition merged (a b : Node) (n : nat) : Node :=
  mkNode (freq a + freq b) None (Some a) (Some b) n.

(** The invariant rule of the [for] loop. *)
Lemma push_leaves_rule (P : list Node → nat → Prop) items : ∀ heap n,
  (∀ heap n sym f heap',
     (sym, f) ∈ items → P heap n →
     heappush (Node_lt id_of) heap (leaf sym f n) = Ok heap' → P heap' (S n)) →
  P heap n →
  ∃ heap', push_leaves id_of items heap n = Ok (heap', n + length items)
           ∧ P heap' (n + length items)
           ∧ heap' ≡ₚ heap ++ imap (λ i sf, leaf sf.1 sf.2 (n + i)) items.
Proof.
  induction items as [|[sym f] items IH]; intros heap n Hstep HP; simpl.
  - rewrite Nat.add_0_r, (right_id_L [] (++)). eauto.
  - destruct (heappush_perm (Node_lt id_of) heap (leaf sym f n)) as (heap1 & Hpush & Hperm).
    unfold leaf in Hpush. rewrite Hpush, Ok_bind.
    destruct (IH heap1 (S n)) as (heap' & Heq & HP' & Hperm').
    { intros. eapply Hstep; [by right|done..]. }
    { eapply Hstep; [left|done..]. }
    replace (n + S (length items)) with (S n + length items) by lia.
    exists heap'. split; [done|]. split; [done|].
    rewrite Hperm', Hperm. rewrite Nat.add_0_r.
    change (leaf sym f n :: heap) with ([leaf sym f n] ++ heap).
    rewrite (Permutation_app_comm [_] heap), <-(assoc_L (++)). simpl.
    do 2 f_equiv. apply eq_reflexivity_perm, imap_ext. intros i [s' f'] _. simpl. f_equal. lia.
Qed.

(** The invariant rule of the [while] loop. *)
Lemma merge_loop_rule (P : list Node → nat → Prop) fuel : ∀ heap n,
  (∀ heap n a h1 b h2 h3,
     P heap n → 1 < length heap →
     heappop (Node_lt id_of) heap = Ok (a, h1) → heappop (Node_lt id_of) h1 = Ok (b, h2) →
     heappush (Node_lt id_of) h2 (merged a b n) = Ok h3 →
     a :: h1 ≡ₚ heap → b :: h2 ≡ₚ h1 → h3 ≡ₚ merged a b n :: h2 →
     P h3 (S n)) →
  P heap n → length heap ≤ fuel → 0 < fuel →
  ∃ heap' n', merge_loop id_of fuel heap n = Ok heap' ∧ P heap' n'
              ∧ length heap' = Nat.min 1 (length heap).
Proof.
  induction fuel as [|fuel IH]; intros heap n Hstep HP Hfuel Hpos; [lia|].
  simpl. case_decide as Hlen.
  - destruct (heappop_perm (Node_lt id_of) heap) as (a & h1 & Hpop1 & Hperm1).
    { intros ->. simpl in Hlen. lia. }
    destruct (heappop_perm (Node_lt id_of) h1) as (b & h2 & Hpop2 & Hperm2).
    { intros ->. apply Permutation_length in Hperm1. simpl in *. lia. }
    destruct (heappush_perm (Node_lt id_of) h2 (merged a b n)) as (h3 & Hpush & Hperm3).
    rewrite Hpop1, Ok_bind, Hpop2, Ok_bind. unfold merged in Hpush.
    rewrite Hpush, Ok_bind.
    pose proof (Permutation_length Hperm1) as Hl1.
    pose proof (Permutation_length Hperm2) as Hl2.
    pose proof (Permutation_length Hperm3) as Hl3. simpl in *.
    destruct (IH h3 (S n)) as (heap' & n' & Heq & HP' & Hlen'); [done| |lia|lia|].
    { eapply Hstep; eauto. }
    exists heap', n'. split; [done|]. split; [done|].
    rewrite Hlen', Hl3, <-Hl1. done.
  - exists heap, n. split; [done|]. split; [done|].
    destruct heap as [|? [|? ?]]; simpl in *; [done..|lia].
Qed.

Definition placeholder_parent (sole : Node) (n : nat) : Node :=
  mkNode (freq sole) None (Some sole) (Some (leaf [] 0 n)) (S n).

Lemma heappush_nil (x : Node) : heappush (Node_lt id_of) [] x = Ok [x].
Proof. done. Qed.

Lemma heappop_singleton (x : Node) : heappop (Node_lt id_of) [x] = Ok (x, []).
Proof. done. Qed.

(** The invariant rule of [build_huffman_tree]: [Q] is an invariant of the
    first loop; [P] holds after the edge case of one symbol and is an
    invariant of the second loop.  It holds at the end, when the heap has
    as many elements as the table has entries, and one at most. *)
Lemma build_rule (Q P : list Node → nat → Prop) (freq_map : dict str Z) :
  Q [] 0 →
  (∀ heap n sym f heap',
     (sym, f) ∈ freq_map → Q heap n →
     heappush (Node_lt id_of) heap (leaf sym f n) = Ok heap' → Q heap' (S n)) →
  (∀ heap,
     Q heap (length freq_map) →
     heap ≡ₚ imap (λ i sf, leaf sf.1 sf.2 i) freq_map →
     length heap ≠ 1 →
     P heap (length freq_map)) →
  (∀ sole,
     Q [sole] (length freq_map) →
     [sole] = imap (λ i sf, leaf sf.1 sf.2 i) freq_map →
     P [placeholder_parent sole (length freq_map)] (S (S (length freq_map)))) →
  (∀ heap n a h1 b h2 h3,
     P heap n → 1 < length heap →
     heappop (Node_lt id_of) heap = Ok (a, h1) →
     heappop (Node_lt id_of) h1 = Ok (b, h2) →
     heappush (Node_lt id_of) h2 (merged a b n) = Ok h3 →
     a :: h1 ≡ₚ heap → b :: h2 ≡ₚ h1 → h3 ≡ₚ merged a b n :: h2 →
     P h3 (S n)) →
  ∃ heap n, build_huffman_tree id_of freq_map = Ok (head heap) ∧ P heap n
            ∧ length heap = Nat.min 1 (length freq_map).
Proof.
  intros Hinit Hpush HQP Hsingle Hmerge. unfold build_huffman_tree.
  destruct (push_leaves_rule Q freq_map [] 0) as (heap0 & -> & HQ0 & Hperm0);
    [done..|].
  rewrite Ok_bind. cbn [Nat.add] in *. simpl in Hperm0.
  pose proof (Permutation_length Hperm0) as Hlen0. rewrite length_imap in Hlen0.
  assert (∃ heap1 n1,
    (if decide (length heap0 = 1) then
      '(sole, heap1) ← heappop (Node_lt id_of) heap0;
      heap2 ← heappush (Node_lt id_of) heap1
                (mkNode (freq sole) None (Some sole)
                   (Some (mkNode 0 (Some []) None None (length freq_map)))
                   (S (length freq_map)));
      Ok (heap2, S (S (length freq_map)))
     else Ok (heap0, length freq_map)) = Ok (heap1, n1)
    ∧ P heap1 n1 ∧ length heap1 = length heap0) as (heap1 & n1 & -> & HP1 & Hlen1).
  { case_decide as Hone.
    - destruct heap0 as [|sole [|??]]; try done.
      eexists _, _. split; [done|]. split; [|done].
      apply Hsingle; [done|]. by apply Permutation_singleton_l.
    - eexists _, _. split; [done|]. split; [|done]. by apply HQP. }
  rewrite Ok_bind.
  destruct (merge_loop_rule P (S (length heap1)) heap1 n1)
    as (heap2 & n2 & -> & HP2 & Hlen2); [done|done|lia|lia|].
  rewrite Ok_bind. exists heap2, n2. split; [done|]. split; [done|].
  by rewrite Hlen2, Hlen1, Hlen0.
Qed.
End build.

(** *** The symbols at the leaves of the tree built *)

Definition forest_symbols (heap : list Node) : list str := heap ≫= symbols_of.

Lemma symbols_of_merged a b n : symbols_of (merged a b n) = symbols_of a ++ symbols_of b.
Proof.
  unfold symbols_of. simpl. rewrite fmap_app, <-!list_fmap_compose.
  f_equal; by apply list_fmap_ext; intros ? [??].
Qed.

Lemma forest_symbols_imap (items : dict str Z) k :
  forest_symbols (imap (λ i sf, leaf sf.1 sf.2 (k + i)) items) = items.*1.
Proof.
  revert k. induction items as [|[s f] items IH]; intros k; [done|].
  unfold forest_symbols in *. rewrite imap_cons, bind_cons, fmap_cons.
  rewrite <-(IH (S k)). simpl. do 2 f_equal.
  apply imap_ext. intros i [??] _. simpl. f_equal. lia.
Qed.

(** The symbols expected at the leaves: the keys of the table, and the empty
    symbol of the placeholder when there is one key only. *)
Definition expected_symbols (freq_map : dict str Z) : list str :=
  freq_map.*1 ++ (if decide (length freq_map = 1) then [[]] else []).

#[global] Instance forest_symbols_perm : Proper ((≡ₚ) ==> (≡ₚ)) forest_symbols.
Proof. intros h h' Hperm. unfold forest_symbols. by rewrite Hperm. Qed.

Section build_symbols.
Variable id_of : nat → Z.

Lemma build_symbols (freq_map : dict str Z) :
  freq_map ≠ [] →
  ∃ root, build_huffman_tree id_of freq_map = Ok (Some root)
          ∧ symbol root = None
          ∧ symbols_of root ≡ₚ expected_symbols freq_map.
Proof.
  intros Hne.
  destruct (build_rule id_of (λ _ _, True)
    (λ heap n, forest_symbols heap ≡ₚ expected_symbols freq_map
               ∧ ∀ x, heap = [x] → symbol x = None)
    freq_map) as (heap & n & Heq & (Hsyms & Hroot) & Hlen); try done.
  - intros heap _ Hperm Hlen. split.
    + rewrite Hperm. pose proof (forest_symbols_imap freq_map 0) as Himap.
      cbn [Nat.add] in Himap. rewrite Himap.
      unfold expected_symbols.
      apply Permutation_length in Hperm. rewrite length_imap in Hperm.
      rewrite decide_False by lia. by rewrite (right_id_L [] (++)).
    + by intros x ->.
  - intros sole _ Hsole. split; [|by intros ? [= <-]].
    destruct freq_map as [|[s f] [|??]]; simplify_eq/=. done.
  - intros heap n a h1 b h2 h3 [Hsyms Hroot] _ _ _ _ Hp1 Hp2 Hp3. split.
    + rewrite Hp3, <-Hsyms, <-Hp1, <-Hp2. unfold forest_symbols. simpl.
      by rewrite symbols_of_merged, (assoc_L (++)).
    + intros x ->. apply Permutation_singleton_l in Hp3. by simplify_eq.
  - destruct heap as [|root [|??]]; simpl in *.
    + by destruct freq_map.
    + exists root. split; [done|]. split; [by apply Hroot|].
      unfold forest_symbols in Hsyms. simpl in Hsyms.
      by rewrite (right_id_L [] (++)) in Hsyms.
    + by destruct freq_map.
Qed.

Lemma build_empty : build_huffman_tree id_of [] = Ok None.
Proof. done. Qed.
End build_symbols.

(** ** The frequency map *)

Definition count_step (freq : dict str Z) (ch : str) : dict str Z :=
  dict_set freq ch (default 0%Z (dict_get freq ch) + 1)%Z.

Definition occurrences (k : str) (cs : list str) : nat := length (filter (k =.) cs).

Definition sum_values (d : dict str Z) : Z := foldr (λ kv acc, kv.2 + acc)%Z 0%Z d.

Lemma occurrences_0 k cs : k ∉ cs → occurrences k cs = 0.
Proof.
  intros Hk. unfold occurrences. induction cs as [|c cs IH]; [done|].
  apply not_elem_of_cons in Hk as [? ?].
  rewrite filter_cons_False by done. auto.
Qed.

Lemma occurrences_pos k cs : k ∈ cs → 0 < occurrences k cs.
Proof.
  unfold occurrences. induction cs as [|c cs IH]; [by intros ?%elem_of_nil|].
  intros Hk. destruct (decide (k = c)) as [->|Hne].
  - rewrite filter_cons_True by done. simpl. lia.
  - rewrite filter_cons_False by done. apply elem_of_cons in Hk as [?|?]; auto. done.
Qed.

Lemma dict_get_count_step d c k :
  dict_get (count_step d c) k =
    if decide (c = k) then Some (default 0 (dict_get d c) + 1)%Z else dict_get d k.
Proof. apply dict_get_set. Qed.

Lemma count_fold_get cs : ∀ d k,
  dict_get (foldl count_step d cs) k =
    if decide (k ∈ cs)
    then Some (default 0 (dict_get d k) + Z.of_nat (occurrences k cs))%Z
    else dict_get d k.
Proof.
  induction cs as [|c cs IH]; intros d k.
  - rewrite decide_False; [done|]. apply not_elem_of_nil.
  - cbn [foldl]. rewrite IH. rewrite !dict_get_count_step.
    unfold occurrences. destruct (decide (c = k)) as [->|Hne].
    + rewrite (decide_True (P := k ∈ k :: cs)) by left.
      rewrite filter_cons_True by done. cbn [length default].
      fold (occurrences k cs). destruct (decide (k ∈ cs)) as [Hin|Hnin].
      * unfold id. f_equal. lia.
      * by rewrite (occurrences_0 k cs Hnin).
    + rewrite filter_cons_False by done.
      destruct (decide (k ∈ cs)) as [Hin|Hnin].
      * rewrite decide_True; [done|]. by right.
      * rewrite decide_False; [done|]. rewrite not_elem_of_cons. by split.
Qed.

Lemma count_fold_NoDup cs : ∀ d, NoDup d.*1 → NoDup (foldl count_step d cs).*1.
Proof.
  induction cs as [|c cs IH]; intros d Hd; [done|].
  simpl. apply IH. by apply dict_set_NoDup.
Qed.

Lemma sum_values_count_step d c : sum_values (count_step d c) = (sum_values d + 1)%Z.
Proof.
  unfold count_step. induction d as [|[k v] d IH]; simpl; [done|].
  destruct (decide (k = c)) as [->|Hne]; simpl.
  - lia.
  - unfold sum_values in *. rewrite IH. lia.
Qed.

Lemma sum_values_fold cs : ∀ d,
  sum_values (foldl count_step d cs) = (sum_values d + Z.of_nat (length cs))%Z.
Proof.
  induction cs as [|c cs IH]; intros d; simpl; [lia|].
  rewrite IH, sum_values_count_step. lia.
Qed.

Lemma build_frequency_map_fold text :
  build_frequency_map text = foldl count_step [] (chars text).
Proof. done. Qed.

Lemma frequency_get text k :
  dict_get (build_frequency_map text) k =
    if decide (k ∈ chars text) then Some (Z.of_nat (occurrences k (chars text)))
    else None.
Proof. rewrite build_frequency_map_fold, count_fold_get. by case_decide. Qed.

Lemma frequency_NoDup text : NoDup (build_frequency_map text).*1.
Proof. apply count_fold_NoDup. constructor. Qed.

Lemma frequency_keys text k : k ∈ (build_frequency_map text).*1 ↔ k ∈ chars text.
Proof.
  pose proof (frequency_get text k) as Hget.
  destruct (decide (k ∈ chars text)) as [Hin|Hnin].
  - split; [done|]. intros _.
    destruct (decide (k ∈ (build_frequency_map text).*1)) as [|Hn]; [done|].
    apply dict_get_None in Hn. congruence.
  - apply dict_get_None in Hget. done.
Qed.

Lemma occurrences_perm k : Proper ((≡ₚ) ==> (=)) (occurrences k).
Proof. intros cs cs' Hperm. unfold occurrences. by rewrite Hperm. Qed.

Lemma frequency_entries text sym f :
  (sym, f) ∈ build_frequency_map text →
  sym ∈ chars text ∧ f = Z.of_nat (occurrences sym (chars text)) ∧ (1 ≤ f)%Z.
Proof.
  intros Hin. apply dict_get_NoDup in Hin; [|apply frequency_NoDup].
  rewrite frequency_get in Hin. case_decide as Hk; [|done].
  simplify_eq. split; [done|]. split; [done|].
  apply occurrences_pos in Hk. lia.
Qed.

(** ** The code table of a tree *)

Definition child_paths (c : Z) (child : option Node) : list (str * str) :=
  match child with
  | Some n => prod_map id (cons c) <$> leaf_paths n
  | None => []
  end.

Definition is_leaf (node : Node) : bool :=
  match symbol node, left node, right node with
  | Some _, None, None => true
  | _, _, _ => false
  end.

Lemma leaf_paths_unfold f s l r i :
  leaf_paths (mkNode f s l r i) =
    if is_leaf (mkNode f s l r i) then [(default [] s, [])]
    else child_paths c0 l ++ child_paths c1 r.
Proof. by destruct s, l, r. Qed.

Lemma elem_of_child_paths c child a p :
  (a, p) ∈ child_paths c child ↔
  ∃ n p', child = Some n ∧ p = c :: p' ∧ (a, p') ∈ leaf_paths n.
Proof.
  destruct child as [n|]; simpl.
  - rewrite list_elem_of_fmap. split.
    + intros ([a' p'] & [= -> ->] & Hin). eauto.
    + intros (n' & p' & [= <-] & -> & Hin). by exists (a, p').
  - split; [by intros ?%elem_of_nil|]. by intros (? & ? & ? & _).
Qed.

(** Two leaves of a tree whose paths are a prefix of one another are the same
    leaf. *)
Lemma leaf_paths_prefix node : ∀ a p b q,
  (a, p) ∈ leaf_paths node → (b, q) ∈ leaf_paths node →
  p `prefix_of` q → a = b ∧ p = q.
Proof.
  induction node as [f s l r i IHl IHr] using Node_ind. intros a p b q.
  rewrite leaf_paths_unfold. destruct (is_leaf _).
  { intros ?%list_elem_of_singleton ?%list_elem_of_singleton _. by simplify_eq. }
  rewrite !elem_of_app, !elem_of_child_paths.
  intros [(n & p' & -> & -> & Hp)|(n & p' & -> & -> & Hp)]
         [(m & q' & ? & -> & Hq)|(m & q' & ? & -> & Hq)] Hpre; simplify_eq/=.
  - apply prefix_cons_inv_2 in Hpre.
    destruct (IHl a p' b q') as [-> ->]; done.
  - by apply prefix_cons_inv_1 in Hpre.
  - by apply prefix_cons_inv_1 in Hpre.
  - apply prefix_cons_inv_2 in Hpre.
    destruct (IHr a p' b q') as [-> ->]; done.
Qed.

Lemma leaf_paths_bits node : ∀ a p, (a, p) ∈ leaf_paths node → forallb is_bit p = true.
Proof.
  induction node as [f s l r i IHl IHr] using Node_ind. intros a p.
  rewrite leaf_paths_unfold. destruct (is_leaf _).
  { intros ?%list_elem_of_singleton. by simplify_eq. }
  rewrite !elem_of_app, !elem_of_child_paths.
  intros [(n & p' & -> & -> & Hp)|(n & p' & -> & -> & Hp)]; simpl in *; eauto.
Qed.

Lemma leaf_paths_nonempty node a p :
  is_leaf node = false → (a, p) ∈ leaf_paths node → p ≠ [].
Proof.
  destruct node as [f s l r i]. rewrite leaf_paths_unfold. intros ->.
  rewrite !elem_of_app, !elem_of_child_paths.
  intros [(n & p' & _ & -> & _)|(n & p' & _ & -> & _)]; done.
Qed.

(** A prefix code: distinct symbols; no code is empty, or has another
    character than '0' and '1', or is a prefix of the code of another
    symbol. *)
Record prefix_code (codes : dict str str) : Prop := {
  pc_keys : NoDup codes.*1;
  pc_nonempty : ∀ a p, (a, p) ∈ codes → p ≠ [];
  pc_bits : ∀ a p, (a, p) ∈ codes → forallb is_bit p = true;
  pc_prefix : ∀ a p b q,
    (a, p) ∈ codes → (b, q) ∈ codes → p `prefix_of` q → a = b ∧ p = q
}.

Lemma generate_codes_NoDup root :
  NoDup (symbols_of root) → is_leaf root = false →
  generate_codes (Some root) = leaf_paths root.
Proof.
  intros Hnd Hroot. rewrite generate_codes_spec, foldl_record_NoDup by done.
  simpl. rewrite <-(list_fmap_id (leaf_paths root)) at 2.
  apply list_fmap_ext. intros i [a p] Hin. simpl. f_equal.
  unfold or0. rewrite decide_False; [done|].
  eapply leaf_paths_nonempty; [done|]. eapply list_elem_of_lookup_2, Hin.
Qed.

Lemma generate_codes_prefix_code root :
  NoDup (symbols_of root) → is_leaf root = false →
  prefix_code (generate_codes (Some root)).
Proof.
  intros Hnd Hroot. rewrite generate_codes_NoDup by done. split.
  - done.
  - intros. by eapply leaf_paths_nonempty.
  - apply leaf_paths_bits.
  - apply leaf_paths_prefix.
Qed.

(** ** Decoding with a prefix code *)

(** The reverse map of [decode_bits_to_text]. *)
Definition rev_of (codes : dict str str) : dict str str :=
  foldl (λ rev kv, dict_set rev kv.2 kv.1) [] codes.

Lemma rev_of_snoc codes a p : rev_of (codes ++ [(a, p)]) = dict_set (rev_of codes) p a.
Proof. unfold rev_of. by rewrite foldl_app. Qed.

Lemma rev_of_get codes :
  (∀ a p b q, (a, p) ∈ codes → (b, q) ∈ codes → p = q → a = b) →
  ∀ a p, dict_get (rev_of codes) p = Some a ↔ (a, p) ∈ codes.
Proof.
  induction codes as [|[b q] codes IH] using rev_ind; intros Hinj a p.
  { split; [done|]. by intros ?%elem_of_nil. }
  rewrite rev_of_snoc, dict_get_set, elem_of_app, list_elem_of_singleton.
  case_decide as Heq; simplify_eq.
  - split.
    + intros [= ->]. by right.
    + intros [Hin|[= -> ]]; [|done]. f_equal.
      apply (Hinj b p a p); rewrite ?elem_of_app, ?list_elem_of_singleton; auto.
  - rewrite IH.
    + split; [auto|]. intros [?|[= -> ->]]; done.
    + intros a' p' b' q' Ha Hb. apply Hinj; rewrite elem_of_app; auto.
Qed.

Section decode.
Context (codes : dict str str) (Hpc : prefix_code codes).

Lemma rev_get a p : dict_get (rev_of codes) p = Some a ↔ (a, p) ∈ codes.
Proof.
  apply rev_of_get. intros a' p' b q Ha Hb ->.
  by destruct (pc_prefix _ Hpc a' q b q Ha Hb).
Qed.

Lemma rev_get_proper_prefix a p q :
  (a, p) ∈ codes → q `prefix_of` p → q ≠ p → dict_get (rev_of codes) q = None.
Proof.
  intros Hin Hpre Hne. destruct (dict_get (rev_of codes) q) as [b|] eqn:Hget; [|done].
  apply rev_get in Hget. by destruct (pc_prefix _ Hpc b q a p Hget Hin Hpre).
Qed.

(** Reading the code of a symbol emits the symbol. *)
Lemma decode_loop_code a p rest out : ∀ p2 p1,
  (a, p) ∈ codes → p = p1 ++ p2 → p2 ≠ [] →
  decode_loop (rev_of codes) (p2 ++ rest) p1 out
  = decode_loop (rev_of codes) rest [] (out ++ [a]).
Proof.
  induction p2 as [|b p2 IH]; intros p1 Hin -> Hne; [done|].
  simpl. destruct (decide (p2 = [])) as [->|Hne2].
  - apply rev_get in Hin. by rewrite Hin.
  - rewrite (rev_get_proper_prefix a (p1 ++ b :: p2)); [|done| |].
    + apply IH; [done| |done]. by rewrite <-(assoc_L (++)).
    + exists p2. by rewrite <-(assoc_L (++)).
    + intros Heq. apply (f_equal length) in Heq.
      rewrite !length_app in Heq. simpl in Heq. destruct p2; [done|simpl in *; lia].
Qed.


(** The bits of a text. *)
Lemma encode_chars_cons c cs bits :
  encode_chars (c :: cs) codes = Ok bits ↔
  ∃ p bits', dict_get codes c = Some p ∧ encode_chars cs codes = Ok bits'
             ∧ bits = p ++ bits'.
Proof.
  simpl. unfold dict_getitem. destruct (dict_get codes c) as [p|]; simpl.
  - destruct (encode_chars cs codes) as [bits'| |]; simpl.
    + split; [intros [= <-]; eauto|]. by intros (? & ? & [= <-] & [= <-] & ->).
    + split; [done|]. by intros (? & ? & _ & ? & _).
    + split; [done|]. by intros (? & ? & _ & ? & _).
  - split; [done|]. by intros (? & ? & ? & _).
Qed.

Lemma decode_loop_encode cs : ∀ bits rest out,
  encode_chars cs codes = Ok bits →
  decode_loop (rev_of codes) (bits ++ rest) [] out
  = decode_loop (rev_of codes) rest [] (out ++ cs).
Proof.
  induction cs as [|c cs IH]; intros bits rest out Henc.
  { simpl in Henc. simplify_eq. by rewrite (right_id_L [] (++)). }
  apply encode_chars_cons in Henc as (p & bits' & Hget & Henc & ->).
  apply dict_get_Some_elem in Hget.
  rewrite <-(assoc_L (++)).
  rewrite (decode_loop_code c p); [|done|done|by eapply pc_nonempty].
  rewrite (IH _ _ _ Henc). by rewrite <-(assoc_L (++)).
Qed.

End decode.

(** ** Packing bits into bytes *)

Lemma is_bit_cases c : is_bit c = true → c = c0 ∨ c = c1.
Proof. unfold is_bit. intros [?%Z.eqb_eq|?%Z.eqb_eq]%orb_true_iff; auto. Qed.

Lemma forallb_cons_true {A} (f : A → bool) x l :
  forallb f (x :: l) = true ↔ f x = true ∧ forallb f l = true.
Proof. simpl. apply andb_true_iff. Qed.

Lemma forallb_app_true {A} (f : A → bool) l k :
  forallb f (l ++ k) = true ↔ forallb f l = true ∧ forallb f k = true.
Proof.
  induction l as [|x l IH]; simpl.
  - split; [done|]. by intros [_ ?].
  - rewrite !andb_true_iff, IH. tauto.
Qed.

Lemma forallb_take_true {A} (f : A → bool) n l :
  forallb f l = true → forallb f (take n l) = true.
Proof.
  intros H. rewrite <-(take_drop n l) in H. by apply forallb_app_true in H as [? _].
Qed.

Lemma forallb_drop_true {A} (f : A → bool) n l :
  forallb f l = true → forallb f (drop n l) = true.
Proof.
  intros H. rewrite <-(take_drop n l) in H. by apply forallb_app_true in H as [_ ?].
Qed.

Lemma forallb_replicate_true {A} (f : A → bool) n x :
  f x = true → forallb f (replicate n x) = true.
Proof. intros Hx. induction n; simpl; [done|]. by rewrite Hx. Qed.

(** A chunk of eight bits is a byte, which [format_08b] prints back. *)
Lemma chunk_byte (chunk : str) :
  length chunk = 8 → forallb is_bit chunk = true →
  ∃ v, int_base2 chunk = Ok v ∧ (0 ≤ v < 256)%Z ∧ format_08b v = chunk.
Proof.
  intros Hlen Hbits.
  do 8 (destruct chunk as [|? chunk]; [done|]). destruct chunk; [|done].
  repeat (apply forallb_cons_true in Hbits as [[->| ->]%is_bit_cases Hbits]);
    (eexists; split; [reflexivity|]; split; [done|reflexivity]).
Qed.

Lemma bytes_to_bits_cons v bs : bytes_to_bits (v :: bs) = format_08b v ++ bytes_to_bits bs.
Proof. done. Qed.

Lemma pack_loop_spec (padded : str) : ∀ n a b,
  8 * (a + n) ≤ length padded → forallb is_bit padded = true →
  ∃ bs, pack_loop padded ((λ k, k * 8) <$> seq a n) b = Ok (b ++ bs)
        ∧ bytes_to_bits bs = take (8 * n) (drop (8 * a) padded)
        ∧ Forall (λ v, 0 ≤ v < 256)%Z bs.
Proof.
  induction n as [|n IH]; intros a b Hlen Hbits.
  { exists []. by rewrite (right_id_L [] (++)). }
  cbn [seq fmap list_fmap pack_loop]. unfold slice.
  replace (a * 8 + 8 - a * 8) with 8 by lia. replace (a * 8) with (8 * a) by lia.
  destruct (chunk_byte (take 8 (drop (8 * a) padded))) as (v & -> & Hv & Hfmt).
  { rewrite length_take, length_drop. lia. }
  { by apply forallb_take_true, forallb_drop_true. }
  rewrite Ok_bind. unfold bytearray_append. rewrite decide_True by done. rewrite Ok_bind.
  destruct (IH (S a) (b ++ [v])) as (bs & -> & Hbs & Hrange); [lia|done|].
  exists (v :: bs). split; [by rewrite <-(assoc_L (++))|]. split; [|by constructor].
  rewrite bytes_to_bits_cons, Hfmt, Hbs.
  replace (8 * S a) with (8 * a + 8) by lia. rewrite <-drop_drop.
  replace (8 * S n) with (8 + 8 * n) by lia. by rewrite take_take_drop.
Qed.

Lemma py_range0_8 n : py_range0 (8 * n) 8 = (λ k, k * 8) <$> seq 0 n.
Proof.
  unfold py_range0. do 2 f_equal.
  symmetry. apply Nat.div_unique with 7; lia.
Qed.

Definition padding_of (bitstring : str) : Z :=
  ((8 - Z.of_nat (length bitstring) `mod` 8) `mod` 8)%Z.

Lemma padding_of_range bitstring : (0 ≤ padding_of bitstring ≤ 7)%Z.
Proof. unfold padding_of. pose proof (Z.mod_pos_bound (8 - Z.of_nat (length bitstring) `mod` 8) 8). lia. Qed.

Lemma padded_length bitstring :
  ∃ n, length bitstring + Z.to_nat (padding_of bitstring) = 8 * n.
Proof.
  unfold padding_of.
  exists (Z.to_nat ((Z.of_nat (length bitstring)
                     + (8 - Z.of_nat (length bitstring) `mod` 8) `mod` 8) / 8)).
  set (len := Z.of_nat (length bitstring)).
  assert (0 ≤ len)%Z by lia.
  assert (length bitstring = Z.to_nat len) as -> by lia.
  clearbody len.
  pose proof (Z.mod_pos_bound len 8).
  pose proof (Z.mod_pos_bound (8 - len `mod` 8) 8).
  assert (((len + (8 - len `mod` 8) `mod` 8) `mod` 8 = 0)%Z) as Hmod.
  { rewrite Zplus_mod_idemp_r. rewrite <-Zplus_mod_idemp_l.
    replace (len `mod` 8 + (8 - len `mod` 8))%Z with (1 * 8)%Z by lia.
    by rewrite Z.mod_mul. }
  pose proof (Z.div_mod (len + (8 - len `mod` 8) `mod` 8) 8).
  lia.
Qed.

(** [bits_to_bytes] returns the bytes of the padded bit string. *)
Lemma bits_to_bytes_spec bitstring :
  forallb is_bit bitstring = true →
  ∃ bs, bits_to_bytes bitstring = Ok (bs, padding_of bitstring)
        ∧ bytes_to_bits bs = bitstring ++ replicate (Z.to_nat (padding_of bitstring)) c0
        ∧ Forall (λ v, 0 ≤ v < 256)%Z bs.
Proof.
  intros Hbits. unfold bits_to_bytes. fold (padding_of bitstring).
  destruct (padded_length bitstring) as [n Hn].
  set (padded := bitstring ++ replicate (Z.to_nat (padding_of bitstring)) c0).
  assert (length padded = 8 * n) as Hlen.
  { unfold padded. by rewrite length_app, length_replicate. }
  rewrite Hlen, py_range0_8.
  destruct (pack_loop_spec padded n 0 []) as (bs & -> & Hbs & Hrange); [lia| |].
  { apply forallb_app_true. split; [done|]. by apply forallb_replicate_true. }
  rewrite Ok_bind. exists bs. split; [done|]. split; [|done].
  rewrite Hbs, drop_0, <-Hlen. apply take_ge. lia.
Qed.

Lemma slice_to_neg {A} (l k : list A) (p : Z) :
  (0 < p)%Z → Z.to_nat p = length k → slice_to (l ++ k) (- p) = l.
Proof.
  intros Hp Hk. unfold slice_to. rewrite length_app.
  assert ((- p <? 0)%Z = true) as -> by lia.
  replace (Z.to_nat (Z.max (- p + Z.of_nat (length l + length k)) 0)) with (length l) by lia.
  by rewrite take_app_length.
Qed.

Lemma remove_padding_spec bitstring :
  remove_padding (bitstring ++ replicate (Z.to_nat (padding_of bitstring)) c0)
                 (JInt (padding_of bitstring)) = Ok bitstring.
Proof.
  unfold remove_padding. simpl. pose proof (padding_of_range bitstring).
  destruct (padding_of bitstring =? 0)%Z eqn:Hz; simpl.
  - apply Z.eqb_eq in Hz. rewrite Hz. simpl. by rewrite (right_id_L [] (++)).
  - apply Z.eqb_neq in Hz. f_equal. apply slice_to_neg; [lia|].
    by rewrite length_replicate.
Qed.

(** ** UTF-8 *)

(** The code points of a text read from a UTF-8 file: no surrogates. *)
Definition is_scalar (c : Z) : bool :=
  ((0 <=? c) && (c <? 55296) || (57344 <=? c) && (c <? 1114112))%Z.

Lemma is_scalar_range c :
  is_scalar c = true ↔ (0 ≤ c < 55296 ∨ 57344 ≤ c < 1114112)%Z.
Proof. unfold is_scalar. lia. Qed.

Lemma utf8_encode_char_scalar c : is_scalar c = true → is_Some (utf8_encode_char c).
Proof.
  intros Hc%is_scalar_range. unfold utf8_encode_char.
  repeat (case_match; try done); lia.
Qed.

Lemma utf8_char_roundtrip c b rest :
  utf8_encode_char c = Some b →
  utf8_decode (b ++ rest) = cons c <$> utf8_decode rest.
Proof.
  unfold utf8_encode_char. intros Henc.
  destruct (c <? 0)%Z eqn:H0; [done|].
  destruct (c <? 128)%Z eqn:H1.
  { simplify_eq. simpl. by rewrite H1. }
  destruct (c <? 2048)%Z eqn:H2.
  { simplify_eq. cbn [app utf8_decode].
    pose proof (Z.div_mod c 64). pose proof (Z.mod_pos_bound c 64).
    assert ((192 + c / 64 <? 128)%Z = false) as -> by lia.
    assert ((192 + c / 64 <? 194)%Z = false) as -> by lia.
    assert ((192 + c / 64 <? 224)%Z = true) as -> by lia.
    assert (is_cont (128 + c `mod` 64) = true) as -> by (unfold is_cont; lia).
    do 2 f_equal. lia. }
  destruct (c <? 65536)%Z eqn:H3.
  { destruct ((55296 <=? c) && (c <? 57344))%Z eqn:Hs; [done|].
    simplify_eq. cbn [app utf8_decode].
    pose proof (Z.div_mod c 64). pose proof (Z.mod_pos_bound c 64).
    pose proof (Z.div_mod (c / 64) 64). pose proof (Z.mod_pos_bound (c / 64) 64).
    assert (c / 4096 = c / 64 / 64)%Z as Hdd by (by rewrite Z.div_div by lia).
    assert ((224 + c / 4096 <? 128)%Z = false) as -> by lia.
    assert ((224 + c / 4096 <? 194)%Z = false) as -> by lia.
    assert ((224 + c / 4096 <? 224)%Z = false) as -> by lia.
    assert ((224 + c / 4096 <? 240)%Z = true) as -> by lia.
    assert (is_cont (128 + (c / 64) `mod` 64) = true) as -> by (unfold is_cont; lia).
    assert (is_cont (128 + c `mod` 64) = true) as -> by (unfold is_cont; lia).
    assert ((224 + c / 4096 - 224) * 4096 + (128 + (c / 64) `mod` 64 - 128) * 64
            + (128 + c `mod` 64 - 128) = c)%Z as -> by lia.
    assert ((2048 <=? c)%Z = true) as -> by lia.
    rewrite Hs. done. }
  destruct (c <? 1114112)%Z eqn:H4; [|done].
  simplify_eq. cbn [app utf8_decode].
  pose proof (Z.div_mod c 64). pose proof (Z.mod_pos_bound c 64).
  pose proof (Z.div_mod (c / 64) 64). pose proof (Z.mod_pos_bound (c / 64) 64).
  pose proof (Z.div_mod (c / 64 / 64) 64). pose proof (Z.mod_pos_bound (c / 64 / 64) 64).
  assert (c / 4096 = c / 64 / 64)%Z as Hdd by (by rewrite Z.div_div by lia).
  assert (c / 262144 = c / 64 / 64 / 64)%Z as Hddd by (by rewrite !Z.div_div by lia).
  rewrite Hdd, Hddd.
  assert ((240 + c / 64 / 64 / 64 <? 128)%Z = false) as -> by lia.
  assert ((240 + c / 64 / 64 / 64 <? 194)%Z = false) as -> by lia.
  assert ((240 + c / 64 / 64 / 64 <? 224)%Z = false) as -> by lia.
  assert ((240 + c / 64 / 64 / 64 <? 240)%Z = false) as -> by lia.
  assert ((240 + c / 64 / 64 / 64 <? 245)%Z = true) as -> by lia.
  assert (is_cont (128 + (c / 64 / 64) `mod` 64) = true) as -> by (unfold is_cont; lia).
  assert (is_cont (128 + (c / 64) `mod` 64) = true) as -> by (unfold is_cont; lia).
  assert (is_cont (128 + c `mod` 64) = true) as -> by (unfold is_cont; lia).
  assert ((240 + c / 64 / 64 / 64 - 240) * 262144
          + (128 + (c / 64 / 64) `mod` 64 - 128) * 4096
          + (128 + (c / 64) `mod` 64 - 128) * 64
          + (128 + c `mod` 64 - 128) = c)%Z as -> by lia.
  assert ((65536 <=? c)%Z = true) as -> by lia.
  rewrite H4. done.
Qed.

Lemma utf8_roundtrip s : ∀ b, utf8_encode s = Some b → utf8_decode b = Some s.
Proof.
  induction s as [|c s IH]; intros b; simpl.
  - by intros [= <-].
  - destruct (utf8_encode_char c) as [bc|] eqn:Hc; [|done]. simpl.
    destruct (utf8_encode s) as [bs|]; [|done]. simpl. intros [= <-].
    rewrite (utf8_char_roundtrip c bc bs Hc). by rewrite (IH bs).
Qed.

Lemma utf8_encode_app s t :
  utf8_encode (s ++ t) = bs ← utf8_encode s; bt ← utf8_encode t; Some (bs ++ bt).
Proof.
  induction s as [|c s IH]; simpl.
  - by destruct (utf8_encode t).
  - destruct (utf8_encode_char c) as [bc|]; [|done]. simpl. rewrite IH.
    destruct (utf8_encode s) as [bs|]; [|done]. simpl.
    destruct (utf8_encode t) as [bt|]; [|done]. simpl.
    by rewrite (assoc_L (++)).
Qed.

Lemma utf8_encode_scalars s :
  forallb is_scalar s = true → is_Some (utf8_encode s).
Proof.
  induction s as [|c s IH]; simpl; [eauto|].
  intros [Hc Hs]%andb_true_iff.
  destruct (utf8_encode_char_scalar c Hc) as [bc ->].
  destruct (IH Hs) as [bs ->]. simpl. eauto.
Qed.

(** ** JSON: what [json.dumps] writes, [json.loads] reads back *)

Definition body (s : str) : str := mjoin (escape_char <$> s).

Lemma dumps_str_body s : dumps_str s = 34%Z :: body s ++ [34%Z].
Proof. done. Qed.

Lemma body_cons c s : body (c :: s) = escape_char c ++ body s.
Proof. done. Qed.

Lemma scanstring_plain c r :
  (c =? 34)%Z = false → (c =? 92)%Z = false → (c <? 32)%Z = false →
  scanstring (c :: r) = '(x, rest) ← scanstring r; Some (c :: x, rest).
Proof. intros H1 H2 H3. simpl. by rewrite H1, H2, H3. Qed.

Lemma small_nat_cases (c : Z) :
  (0 ≤ c < 32)%Z → ∃ n : nat, n < 32 ∧ c = Z.of_nat n.
Proof. intros Hc. exists (Z.to_nat c). lia. Qed.

Lemma scanstring_body s : ∀ rest,
  Forall (λ c, 0 ≤ c)%Z s → scanstring (body s ++ 34%Z :: rest) = Some (s, rest).
Proof.
  induction s as [|c s IH]; intros rest Hs; [done|].
  apply Forall_cons in Hs as [Hc Hs]. rewrite body_cons, <-(assoc_L (++)).
  specialize (IH rest Hs).
  destruct (decide (c < 32)%Z) as [Hlt|Hge].
  - destruct (small_nat_cases c) as (n & Hn & ->); [lia|].
    do 32 (destruct n as [|n]; [simpl; by rewrite IH|]). lia.
  - unfold escape_char.
    destruct (c =? 34)%Z eqn:H34.
    { apply Z.eqb_eq in H34 as ->. simpl. by rewrite IH. }
    destruct (c =? 92)%Z eqn:H92.
    { apply Z.eqb_eq in H92 as ->. simpl. by rewrite IH. }
    assert ((c =? 10) = false ∧ (c =? 13) = false ∧ (c =? 9) = false
            ∧ (c =? 8) = false ∧ (c =? 12) = false ∧ (c <? 32) = false)%Z
      as (-> & -> & -> & -> & -> & Hlt) by lia.
    rewrite Hlt, andb_false_r. cbn [app].
    rewrite scanstring_plain by done. by rewrite IH.
Qed.

Lemma scan_once_S fuel c r :
  (c =? 34)%Z = true →
  scan_once (S fuel) (c :: r) = '(x, rest) ← scanstring r; Some (JStr x, rest).
Proof. intros H. simpl. by rewrite H. Qed.

Lemma scan_once_str fuel s rest :
  0 < fuel → Forall (λ c, 0 ≤ c)%Z s →
  scan_once fuel (dumps_str s ++ rest) = Some (JStr s, rest).
Proof.
  intros Hfuel Hs. destruct fuel as [|fuel]; [lia|].
  rewrite dumps_str_body. cbn [app]. rewrite scan_once_S by done.
  rewrite <-(assoc_L (++)). cbn [app]. by rewrite scanstring_body.
Qed.

(** *** Objects *)

(** An entry of an object being written: the key, the text of the value and
    the value. *)
Definition entry : Type := str * str * json.

Definition entry_text (e : entry) : str := dumps_str e.1.1 ++ [58; 32]%Z ++ e.1.2.

Definition more_entries (es : list entry) : str :=
  mjoin ((λ e, [44; 32]%Z ++ entry_text e) <$> es).

Lemma join_comma_cons x xs :
  join_comma (x :: xs) = x ++ mjoin ((λ y, [44; 32]%Z ++ y) <$> xs).
Proof.
  revert x. induction xs as [|y xs IH]; intros x.
  - simpl. by rewrite (right_id_L [] (++)).
  - change (join_comma (x :: y :: xs)) with (x ++ [44; 32]%Z ++ join_comma (y :: xs)).
    by rewrite IH.
Qed.

Lemma join_comma_entries e es :
  join_comma (entry_text <$> (e :: es)) = entry_text e ++ more_entries es.
Proof.
  rewrite fmap_cons, join_comma_cons. unfold more_entries.
  by rewrite <-list_fmap_compose.
Qed.

(** The text of a value is read back as the value, on enough fuel, when a
    comma or a closing brace follows. *)
Definition scans (F : nat) (txt : str) (v : json) : Prop :=
  (∃ c t, txt = c :: t ∧ is_ws c = false) ∧
  ∀ fuel c rest, F ≤ fuel → c = 44%Z ∨ c = 125%Z →
    scan_once fuel (txt ++ c :: rest) = Some (v, c :: rest).

Definition good_entry (F : nat) (e : entry) : Prop :=
  Forall (λ c, 0 ≤ c)%Z e.1.1 ∧ scans F e.1.2 e.2.

Lemma JSONObject_S fuel s pairs :
  JSONObject (S fuel) s pairs =
    '(key, r) ← scanstring s;
    match skip_ws r with
    | c :: r1 =>
        if (c =? 58)%Z then
          '(value, r2) ← scan_once fuel (skip_ws r1);
          let pairs := pairs ++ [(key, value)] in
          match skip_ws r2 with
          | c' :: r3 =>
              if (c' =? 125)%Z then Some (JDict (dict_of_pairs pairs), r3)
              else if (c' =? 44)%Z then
                match skip_ws r3 with
                | c'' :: r4 => if (c'' =? 34)%Z then JSONObject fuel r4 pairs else None
                | [] => None
                end
              else None
          | [] => None
          end
        else None
    | [] => None
    end.
Proof. done. Qed.

Lemma skip_ws_nonws c r : is_ws c = false → skip_ws (c :: r) = c :: r.
Proof. intros H. simpl. by rewrite H. Qed.

Lemma skip_ws_ws c r : is_ws c = true → skip_ws (c :: r) = skip_ws r.
Proof. intros H. simpl. by rewrite H. Qed.

Lemma more_entries_cons e es rest :
  more_entries (e :: es) ++ rest =
    44%Z :: 32%Z :: 34%Z :: body e.1.1 ++ [34%Z] ++ [58; 32]%Z ++ e.1.2
      ++ more_entries es ++ rest.
Proof.
  unfold more_entries, entry_text. rewrite fmap_cons, dumps_str_body. simpl.
  by rewrite <-!(assoc_L (++)).
Qed.

Lemma JSONObject_entries F es : ∀ e pairs fuel rest,
  good_entry F e → Forall (good_entry F) es → F + length es < fuel →
  JSONObject fuel (body e.1.1 ++ [34%Z] ++ [58; 32]%Z ++ e.1.2 ++ more_entries es
                   ++ 125%Z :: rest) pairs
  = Some (JDict (dict_of_pairs (pairs ++ ((λ e, (e.1.1, e.2)) <$> (e :: es)))), rest).
Proof.
  induction es as [|e' es IH]; intros [[k txt] v] pairs fuel rest [Hk Hv] Hes Hfuel;
    (destruct fuel as [|fuel]; [lia|]); simpl in Hk, Hv; cbn [fst snd];
    destruct Hv as [(c & t & -> & Hc) Hscan].
  - cbn [app]. rewrite JSONObject_S, scanstring_body by done. cbn [mbind option_bind].
    rewrite (skip_ws_nonws 58) by done. change (58 =? 58)%Z with true. cbv iota.
    rewrite (skip_ws_ws 32), (skip_ws_nonws c) by done.
    change (c :: t ++ more_entries [] ++ 125%Z :: rest)
      with ((c :: t) ++ 125%Z :: rest).
    rewrite Hscan by (simpl in *; lia || auto). cbn [mbind option_bind].
    rewrite (skip_ws_nonws 125) by done. done.
  - apply Forall_cons in Hes as [He' Hes].
    cbn [app]. rewrite JSONObject_S, scanstring_body by done. cbn [mbind option_bind].
    rewrite (skip_ws_nonws 58) by done. change (58 =? 58)%Z with true. cbv iota.
    rewrite (skip_ws_ws 32), (skip_ws_nonws c) by done.
    rewrite more_entries_cons.
    change (c :: t ++ ?x) with ((c :: t) ++ x).
    rewrite Hscan by (simpl in *; lia || auto). cbn [mbind option_bind].
    rewrite (skip_ws_nonws 44) by done.
    change (44 =? 125)%Z with false. change (44 =? 44)%Z with true. cbv iota.
    rewrite (skip_ws_ws 32), (skip_ws_nonws 34) by done.
    change (34 =? 34)%Z with true. cbv iota.
    rewrite (IH e' (pairs ++ [(k, v)]) fuel rest He' Hes) by (simpl in *; lia).
    by rewrite <-(assoc_L (++)).
Qed.

Lemma scan_once_object F e es fuel rest :
  good_entry F e → Forall (good_entry F) es → S (F + length es) < fuel →
  scan_once fuel (123%Z :: join_comma (entry_text <$> (e :: es)) ++ 125%Z :: rest)
  = Some (JDict (dict_of_pairs ((λ e, (e.1.1, e.2)) <$> (e :: es))), rest).
Proof.
  intros He Hes Hfuel. destruct fuel as [|fuel]; [lia|].
  assert (join_comma (entry_text <$> (e :: es)) ++ 125%Z :: rest
          = 34%Z :: (body e.1.1 ++ [34%Z] ++ [58; 32]%Z ++ e.1.2 ++ more_entries es
                     ++ 125%Z :: rest)) as ->.
  { rewrite join_comma_entries. unfold entry_text. rewrite dumps_str_body.
    rewrite <-!(assoc_L (++)). cbn [app]. by rewrite <-!(assoc_L (++)). }
  change (scan_once (S fuel) (123%Z :: 34%Z :: ?r)) with (JSONObject fuel r []).
  by rewrite (JSONObject_entries F es e [] fuel rest) by (done || lia).
Qed.

Lemma dict_of_pairs_NoDup {V} (pairs : list (str * V)) :
  NoDup pairs.*1 → dict_of_pairs pairs = pairs.
Proof.
  intros Hnd. unfold dict_of_pairs.
  assert (∀ d, NoDup (d.*1 ++ pairs.*1) →
               foldl (λ d kv, dict_set d kv.1 kv.2) d pairs = d ++ pairs) as Hgen.
  { clear Hnd. induction pairs as [|[k v] pairs IH]; intros d Hnd; simpl.
    - by rewrite (right_id_L [] (++)).
    - simpl in Hnd. apply NoDup_app in Hnd as (Hd & Hdisj & Hp).
      rewrite dict_set_fresh.
      2:{ intros Hin. apply (Hdisj _ Hin). left. }
      rewrite IH; [by rewrite <-(assoc_L (++))|].
      rewrite fmap_app, <-(assoc_L (++)). simpl. by apply NoDup_app. }
  by apply (Hgen []).
Qed.

(** *** The code table *)

Definition code_entry (kv : str * str) : entry := (kv.1, dumps_str kv.2, JStr kv.2).

Definition codes_json (codes : dict str str) : json :=
  JDict ((λ kv, (kv.1, JStr kv.2)) <$> codes).

(** The characters of the symbols and of the codes are code points. *)
Definition valid_codes (codes : dict str str) : Prop :=
  Forall (λ kv, Forall (λ c, 0 ≤ c)%Z kv.1 ∧ Forall (λ c, 0 ≤ c)%Z kv.2) codes.

Lemma dumps_codes_entries codes :
  dumps_codes codes = 123%Z :: join_comma (entry_text <$> (code_entry <$> codes)) ++ [125%Z].
Proof.
  unfold dumps_codes. cbn [app]. do 3 f_equal.
  rewrite <-list_fmap_compose. done.
Qed.

Lemma code_entry_good kv :
  Forall (λ c, 0 ≤ c)%Z kv.1 → Forall (λ c, 0 ≤ c)%Z kv.2 → good_entry 1 (code_entry kv).
Proof.
  intros Hk Hv. split; [done|]. split.
  - eexists 34%Z, _. split; [reflexivity|done].
  - intros fuel c rest Hfuel _. apply scan_once_str; [lia|done].
Qed.

Lemma scan_once_codes codes fuel rest :
  valid_codes codes → NoDup codes.*1 → length codes + 2 < fuel →
  scan_once fuel (dumps_codes codes ++ rest) = Some (codes_json codes, rest).
Proof.
  intros Hvalid Hnd Hfuel. rewrite dumps_codes_entries.
  destruct codes as [|kv codes].
  { destruct fuel; [lia|]. done. }
  cbn [app]. rewrite <-(assoc_L (++)). cbn [app].
  apply Forall_cons in Hvalid as [[Hk Hv] Hvalid]. rewrite (fmap_cons code_entry).
  rewrite (scan_once_object 1 (code_entry kv) (code_entry <$> codes)).
  - unfold codes_json. do 3 f_equal. rewrite <-fmap_cons, <-list_fmap_compose.
    rewrite dict_of_pairs_NoDup; [done|].
    rewrite <-list_fmap_compose. exact Hnd.
  - by apply code_entry_good.
  - apply Forall_fmap. eapply Forall_impl; [done|]. intros kv' [??].
    by apply code_entry_good.
  - rewrite length_fmap. simpl in Hfuel. lia.
Qed.

(** *** The header *)

Definition key_codes : str := [99; 111; 100; 101; 115]%Z.
Definition key_padding : str := [112; 97; 100; 100; 105; 110; 103]%Z.

Definition header_json (codes : dict str str) (padding : Z) : json :=
  JDict [(key_codes, codes_json codes); (key_padding, JInt padding)].

Lemma dumps_header_entries codes padding :
  dumps_header codes padding =
    123%Z :: join_comma (entry_text <$>
      [(key_codes, dumps_codes codes, codes_json codes);
       (key_padding, str_of_int padding, JInt padding)]) ++ [125%Z].
Proof.
  unfold dumps_header, entry_text. simpl. rewrite <-!(assoc_L (++)). done.
Qed.

Lemma scans_padding padding : (0 ≤ padding ≤ 7)%Z → scans 1 (str_of_int padding) (JInt padding).
Proof.
  intros Hp.
  assert (padding = 0 ∨ padding = 1 ∨ padding = 2 ∨ padding = 3 ∨ padding = 4
          ∨ padding = 5 ∨ padding = 6 ∨ padding = 7)%Z as Hcases by lia.
  split.
  - destruct Hcases as [->|[->|[->|[->|[->|[->|[->| ->]]]]]]]; by eexists _, _.
  - intros fuel c rest Hfuel Hc. destruct fuel as [|fuel]; [lia|].
    destruct Hcases as [->|[->|[->|[->|[->|[->|[->| ->]]]]]]];
      destruct Hc as [-> | ->]; reflexivity.
Qed.

Lemma join_comma_length (xs : list str) : length xs ≤ S (length (join_comma xs)).
Proof.
  destruct xs as [|x xs]; [simpl; lia|].
  rewrite join_comma_cons, length_app. cbn [length].
  enough (length xs ≤ length (mjoin ((λ y, [44; 32]%Z ++ y) <$> xs))) by lia.
  induction xs as [|y xs IH]; [done|].
  rewrite fmap_cons. change (mjoin (?x :: ?l)) with (x ++ mjoin l).
  rewrite !length_app. cbn [length]. lia.
Qed.

Lemma dumps_codes_length codes : length codes ≤ length (dumps_codes codes).
Proof.
  unfold dumps_codes. rewrite !length_app. cbn [length].
  pose proof (join_comma_length
    ((λ kv, dumps_str kv.1 ++ [58; 32]%Z ++ dumps_str kv.2) <$> codes)) as H.
  rewrite length_fmap in H. lia.
Qed.

Theorem json_loads_dumps_header codes padding :
  valid_codes codes → NoDup codes.*1 → (0 ≤ padding ≤ 7)%Z →
  json_loads (dumps_header codes padding) = Ok (header_json codes padding).
Proof.
  intros Hvalid Hnd Hp. unfold json_loads.
  assert (∀ fuel, length codes + 5 < fuel →
    scan_once fuel (skip_ws (dumps_header codes padding))
    = Some (header_json codes padding, [])) as Hscan.
  { intros fuel Hfuel. rewrite dumps_header_entries.
    rewrite (skip_ws_nonws 123) by done.
    rewrite (scan_once_object (length codes + 3)); [done| | |simpl; lia].
    - split; [by repeat constructor|]. split.
      + eexists 123%Z, _. split; [reflexivity|done].
      + intros fuel' c rest Hfuel' _. apply scan_once_codes; [done..|lia].
    - constructor; [|done]. split; [by repeat constructor|].
      destruct (scans_padding padding Hp) as [Hstart Hscan]. split; [done|].
      intros fuel' c rest Hfuel' Hc. apply Hscan; [lia|done]. }
  pose proof (dumps_codes_length codes) as Hlen.
  rewrite Hscan.
  - unfold dumps_header. done.
  - unfold dumps_header. rewrite !length_app. cbn [length]. lia.
Qed.

(** ** The scanner needs no more fuel than [json_loads] gives it *)

Lemma skip_ws_length s : length (skip_ws s) ≤ length s.
Proof.
  induction s as [|c r IH]; [done|]. cbn [skip_ws].
  destruct (is_ws c); cbn [length]; lia.
Qed.

Lemma skip_ws_cons_length s c r : skip_ws s = c :: r → length r < length s.
Proof.
  intros H. pose proof (skip_ws_length s) as Hl. rewrite H in Hl.
  cbn [length] in Hl. lia.
Qed.

Lemma strip_prefix_length p : ∀ s rest,
  strip_prefix p s = Some rest → length rest ≤ length s.
Proof.
  induction p as [|a p IH]; intros [|b s] rest H; simplify_eq/=; try lia.
  destruct (a =? b)%Z; [|done]. apply IH in H. lia.
Qed.

Lemma take_digits_length s ds rest :
  take_digits s = (ds, rest) → length rest ≤ length s.
Proof.
  revert ds rest. induction s as [|c r IH]; intros ds rest H; simplify_eq/=; [lia|].
  destruct (is_digit c); simplify_eq/=; [|lia].
  destruct (take_digits r) as [ds' rest'] eqn:E. simplify_eq.
  specialize (IH _ _ eq_refl). lia.
Qed.

Lemma scanstring_length n : ∀ s x rest,
  length s ≤ n → scanstring s = Some (x, rest) → length rest < length s.
Proof.
  induction n as [|n IH]; intros [|c r] x rest Hn H; try done; cbn [length] in Hn; [lia|].
  assert (Hrec : ∀ t y q, length t ≤ length r → scanstring t = Some (y, q) →
                          length q < S (length r)).
  { intros t y q Ht Hq. apply IH in Hq; lia. }
  cbn [scanstring] in H. cbn [length].
  destruct (c =? 34)%Z; [simplify_eq; lia|].
  destruct (c =? 92)%Z.
  - destruct r as [|e r1]; [done|].
    destruct (e =? 117)%Z.
    + destruct r1 as [|h1 [|h2 [|h3 [|h4 r2]]]]; try done.
      destruct (hex4 h1 h2 h3 h4) as [uni|]; [|done]. cbn [mbind option_bind] in H.
      assert (Hsingle : ∀ y, ('(x, rest) ← scanstring r2; Some (y :: x, rest)) = Some (x, rest)
                             → length rest < S (length (e :: h1 :: h2 :: h3 :: h4 :: r2))).
      { intros y Hy. destruct (scanstring r2) as [[x' rest']|] eqn:E; simplify_eq/=.
        apply Hrec in E; cbn [length] in *; lia. }
      destruct (is_high_surrogate uni); [|by eapply Hsingle].
      destruct r2 as [|b1 [|u1 r3]]; try (by eapply Hsingle).
      destruct ((b1 =? 92)%Z && (u1 =? 117)%Z); [|by eapply Hsingle].
      destruct r3 as [|g1 [|g2 [|g3 [|g4 r4]]]]; try done.
      destruct (hex4 g1 g2 g3 g4) as [uni2|]; [|done]. cbn [mbind option_bind] in H.
      destruct (is_low_surrogate uni2); [|by eapply Hsingle].
      destruct (scanstring r4) as [[x' rest']|] eqn:E; simplify_eq/=.
      apply Hrec in E; cbn [length] in *; lia.
    + destruct (unescape e); [|done]. cbn [mbind option_bind] in H.
      destruct (scanstring r1) as [[x' rest']|] eqn:E; simplify_eq/=.
      apply Hrec in E; cbn [length] in *; lia.
  - destruct (c <? 32)%Z; [done|].
    destruct (scanstring r) as [[x' rest']|] eqn:E; simplify_eq/=.
    apply Hrec in E; lia.
Qed.

Lemma parse_number_length s v rest :
  parse_number s = Some (v, rest) → length rest ≤ length s.
Proof.
  unfold parse_number. intros H.
  destruct (match s with
            | c :: r => if (c =? 45)%Z then (true, r) else (false, s)
            | [] => (false, s)
            end) as [neg s1] eqn:E1.
  assert (length s1 ≤ length s) as H1.
  { destruct s as [|c r]; [by simplify_eq|].
    destruct (c =? 45)%Z; simplify_eq; cbn [length]; lia. }
  destruct (match s1 with
            | d :: r =>
                if (d =? 48)%Z then Some ([d], r)
                else if is_digit d then let '(ds, rest) := take_digits r in Some (d :: ds, rest)
                else None
            | [] => None
            end) as [[ipart s2]|] eqn:E2; [|done].
  assert (length s2 ≤ length s1) as H2.
  { destruct s1 as [|d r]; [done|]. cbn [length].
    destruct (d =? 48)%Z; [simplify_eq; lia|].
    destruct (is_digit d); [|done].
    destruct (take_digits r) as [ds q] eqn:E. apply take_digits_length in E.
    simplify_eq. lia. }
  cbn [mbind option_bind] in H.
  destruct (match s2 with
            | c :: r =>
                if (c =? 46)%Z then
                  let '(fd, rest) := take_digits r in
                  if decide (fd = []) then (None, s2) else (Some fd, rest)
                else (None, s2)
            | [] => (None, s2)
            end) as [frac s3] eqn:E3.
  assert (length s3 ≤ length s2) as H3.
  { destruct s2 as [|c r]; [by simplify_eq|].
    destruct (c =? 46)%Z; [|by simplify_eq].
    destruct (take_digits r) as [fd q] eqn:E. apply take_digits_length in E.
    case_decide; simplify_eq; cbn [length]; lia. }
  destruct (match s3 with
            | c :: r =>
                if (c =? 101)%Z || (c =? 69)%Z then
                  let '(eneg, r') := match r with
                                     | g :: r'' => if (g =? 45)%Z then (true, r'')
                                                   else if (g =? 43)%Z then (false, r'')
                                                   else (false, r)
                                     | [] => (false, r)
                                     end in
                  let '(ed, rest) := take_digits r' in
                  if decide (ed = []) then (None, s3)
                  else (Some (if eneg then - digits_value ed else digits_value ed)%Z, rest)
                else (None, s3)
            | [] => (None, s3)
            end) as [exp s4] eqn:E4.
  assert (length s4 ≤ length s3) as H4.
  { destruct s3 as [|c r]; [by simplify_eq|].
    destruct ((c =? 101)%Z || (c =? 69)%Z); [|by simplify_eq].
    destruct (match r with
              | g :: r'' => if (g =? 45)%Z then (true, r'')
                            else if (g =? 43)%Z then (false, r'')
                            else (false, r)
              | [] => (false, r)
              end) as [eneg r'] eqn:E5.
    assert (length r' ≤ length r).
    { destruct r as [|g r'']; [by simplify_eq|].
      destruct (g =? 45)%Z; [simplify_eq; cbn [length]; lia|].
      destruct (g =? 43)%Z; simplify_eq; cbn [length]; lia. }
    destruct (take_digits r') as [ed q] eqn:E. apply take_digits_length in E.
    case_decide; simplify_eq; cbn [length]; lia. }
  assert (rest = s4) as ->; [|lia].
  destruct frac, exp; by simplify_eq.
Qed.

(** The three scanners are unfolded one step at a time. *)
Lemma scan_once_unfold fuel s :
  scan_once (S fuel) s =
  match s with
  | [] => None
  | c :: r =>
      if (c =? 34)%Z then '(x, rest) ← scanstring r; Some (JStr x, rest)
      else if (c =? 123)%Z then
        match skip_ws r with
        | c' :: r' =>
            if (c' =? 125)%Z then Some (JDict [], r')
            else if (c' =? 34)%Z then JSONObject fuel r' []
            else None
        | [] => None
        end
      else if (c =? 91)%Z then
        match skip_ws r with
        | c' :: r' =>
            if (c' =? 93)%Z then Some (JList [], r')
            else JSONArray fuel (c' :: r') []
        | [] => None
        end
      else
        match strip_prefix [110; 117; 108; 108]%Z s,
              strip_prefix [116; 114; 117; 101]%Z s,
              strip_prefix [102; 97; 108; 115; 101]%Z s with
        | Some rest, _, _ => Some (JNull, rest)
        | _, Some rest, _ => Some (JBool true, rest)
        | _, _, Some rest => Some (JBool false, rest)
        | _, _, _ =>
            match parse_number s with
            | Some res => Some res
            | None =>
                match strip_prefix [78; 97; 78]%Z s,
                      strip_prefix [73; 110; 102; 105; 110; 105; 116; 121]%Z s,
                      strip_prefix [45; 73; 110; 102; 105; 110; 105; 116; 121]%Z s with
                | Some rest, _, _ => Some (JFloat FNan, rest)
                | _, Some rest, _ => Some (JFloat (FInf false), rest)
                | _, _, Some rest => Some (JFloat (FInf true), rest)
                | _, _, _ => None
                end
            end
        end
  end.
Proof. done. Qed.

Lemma JSONObject_unfold fuel s pairs :
  JSONObject (S fuel) s pairs =
  '(key, r) ← scanstring s;
  match skip_ws r with
  | c :: r1 =>
      if (c =? 58)%Z then
        '(value, r2) ← scan_once fuel (skip_ws r1);
        let pairs := pairs ++ [(key, value)] in
        match skip_ws r2 with
        | c' :: r3 =>
            if (c' =? 125)%Z then Some (JDict (dict_of_pairs pairs), r3)
            else if (c' =? 44)%Z then
              match skip_ws r3 with
              | c'' :: r4 => if (c'' =? 34)%Z then JSONObject fuel r4 pairs else None
              | [] => None
              end
            else None
        | [] => None
        end
      else None
  | [] => None
  end.
Proof. done. Qed.

Lemma JSONArray_unfold fuel s values :
  JSONArray (S fuel) s values =
  '(value, r) ← scan_once fuel s;
  let values := values ++ [value] in
  match skip_ws r with
  | c :: r1 =>
      if (c =? 93)%Z then Some (JList values, r1)
      else if (c =? 44)%Z then JSONArray fuel (skip_ws r1) values
      else None
  | [] => None
  end.
Proof. done. Qed.

(** What a scanner leaves is no longer than what it was given. *)
Lemma scan_length fuel :
  (∀ s v rest, scan_once fuel s = Some (v, rest) → length rest ≤ length s) ∧
  (∀ s pairs v rest, JSONObject fuel s pairs = Some (v, rest) → length rest ≤ length s) ∧
  (∀ s values v rest, JSONArray fuel s values = Some (v, rest) → length rest ≤ length s).
Proof.
  induction fuel as [|fuel (IHs & IHo & IHa)]; [done|].
  split_and!.
  - intros s v rest. rewrite scan_once_unfold.
    destruct s as [|c r]; [done|].
    destruct (c =? 34)%Z.
    { destruct (scanstring r) as [[x q]|] eqn:E; [|done].
      intros; simplify_eq/=. apply (scanstring_length _ _ _ _ (le_n _)) in E. lia. }
    destruct (c =? 123)%Z.
    { destruct (skip_ws r) as [|c' r'] eqn:E; [done|].
      apply skip_ws_cons_length in E.
      destruct (c' =? 125)%Z; [intros; simplify_eq/=; lia|].
      destruct (c' =? 34)%Z; [|done].
      intros Hr%IHo. cbn [length]. lia. }
    destruct (c =? 91)%Z.
    { destruct (skip_ws r) as [|c' r'] eqn:E; [done|].
      pose proof (skip_ws_length r) as Hl. rewrite E in Hl.
      destruct (c' =? 93)%Z; [intros; simplify_eq/=; cbn [length] in *; lia|].
      intros Hr%IHa. cbn [length] in *. lia. }
    intros H.
    repeat match type of H with
           | context [strip_prefix ?p ?t] =>
               let E := fresh "E" in
               destruct (strip_prefix p t) eqn:E;
               [apply strip_prefix_length in E|]
           | context [parse_number ?t] =>
               let E := fresh "E" in
               destruct (parse_number t) as [[??]|] eqn:E;
               [apply parse_number_length in E|]
           end; by simplify_eq.
  - intros s pairs v rest. rewrite JSONObject_unfold.
    destruct (scanstring s) as [[key r]|] eqn:E; [|done]. cbn [mbind option_bind].
    apply (scanstring_length _ _ _ _ (le_n _)) in E.
    destruct (skip_ws r) as [|c r1] eqn:E1; [done|].
    apply skip_ws_cons_length in E1.
    destruct (c =? 58)%Z; [|done].
    destruct (scan_once fuel (skip_ws r1)) as [[value r2]|] eqn:E2; [|done].
    apply IHs in E2. pose proof (skip_ws_length r1).
    cbn [mbind option_bind].
    destruct (skip_ws r2) as [|c' r3] eqn:E3; [done|].
    apply skip_ws_cons_length in E3.
    destruct (c' =? 125)%Z; [intros; simplify_eq/=; lia|].
    destruct (c' =? 44)%Z; [|done].
    destruct (skip_ws r3) as [|c'' r4] eqn:E4; [done|].
    apply skip_ws_cons_length in E4.
    destruct (c'' =? 34)%Z; [|done].
    intros Hr%IHo. lia.
  - intros s values v rest. rewrite JSONArray_unfold.
    destruct (scan_once fuel s) as [[value r]|] eqn:E; [|done].
    apply IHs in E. cbn [mbind option_bind].
    destruct (skip_ws r) as [|c r1] eqn:E1; [done|].
    apply skip_ws_cons_length in E1.
    destruct (c =? 93)%Z; [intros; simplify_eq/=; lia|].
    destruct (c =? 44)%Z; [|done].
    intros Hr%IHa. pose proof (skip_ws_length r1). lia.
Qed.

(** Above twice the length of the text (and one more inside an object or an
    array) the amount of fuel does not matter. *)
Lemma scan_fuel fuel : ∀ fuel',
  (∀ s, 2 * length s ≤ fuel → 2 * length s ≤ fuel' →
        scan_once fuel s = scan_once fuel' s) ∧
  (∀ s pairs, 2 * length s + 1 ≤ fuel → 2 * length s + 1 ≤ fuel' →
        JSONObject fuel s pairs = JSONObject fuel' s pairs) ∧
  (∀ s values, 2 * length s + 1 ≤ fuel → 2 * length s + 1 ≤ fuel' →
        JSONArray fuel s values = JSONArray fuel' s values).
Proof.
  induction fuel as [|fuel IH]; intros fuel'.
  { split_and!; intros s; intros; [|lia..].
    destruct s; [|cbn [length] in *; lia]. by destruct fuel'. }
  split_and!.
  - intros [|c r] Hf Hf'; [by destruct fuel'|].
    destruct fuel' as [|fuel']; [cbn [length] in Hf'; lia|].
    destruct (IH fuel') as (_ & IHo & IHa).
    rewrite !scan_once_unfold. cbn [length] in Hf, Hf'.
    destruct (c =? 34)%Z; [done|].
    destruct (c =? 123)%Z.
    { destruct (skip_ws r) as [|c' r'] eqn:E; [done|].
      apply skip_ws_cons_length in E.
      destruct (c' =? 125)%Z; [done|].
      destruct (c' =? 34)%Z; [|done].
      apply IHo; lia. }
    destruct (c =? 91)%Z; [|done].
    destruct (skip_ws r) as [|c' r'] eqn:E; [done|].
    pose proof (skip_ws_length r) as Hl. rewrite E in Hl.
    destruct (c' =? 93)%Z; [done|].
    apply IHa; lia.
  - intros s pairs Hf Hf'.
    destruct fuel' as [|fuel']; [lia|].
    destruct (IH fuel') as (IHs & IHo & _).
    rewrite !JSONObject_unfold.
    destruct (scanstring s) as [[key r]|] eqn:E; [|done]. cbn [mbind option_bind].
    apply (scanstring_length _ _ _ _ (le_n _)) in E.
    destruct (skip_ws r) as [|c r1] eqn:E1; [done|].
    apply skip_ws_cons_length in E1.
    destruct (c =? 58)%Z; [|done].
    pose proof (skip_ws_length r1).
    rewrite <- (IHs (skip_ws r1)) by lia.
    destruct (scan_once fuel (skip_ws r1)) as [[value r2]|] eqn:E2; [|done].
    apply (proj1 (scan_length fuel)) in E2.
    cbn [mbind option_bind].
    destruct (skip_ws r2) as [|c' r3] eqn:E3; [done|].
    apply skip_ws_cons_length in E3.
    destruct (c' =? 125)%Z; [done|].
    destruct (c' =? 44)%Z; [|done].
    destruct (skip_ws r3) as [|c'' r4] eqn:E4; [done|].
    apply skip_ws_cons_length in E4.
    destruct (c'' =? 34)%Z; [|done].
    apply IHo; lia.
  - intros s values Hf Hf'.
    destruct fuel' as [|fuel']; [lia|].
    destruct (IH fuel') as (IHs & _ & IHa).
    rewrite !JSONArray_unfold.
    rewrite <- (IHs s) by lia.
    destruct (scan_once fuel s) as [[value r]|] eqn:E; [|done].
    apply (proj1 (scan_length fuel)) in E. cbn [mbind option_bind].
    destruct (skip_ws r) as [|c r1] eqn:E1; [done|].
    apply skip_ws_cons_length in E1.
    destruct (c =? 93)%Z; [done|].
    destruct (c =? 44)%Z; [|done].
    pose proof (skip_ws_length r1).
    apply IHa; lia.
Qed.

(** [json_loads] gives the scanner enough: with any larger amount the result
    is the same. *)
Lemma json_loads_fuel s fuel :
  2 * length s ≤ fuel →
  scan_once fuel (skip_ws s) = scan_once (S (2 * length s)) (skip_ws s).
Proof.
  intros H. pose proof (skip_ws_length s).
  apply (proj1 (scan_fuel fuel (S (2 * length s)))); lia.
Qed.

(** *** The scanner under the recursion limit *)

Lemma scan_once_limit_unfold fuel depth s :
  scan_once_limit (S fuel) depth s =
  match s with
  | [] => Raise ValueError
  | c :: r =>
      if (c =? 34)%Z then
        '(x, rest) ← or_decode_error (scanstring r); Ok (JStr x, rest)
      else if (c =? 123)%Z then
        match depth with
        | O => Raise RecursionError
        | S depth' =>
            match skip_ws r with
            | c' :: r' =>
                if (c' =? 125)%Z then Ok (JDict [], r')
                else if (c' =? 34)%Z then JSONObject_limit fuel depth' r' []
                else Raise ValueError
            | [] => Raise ValueError
            end
        end
      else if (c =? 91)%Z then
        match depth with
        | O => Raise RecursionError
        | S depth' =>
            match skip_ws r with
            | c' :: r' =>
                if (c' =? 93)%Z then Ok (JList [], r')
                else JSONArray_limit fuel depth' (c' :: r') []
            | [] => Raise ValueError
            end
        end
      else or_decode_error (scan_literal s)
  end.
Proof. done. Qed.

Lemma JSONObject_limit_unfold fuel depth s pairs :
  JSONObject_limit (S fuel) depth s pairs =
  '(key, r) ← or_decode_error (scanstring s);
  match skip_ws r with
  | c :: r1 =>
      if (c =? 58)%Z then
        '(value, r2) ← scan_once_limit fuel depth (skip_ws r1);
        let pairs := pairs ++ [(key, value)] in
        match skip_ws r2 with
        | c' :: r3 =>
            if (c' =? 125)%Z then Ok (JDict (dict_of_pairs pairs), r3)
            else if (c' =? 44)%Z then
              match skip_ws r3 with
              | c'' :: r4 =>
                  if (c'' =? 34)%Z then JSONObject_limit fuel depth r4 pairs
                  else Raise ValueError
              | [] => Raise ValueError
              end
            else Raise ValueError
        | [] => Raise ValueError
        end
      else Raise ValueError
  | [] => Raise ValueError
  end.
Proof. done. Qed.

Lemma JSONArray_limit_unfold fuel depth s values :
  JSONArray_limit (S fuel) depth s values =
  '(value, r) ← scan_once_limit fuel depth s;
  let values := values ++ [value] in
  match skip_ws r with
  | c :: r1 =>
      if (c =? 93)%Z then Ok (JList values, r1)
      else if (c =? 44)%Z then JSONArray_limit fuel depth (skip_ws r1) values
      else Raise ValueError
  | [] => Raise ValueError
  end.
Proof. done. Qed.

(** The scanner with the limit and the scanner without it: the first raises
    RecursionError, or is out of fuel, or does what the second does. *)
Definition agree {A} (r : result A) (o : option A) : Prop :=
  r = Raise RecursionError ∨ r = OutOfFuel ∨ r = or_decode_error o.

Lemma agree_Ok {A} (r : result A) o x : agree r o → r = Ok x → o = Some x.
Proof.
  intros [-> | [-> | ->]] Hr; [done..|]. destruct o; simpl in Hr; by simplify_eq.
Qed.

Lemma scan_limit_agree fuel :
  (∀ depth s, agree (scan_once_limit fuel depth s) (scan_once fuel s)) ∧
  (∀ depth s pairs, agree (JSONObject_limit fuel depth s pairs) (JSONObject fuel s pairs)) ∧
  (∀ depth s values, agree (JSONArray_limit fuel depth s values) (JSONArray fuel s values)).
Proof.
  induction fuel as [|fuel (IHs & IHo & IHa)].
  { split_and!; intros; right; by left. }
  split_and!.
  - intros depth s. rewrite scan_once_limit_unfold, scan_once_unfold.
    destruct s as [|c r]; [by do 2 right|].
    destruct (c =? 34)%Z.
    { do 2 right. by destruct (scanstring r) as [[??]|]. }
    destruct (c =? 123)%Z.
    { destruct depth as [|depth]; [by left|].
      destruct (skip_ws r) as [|c' r']; [by do 2 right|].
      destruct (c' =? 125)%Z; [by do 2 right|].
      destruct (c' =? 34)%Z; [apply IHo|by do 2 right]. }
    destruct (c =? 91)%Z.
    { destruct depth as [|depth]; [by left|].
      destruct (skip_ws r) as [|c' r']; [by do 2 right|].
      destruct (c' =? 93)%Z; [by do 2 right|]. apply IHa. }
    by do 2 right.
  - intros depth s pairs. rewrite JSONObject_limit_unfold, JSONObject_unfold.
    destruct (scanstring s) as [[key r]|]; [|by do 2 right].
    cbn [or_decode_error mbind option_bind]. rewrite Ok_bind.
    destruct (skip_ws r) as [|c r1]; [by do 2 right|].
    destruct (c =? 58)%Z; [|by do 2 right].
    destruct (IHs depth (skip_ws r1)) as [-> | [-> | ->]]; [by left|right; by left|].
    destruct (scan_once fuel (skip_ws r1)) as [[value r2]|]; [|by do 2 right].
    cbn [or_decode_error mbind option_bind]. rewrite Ok_bind.
    destruct (skip_ws r2) as [|c' r3]; [by do 2 right|].
    destruct (c' =? 125)%Z; [by do 2 right|].
    destruct (c' =? 44)%Z; [|by do 2 right].
    destruct (skip_ws r3) as [|c'' r4]; [by do 2 right|].
    destruct (c'' =? 34)%Z; [apply IHo|by do 2 right].
  - intros depth s values. rewrite JSONArray_limit_unfold, JSONArray_unfold.
    destruct (IHs depth s) as [-> | [-> | ->]]; [by left|right; by left|].
    destruct (scan_once fuel s) as [[value r]|]; [|by do 2 right].
    cbn [or_decode_error mbind option_bind]. rewrite Ok_bind.
    destruct (skip_ws r) as [|c r1]; [by do 2 right|].
    destruct (c =? 93)%Z; [by do 2 right|].
    destruct (c =? 44)%Z; [apply IHa|by do 2 right].
Qed.

(** With twice the length of the text and one more (two inside an object or
    an array) the fuel is not used up. *)
Lemma scan_limit_fuel fuel :
  (∀ depth s, 2 * length s + 1 ≤ fuel → scan_once_limit fuel depth s ≠ OutOfFuel) ∧
  (∀ depth s pairs, 2 * length s + 2 ≤ fuel →
     JSONObject_limit fuel depth s pairs ≠ OutOfFuel) ∧
  (∀ depth s values, 2 * length s + 2 ≤ fuel →
     JSONArray_limit fuel depth s values ≠ OutOfFuel).
Proof.
  induction fuel as [|fuel (IHs & IHo & IHa)].
  { split_and!; intros; lia. }
  split_and!.
  - intros depth s Hf. rewrite scan_once_limit_unfold.
    destruct s as [|c r]; [done|]. cbn [length] in Hf.
    destruct (c =? 34)%Z.
    { by destruct (scanstring r) as [[??]|]. }
    destruct (c =? 123)%Z.
    { destruct depth as [|depth]; [done|].
      destruct (skip_ws r) as [|c' r'] eqn:E; [done|].
      apply skip_ws_cons_length in E.
      destruct (c' =? 125)%Z; [done|].
      destruct (c' =? 34)%Z; [|done]. apply IHo. lia. }
    destruct (c =? 91)%Z.
    { destruct depth as [|depth]; [done|].
      destruct (skip_ws r) as [|c' r'] eqn:E; [done|].
      pose proof (skip_ws_length r) as Hl. rewrite E in Hl.
      destruct (c' =? 93)%Z; [done|]. apply IHa. lia. }
    by destruct (scan_literal (c :: r)).
  - intros depth s pairs Hf. rewrite JSONObject_limit_unfold.
    destruct (scanstring s) as [[key r]|] eqn:E; [|done].
    cbn [or_decode_error]. rewrite Ok_bind.
    apply (scanstring_length _ _ _ _ (le_n _)) in E.
    destruct (skip_ws r) as [|c r1] eqn:E1; [done|].
    apply skip_ws_cons_length in E1.
    destruct (c =? 58)%Z; [|done].
    pose proof (skip_ws_length r1).
    pose proof (IHs depth (skip_ws r1)) as Hs.
    pose proof (proj1 (scan_limit_agree fuel) depth (skip_ws r1)) as Hagree.
    destruct (scan_once_limit fuel depth (skip_ws r1)) as [[value r2]|e|] eqn:E2.
    + apply (agree_Ok _ _ (value, r2)) in Hagree; [|done].
      apply (proj1 (scan_length fuel)) in Hagree.
      rewrite Ok_bind.
      destruct (skip_ws r2) as [|c' r3] eqn:E3; [done|].
      apply skip_ws_cons_length in E3.
      destruct (c' =? 125)%Z; [done|].
      destruct (c' =? 44)%Z; [|done].
      destruct (skip_ws r3) as [|c'' r4] eqn:E4; [done|].
      apply skip_ws_cons_length in E4.
      destruct (c'' =? 34)%Z; [|done]. apply IHo. lia.
    + done.
    + destruct Hs; [lia|done].
  - intros depth s values Hf. rewrite JSONArray_limit_unfold.
    pose proof (IHs depth s) as Hs.
    pose proof (proj1 (scan_limit_agree fuel) depth s) as Hagree.
    destruct (scan_once_limit fuel depth s) as [[value r]|e|] eqn:E.
    + apply (agree_Ok _ _ (value, r)) in Hagree; [|done].
      apply (proj1 (scan_length fuel)) in Hagree.
      rewrite Ok_bind.
      destruct (skip_ws r) as [|c r1] eqn:E1; [done|].
      apply skip_ws_cons_length in E1.
      destruct (c =? 93)%Z; [done|].
      destruct (c =? 44)%Z; [|done].
      pose proof (skip_ws_length r1). apply IHa. lia.
    + done.
    + destruct Hs; [lia|done].
Qed.

(** [json.loads] under the limit raises RecursionError or does what it does
    without the limit. *)
Lemma json_loads_limit_agree depth s :
  json_loads_limit depth s = Raise RecursionError ∨ json_loads_limit depth s = json_loads s.
Proof.
  unfold json_loads_limit, json_loads.
  assert (∀ t,
    ('(obj, rest) ← scan_once_limit (S (2 * length t)) depth (skip_ws t);
     if decide (skip_ws rest = []) then Ok obj else Raise ValueError)
    = Raise RecursionError
    ∨ ('(obj, rest) ← scan_once_limit (S (2 * length t)) depth (skip_ws t);
       if decide (skip_ws rest = []) then Ok obj else Raise ValueError)
      = match scan_once (S (2 * length t)) (skip_ws t) with
        | Some (obj, rest) =>
            if decide (skip_ws rest = []) then Ok obj else Raise ValueError
        | None => Raise ValueError
        end) as Hgen.
  { intros t. pose proof (skip_ws_length t) as Hl.
    pose proof (proj1 (scan_limit_fuel (S (2 * length t))) depth (skip_ws t)) as Hfuel.
    destruct (proj1 (scan_limit_agree (S (2 * length t))) depth (skip_ws t))
      as [->|[Hout| ->]]; [by left| |].
    - exfalso. apply Hfuel; [lia|exact Hout].
    - right. by destruct (scan_once _ _) as [[??]|]. }
  destruct s as [|c s]; [apply (Hgen [])|].
  destruct c as [|p|p]; try apply (Hgen (_ :: s)).
  repeat (destruct p as [p|p|]; try apply (Hgen (_ :: s))). by right.
Qed.

(** Nesting one deeper than the interpreter allows raises RecursionError,
    whatever follows. *)
Lemma scan_once_limit_deep depth : ∀ fuel rest,
  2 * depth < fuel →
  scan_once_limit fuel depth (replicate (S depth) 91%Z ++ rest) = Raise RecursionError.
Proof.
  induction depth as [|depth IH]; intros fuel rest Hf.
  { destruct fuel as [|fuel]; [lia|]. done. }
  destruct fuel as [|fuel]; [lia|].
  change (replicate (S (S depth)) 91%Z ++ rest)
    with (91%Z :: (replicate (S depth) 91%Z ++ rest)).
  rewrite scan_once_limit_unfold.
  change (91 =? 34)%Z with false. change (91 =? 123)%Z with false.
  change (91 =? 91)%Z with true. cbv iota.
  change (replicate (S depth) 91%Z ++ rest)
    with (91%Z :: (replicate depth 91%Z ++ rest)).
  rewrite (skip_ws_nonws 91) by done.
  change (91 =? 93)%Z with false. cbv iota.
  destruct fuel as [|fuel]; [lia|].
  rewrite JSONArray_limit_unfold.
  change (91%Z :: (replicate depth 91%Z ++ rest))
    with (replicate (S depth) 91%Z ++ rest).
  rewrite IH by lia. done.
Qed.

Lemma json_loads_limit_deep depth rest :
  json_loads_limit depth (replicate (S depth) 91%Z ++ rest) = Raise RecursionError.
Proof.
  unfold json_loads_limit.
  change (replicate (S depth) 91%Z ++ rest)
    with (91%Z :: (replicate depth 91%Z ++ rest)).
  rewrite (skip_ws_nonws 91) by done.
  change (91%Z :: (replicate depth 91%Z ++ rest))
    with (replicate (S depth) 91%Z ++ rest).
  rewrite scan_once_limit_deep; [done|].
  rewrite length_app, length_replicate. lia.
Qed.

(** Where the scanner does not raise RecursionError, a greater limit gives
    the same result. *)
Lemma scan_limit_mono fuel :
  (∀ depth depth' s, depth ≤ depth' →
     scan_once_limit fuel depth s ≠ Raise RecursionError →
     scan_once_limit fuel depth' s = scan_once_limit fuel depth s) ∧
  (∀ depth depth' s pairs, depth ≤ depth' →
     JSONObject_limit fuel depth s pairs ≠ Raise RecursionError →
     JSONObject_limit fuel depth' s pairs = JSONObject_limit fuel depth s pairs) ∧
  (∀ depth depth' s values, depth ≤ depth' →
     JSONArray_limit fuel depth s values ≠ Raise RecursionError →
     JSONArray_limit fuel depth' s values = JSONArray_limit fuel depth s values).
Proof.
  induction fuel as [|fuel (IHs & IHo & IHa)]; [done|].
  split_and!.
  - intros depth depth' s Hd. rewrite !scan_once_limit_unfold.
    destruct s as [|c r]; [done|].
    destruct (c =? 34)%Z; [done|].
    destruct (c =? 123)%Z.
    { destruct depth as [|depth]; [done|]. destruct depth' as [|depth']; [lia|].
      destruct (skip_ws r) as [|c' r']; [done|].
      destruct (c' =? 125)%Z; [done|].
      destruct (c' =? 34)%Z; [|done]. apply IHo. lia. }
    destruct (c =? 91)%Z; [|done].
    destruct depth as [|depth]; [done|]. destruct depth' as [|depth']; [lia|].
    destruct (skip_ws r) as [|c' r']; [done|].
    destruct (c' =? 93)%Z; [done|]. apply IHa. lia.
  - intros depth depth' s pairs Hd. rewrite !JSONObject_limit_unfold.
    destruct (scanstring s) as [[key r]|]; [|done].
    cbn [or_decode_error]. rewrite !Ok_bind.
    destruct (skip_ws r) as [|c r1]; [done|].
    destruct (c =? 58)%Z; [|done].
    pose proof (IHs depth depth' (skip_ws r1) Hd) as Hs.
    destruct (scan_once_limit fuel depth (skip_ws r1)) as [[value r2]|e|] eqn:E.
    + rewrite Hs by done. rewrite !Ok_bind.
      destruct (skip_ws r2) as [|c' r3]; [done|].
      destruct (c' =? 125)%Z; [done|].
      destruct (c' =? 44)%Z; [|done].
      destruct (skip_ws r3) as [|c'' r4]; [done|].
      destruct (c'' =? 34)%Z; [|done]. by apply IHo.
    + intros He. rewrite Hs; [done|]. intros [= ->]. by apply He.
    + intros _. by rewrite Hs.
  - intros depth depth' s values Hd. rewrite !JSONArray_limit_unfold.
    pose proof (IHs depth depth' s Hd) as Hs.
    destruct (scan_once_limit fuel depth s) as [[value r]|e|] eqn:E.
    + rewrite Hs by done. rewrite !Ok_bind.
      destruct (skip_ws r) as [|c r1]; [done|].
      destruct (c =? 93)%Z; [done|].
      destruct (c =? 44)%Z; [|done]. by apply IHa.
    + intros He. rewrite Hs; [done|]. intros [= ->]. by apply He.
    + intros _. by rewrite Hs.
Qed.

Lemma json_loads_limit_mono depth depth' s :
  depth ≤ depth' → json_loads_limit depth s ≠ Raise RecursionError →
  json_loads_limit depth' s = json_loads_limit depth s.
Proof.
  intros Hd. unfold json_loads_limit.
  assert (∀ t,
    ('(obj, rest) ← scan_once_limit (S (2 * length t)) depth (skip_ws t);
     if decide (skip_ws rest = []) then Ok obj else Raise ValueError)
    ≠ Raise RecursionError →
    ('(obj, rest) ← scan_once_limit (S (2 * length t)) depth' (skip_ws t);
     if decide (skip_ws rest = []) then Ok obj else Raise ValueError)
    = ('(obj, rest) ← scan_once_limit (S (2 * length t)) depth (skip_ws t);
       if decide (skip_ws rest = []) then Ok obj else Raise ValueError)) as Hgen.
  { intros t Hne.
    rewrite (proj1 (scan_limit_mono (S (2 * length t))) depth depth' (skip_ws t) Hd);
      [done|].
    intros Heq. rewrite Heq in Hne. by apply Hne. }
  destruct s as [|c s]; [apply (Hgen [])|].
  destruct c as [|p|p]; try apply (Hgen (_ :: s)).
  repeat (destruct p as [p|p|]; try apply (Hgen (_ :: s))). done.
Qed.

(** *** The header under the recursion limit

    The header that [write_huff_file] writes is an object that holds an
    object: two levels are enough to read it. *)

(** A value that is neither an object nor an array needs no level. *)
Lemma scan_once_limit_flat fuel depth c r :
  (c =? 123)%Z = false → (c =? 91)%Z = false →
  scan_once_limit (S fuel) depth (c :: r) = or_decode_error (scan_once (S fuel) (c :: r)).
Proof.
  intros H1 H2. rewrite scan_once_limit_unfold, scan_once_unfold, H1, H2.
  destruct (c =? 34)%Z; [|done]. by destruct (scanstring r) as [[??]|].
Qed.

(** The text of a value is read back as the value with [D] levels, on
    enough fuel, when a comma or a closing brace follows. *)
Definition scans_limit (F D : nat) (txt : str) (v : json) : Prop :=
  (∃ c t, txt = c :: t ∧ is_ws c = false) ∧
  ∀ fuel depth c rest, F ≤ fuel → D ≤ depth → c = 44%Z ∨ c = 125%Z →
    scan_once_limit fuel depth (txt ++ c :: rest) = Ok (v, c :: rest).

Definition good_entry_limit (F D : nat) (e : entry) : Prop :=
  Forall (λ c, 0 ≤ c)%Z e.1.1 ∧ scans_limit F D e.1.2 e.2.

Lemma scans_limit_flat F txt v c t :
  txt = c :: t → (c =? 123)%Z = false → (c =? 91)%Z = false → 0 < F →
  scans F txt v → scans_limit F 0 txt v.
Proof.
  intros -> H1 H2 HF [Hstart Hscan]. split; [done|].
  intros fuel depth c' rest Hfuel _ Hc.
  destruct fuel as [|fuel]; [lia|]. cbn [app].
  rewrite scan_once_limit_flat by done.
  specialize (Hscan (S fuel) c' rest Hfuel Hc). cbn [app] in Hscan. by rewrite Hscan.
Qed.

Lemma JSONObject_limit_entries F D es : ∀ e pairs fuel depth rest,
  good_entry_limit F D e → Forall (good_entry_limit F D) es →
  F + length es < fuel → D ≤ depth →
  JSONObject_limit fuel depth
    (body e.1.1 ++ [34%Z] ++ [58; 32]%Z ++ e.1.2 ++ more_entries es ++ 125%Z :: rest) pairs
  = Ok (JDict (dict_of_pairs (pairs ++ ((λ e, (e.1.1, e.2)) <$> (e :: es)))), rest).
Proof.
  induction es as [|e' es IH];
    intros [[k txt] v] pairs fuel depth rest [Hk Hv] Hes Hfuel Hdepth;
    (destruct fuel as [|fuel]; [lia|]); simpl in Hk, Hv; cbn [fst snd];
    destruct Hv as [(c & t & -> & Hc) Hscan].
  - cbn [app]. rewrite JSONObject_limit_unfold, scanstring_body by done.
    cbn [or_decode_error]. rewrite Ok_bind.
    rewrite (skip_ws_nonws 58) by done. change (58 =? 58)%Z with true. cbv iota.
    rewrite (skip_ws_ws 32), (skip_ws_nonws c) by done.
    change (c :: t ++ more_entries [] ++ 125%Z :: rest)
      with ((c :: t) ++ 125%Z :: rest).
    rewrite Hscan by (simpl in *; lia || auto). rewrite Ok_bind.
    rewrite (skip_ws_nonws 125) by done. done.
  - apply Forall_cons in Hes as [He' Hes].
    cbn [app]. rewrite JSONObject_limit_unfold, scanstring_body by done.
    cbn [or_decode_error]. rewrite Ok_bind.
    rewrite (skip_ws_nonws 58) by done. change (58 =? 58)%Z with true. cbv iota.
    rewrite (skip_ws_ws 32), (skip_ws_nonws c) by done.
    rewrite more_entries_cons.
    change (c :: t ++ ?x) with ((c :: t) ++ x).
    rewrite Hscan by (simpl in *; lia || auto). rewrite Ok_bind.
    rewrite (skip_ws_nonws 44) by done.
    change (44 =? 125)%Z with false. change (44 =? 44)%Z with true. cbv iota.
    rewrite (skip_ws_ws 32), (skip_ws_nonws 34) by done.
    change (34 =? 34)%Z with true. cbv iota.
    rewrite (IH e' (pairs ++ [(k, v)]) fuel depth rest He' Hes) by (simpl in *; lia).
    by rewrite <-(assoc_L (++)).
Qed.

Lemma scan_once_limit_object F D e es fuel depth rest :
  good_entry_limit F D e → Forall (good_entry_limit F D) es →
  S (F + length es) < fuel → D < depth →
  scan_once_limit fuel depth
    (123%Z :: join_comma (entry_text <$> (e :: es)) ++ 125%Z :: rest)
  = Ok (JDict (dict_of_pairs ((λ e, (e.1.1, e.2)) <$> (e :: es))), rest).
Proof.
  intros He Hes Hfuel Hdepth. destruct fuel as [|fuel]; [lia|].
  destruct depth as [|depth]; [lia|].
  assert (join_comma (entry_text <$> (e :: es)) ++ 125%Z :: rest
          = 34%Z :: (body e.1.1 ++ [34%Z] ++ [58; 32]%Z ++ e.1.2 ++ more_entries es
                     ++ 125%Z :: rest)) as ->.
  { rewrite join_comma_entries. unfold entry_text. rewrite dumps_str_body.
    rewrite <-!(assoc_L (++)). cbn [app]. by rewrite <-!(assoc_L (++)). }
  change (scan_once_limit (S fuel) (S depth) (123%Z :: 34%Z :: ?r))
    with (JSONObject_limit fuel depth r []).
  by rewrite (JSONObject_limit_entries F D es e [] fuel depth rest) by (done || lia).
Qed.

Lemma code_entry_good_limit kv :
  Forall (λ c, 0 ≤ c)%Z kv.1 → Forall (λ c, 0 ≤ c)%Z kv.2 →
  good_entry_limit 1 0 (code_entry kv).
Proof.
  intros Hk Hv. destruct (code_entry_good kv Hk Hv) as [Hk' Hscans].
  split; [done|]. simpl in *.
  apply (scans_limit_flat 1 _ _ 34%Z (body kv.2 ++ [34%Z])); [done..|lia|done].
Qed.

Lemma scan_once_limit_codes codes fuel depth rest :
  valid_codes codes → NoDup codes.*1 → length codes + 2 < fuel → 0 < depth →
  scan_once_limit fuel depth (dumps_codes codes ++ rest) = Ok (codes_json codes, rest).
Proof.
  intros Hvalid Hnd Hfuel Hdepth. rewrite dumps_codes_entries.
  destruct codes as [|kv codes].
  { destruct fuel; [lia|]. destruct depth; [lia|]. done. }
  cbn [app]. rewrite <-(assoc_L (++)). cbn [app].
  apply Forall_cons in Hvalid as [[Hk Hv] Hvalid]. rewrite (fmap_cons code_entry).
  rewrite (scan_once_limit_object 1 0 (code_entry kv) (code_entry <$> codes)).
  - unfold codes_json. do 3 f_equal. rewrite <-fmap_cons, <-list_fmap_compose.
    rewrite dict_of_pairs_NoDup; [done|].
    rewrite <-list_fmap_compose. exact Hnd.
  - by apply code_entry_good_limit.
  - apply Forall_fmap. eapply Forall_impl; [done|]. intros kv' [??].
    by apply code_entry_good_limit.
  - rewrite length_fmap. simpl in Hfuel. lia.
  - done.
Qed.

Lemma scans_limit_padding padding :
  (0 ≤ padding ≤ 7)%Z → scans_limit 1 0 (str_of_int padding) (JInt padding).
Proof.
  intros Hp. pose proof (scans_padding padding Hp) as Hscans.
  destruct Hscans as [(c & t & Heq & Hc) Hscan].
  apply (scans_limit_flat 1 _ _ c t); [done| | |lia|by apply scans_padding].
  - assert (padding = 0 ∨ padding = 1 ∨ padding = 2 ∨ padding = 3 ∨ padding = 4
            ∨ padding = 5 ∨ padding = 6 ∨ padding = 7)%Z as Hcases by lia.
    destruct Hcases as [->|[->|[->|[->|[->|[->|[->| ->]]]]]]];
      vm_compute in Heq; by simplify_eq.
  - assert (padding = 0 ∨ padding = 1 ∨ padding = 2 ∨ padding = 3 ∨ padding = 4
            ∨ padding = 5 ∨ padding = 6 ∨ padding = 7)%Z as Hcases by lia.
    destruct Hcases as [->|[->|[->|[->|[->|[->|[->| ->]]]]]]];
      vm_compute in Heq; by simplify_eq.
Qed.

(** What [json.dumps] writes as the header, [json.loads] reads back when the
    interpreter allows two levels or more. *)
Lemma json_loads_limit_dumps_header depth codes padding :
  2 ≤ depth → valid_codes codes → NoDup codes.*1 → (0 ≤ padding ≤ 7)%Z →
  json_loads_limit depth (dumps_header codes padding) = Ok (header_json codes padding).
Proof.
  intros Hdepth Hvalid Hnd Hp. unfold json_loads_limit.
  assert (∀ fuel, length codes + 5 < fuel →
    scan_once_limit fuel depth (skip_ws (dumps_header codes padding))
    = Ok (header_json codes padding, [])) as Hscan.
  { intros fuel Hfuel. rewrite dumps_header_entries.
    rewrite (skip_ws_nonws 123) by done.
    rewrite (scan_once_limit_object (length codes + 3) 1); [done| | |simpl; lia|lia].
    - split; [by repeat constructor|]. split.
      + eexists 123%Z, _. split; [reflexivity|done].
      + intros fuel' depth' c rest Hfuel' Hdepth' _.
        apply scan_once_limit_codes; [done..|lia|lia].
    - constructor; [|done]. split; [by repeat constructor|].
      destruct (scans_limit_padding padding Hp) as [Hstart Hscan]. split; [done|].
      intros fuel' depth' c rest Hfuel' Hdepth' Hc. apply Hscan; [lia|lia|done]. }
  pose proof (dumps_codes_length codes) as Hlen.
  rewrite Hscan.
  - unfold dumps_header. done.
  - unfold dumps_header. rewrite !length_app. cbn [length]. lia.
Qed.

(** ** The container *)

Lemma int_to_bytes4_spec n :
  (0 ≤ n < 2 ^ 32)%Z →
  ∃ b, int_to_bytes4 n = Ok b ∧ length b = 4 ∧ int_from_bytes b = n.
Proof.
  intros Hn. unfold int_to_bytes4. rewrite decide_True by done.
  eexists. split; [done|]. split; [done|].
  unfold int_from_bytes. simpl.
  change (2 ^ 24)%Z with (256 * (256 * 256))%Z.
  change (2 ^ 16)%Z with (256 * 256)%Z. change (2 ^ 8)%Z with 256%Z.
  rewrite <-!Z.div_div by lia.
  pose proof (Z.div_mod n 256). pose proof (Z.div_mod (n / 256) 256).
  pose proof (Z.div_mod (n / 256 / 256) 256). lia.
Qed.

Lemma read_huff_file_container len_bytes header_bytes payload text header :
  length len_bytes = 4 →
  int_from_bytes len_bytes = Z.of_nat (length header_bytes) →
  utf8_decode header_bytes = Some text →
  json_loads text = Ok header →
  read_huff_file (len_bytes ++ header_bytes ++ payload) = Ok (header, payload).
Proof.
  intros Hlen Hint Hdec Hjson. unfold read_huff_file.
  rewrite take_app_length', drop_app_length' by done.
  rewrite decide_False by lia. rewrite Hint, Nat2Z.id.
  rewrite take_app_length, drop_app_length. unfold bytes_decode. rewrite Hdec, Ok_bind.
  by rewrite Hjson.
Qed.

Lemma build_rev_codes codes : ∀ rev,
  build_rev ((λ kv, (kv.1, JStr kv.2)) <$> codes) rev
  = Ok (foldl (λ rev kv, dict_set rev kv.2 kv.1) rev codes).
Proof. induction codes as [|[k v] codes IH]; intros rev; simpl; [done|]. apply IH. Qed.

Lemma reverse_map_codes codes : reverse_map (codes_json codes) = Ok (rev_of codes).
Proof. apply build_rev_codes. Qed.

Lemma mjoin_chars text : mjoin (chars text) = text.
Proof. induction text as [|c text IH]; simpl; [done|]. by rewrite IH. Qed.


(** Decoding a container that holds the table [codes], the padding [padding]
    and any payload. *)
Lemma decompress_file_container codes padding header_bytes len_bytes payload :
  valid_codes codes → NoDup codes.*1 → (0 ≤ padding ≤ 7)%Z →
  utf8_encode (dumps_header codes padding) = Some header_bytes →
  length len_bytes = 4 →
  int_from_bytes len_bytes = Z.of_nat (length header_bytes) →
  decompress_file (len_bytes ++ header_bytes ++ payload) =
    text ← decode_bits_to_text (bytes_to_bits payload) (codes_json codes) (JInt padding);
    _ ← str_encode text;
    Ok text.
Proof.
  intros Hvalid Hnd Hp Henc Hlen Hint. unfold decompress_file.
  rewrite (read_huff_file_container _ _ _ (dumps_header codes padding)
             (header_json codes padding)); try done.
  - by apply utf8_roundtrip.
  - by apply json_loads_dumps_header.
Qed.


(** ** The header is text that UTF-8 encodes *)

Lemma escape_char_scalar c :
  is_scalar c = true → forallb is_scalar (escape_char c) = true.
Proof.
  intros Hc. destruct (decide (0 ≤ c < 32)%Z) as [Hlt|Hge].
  - destruct (small_nat_cases c Hlt) as (n & Hn & ->).
    do 32 (destruct n as [|n]; [done|]). lia.
  - unfold escape_char.
    destruct (c =? 34)%Z; [done|]. destruct (c =? 92)%Z; [done|].
    destruct (c =? 10)%Z; [done|]. destruct (c =? 13)%Z; [done|].
    destruct (c =? 9)%Z; [done|]. destruct (c =? 8)%Z; [done|].
    destruct (c =? 12)%Z; [done|].
    assert ((0 <=? c)%Z && (c <? 32)%Z = false) as -> by lia.
    simpl. by rewrite Hc.
Qed.

Lemma dumps_str_scalar s :
  forallb is_scalar s = true → forallb is_scalar (dumps_str s) = true.
Proof.
  intros Hs. unfold dumps_str. rewrite !forallb_app_true. split; [done|]. split; [|done].
  induction s as [|c s IH]; [done|].
  apply forallb_cons_true in Hs as [Hc Hs]. rewrite fmap_cons.
  change (mjoin (?x :: ?l)) with (x ++ mjoin l). rewrite forallb_app_true.
  split; [by apply escape_char_scalar|auto].
Qed.

Lemma join_comma_scalar xs :
  Forall (λ x, forallb is_scalar x = true) xs → forallb is_scalar (join_comma xs) = true.
Proof.
  intros Hxs. destruct xs as [|x xs]; [done|].
  apply Forall_cons in Hxs as [Hx Hxs].
  rewrite join_comma_cons, forallb_app_true. split; [done|].
  induction Hxs as [|y xs Hy Hxs IH]; [done|].
  rewrite fmap_cons. change (mjoin (?x :: ?l)) with (x ++ mjoin l).
  rewrite !forallb_app_true. done.
Qed.

(** The symbols and the codes of a table are made of scalar values. *)
Definition scalar_codes (codes : dict str str) : Prop :=
  Forall (λ kv, forallb is_scalar kv.1 = true ∧ forallb is_scalar kv.2 = true) codes.

Lemma dumps_header_scalar codes padding :
  scalar_codes codes → (0 ≤ padding ≤ 7)%Z →
  forallb is_scalar (dumps_header codes padding) = true.
Proof.
  intros Hcodes Hp. unfold dumps_header, dumps_codes.
  rewrite !forallb_app_true.
  repeat match goal with |- _ ∧ _ => split end; try done.
  - apply join_comma_scalar, Forall_fmap. eapply Forall_impl; [done|].
    intros [k v] [Hk Hv]. cbn [fst snd] in *.
    apply forallb_app_true. split; [by apply dumps_str_scalar|].
    apply forallb_app_true. split; [done|]. by apply dumps_str_scalar.
  - assert (padding = 0 ∨ padding = 1 ∨ padding = 2 ∨ padding = 3 ∨ padding = 4
            ∨ padding = 5 ∨ padding = 6 ∨ padding = 7)%Z as Hcases by lia.
    destruct Hcases as [->|[->|[->|[->|[->|[->|[->| ->]]]]]]]; done.
Qed.

Lemma forallb_scalar_nonneg s : forallb is_scalar s = true → Forall (λ c, 0 ≤ c)%Z s.
Proof.
  induction s as [|c s IH]; [done|].
  intros [Hc Hs]%forallb_cons_true. constructor; [|auto].
  apply is_scalar_range in Hc. lia.
Qed.

Lemma scalar_codes_valid codes : scalar_codes codes → valid_codes codes.
Proof.
  intros H. eapply Forall_impl; [done|]. intros kv [??].
  split; by apply forallb_scalar_nonneg.
Qed.

Lemma forallb_bit_scalar p : forallb is_bit p = true → forallb is_scalar p = true.
Proof.
  induction p as [|c p IH]; [done|].
  intros [[-> | ->]%is_bit_cases Hp]%forallb_cons_true; simpl; auto.
Qed.

(** ** Encoding *)

Lemma encode_chars_ok codes cs :
  prefix_code codes → Forall (λ c, c ∈ codes.*1) cs →
  ∃ bits, encode_chars cs codes = Ok bits ∧ forallb is_bit bits = true
          ∧ (cs ≠ [] → bits ≠ []).
Proof.
  intros Hpc. induction 1 as [|c cs Hc Hcs (bits & Henc & Hbits & Hne)].
  { by exists []. }
  destruct (dict_get codes c) as [p|] eqn:Hget.
  2:{ by apply dict_get_None in Hget. }
  pose proof (dict_get_Some_elem _ _ _ Hget) as Hin.
  exists (p ++ bits). split; [|split].
  - apply encode_chars_cons. eauto.
  - apply forallb_app_true. split; [|done]. by eapply pc_bits.
  - intros _ Heq. apply app_eq_nil in Heq as [-> _]. by eapply pc_nonempty.
Qed.

(** ** The code table of a text *)

Lemma chars_length text c : c ∈ chars text → length c = 1.
Proof. unfold chars. intros (x & -> & _)%list_elem_of_fmap. done. Qed.

Lemma frequency_nonempty text : text ≠ [] → build_frequency_map text ≠ [].
Proof.
  destruct text as [|c text]; [done|]. intros _ Heq.
  assert ([c] ∈ (build_frequency_map (c :: text)).*1) as Hin.
  { apply frequency_keys. left. }
  rewrite Heq in Hin. by apply elem_of_nil in Hin.
Qed.

Lemma expected_symbols_NoDup text : NoDup (expected_symbols (build_frequency_map text)).
Proof.
  unfold expected_symbols. apply NoDup_app. split; [apply frequency_NoDup|].
  split; [|case_decide; [apply NoDup_singleton|constructor]].
  intros k Hk%frequency_keys%chars_length Hin.
  case_decide; [|by apply elem_of_nil in Hin].
  apply list_elem_of_singleton in Hin as ->. done.
Qed.

Section code_table.
Variable id_of : nat → Z.

(** The code table that [compress_file] computes for a text. *)
Definition code_table (text : str) : dict str str :=
  match build_huffman_tree id_of (build_frequency_map text) with
  | Ok root => generate_codes root
  | _ => []
  end.

Lemma code_table_spec text :
  text ≠ [] →
  ∃ root,
    build_huffman_tree id_of (build_frequency_map text) = Ok (Some root)
    ∧ code_table text = leaf_paths root
    ∧ prefix_code (code_table text)
    ∧ (code_table text).*1 ≡ₚ expected_symbols (build_frequency_map text).
Proof.
  intros Hne.
  destruct (build_symbols id_of (build_frequency_map text)) as (root & Hbuild & Hsym & Hperm);
    [by apply frequency_nonempty|].
  assert (is_leaf root = false) as Hleaf.
  { destruct root. simpl in Hsym. by subst. }
  assert (NoDup (symbols_of root)) as Hnd.
  { rewrite Hperm. apply expected_symbols_NoDup. }
  exists root. unfold code_table. rewrite Hbuild.
  split; [done|]. split; [by apply generate_codes_NoDup|].
  split; [by apply generate_codes_prefix_code|].
  by rewrite generate_codes_NoDup.
Qed.

Lemma code_table_keys text c : text ≠ [] → c ∈ chars text → c ∈ (code_table text).*1.
Proof.
  intros Hne Hc. destruct (code_table_spec text Hne) as (root & _ & _ & _ & Hperm).
  rewrite Hperm. unfold expected_symbols. apply elem_of_app. left.
  by apply frequency_keys.
Qed.

Lemma code_table_scalar text :
  text ≠ [] → forallb is_scalar text = true → scalar_codes (code_table text).
Proof.
  intros Hne Htext.
  destruct (code_table_spec text Hne) as (root & _ & _ & Hpc & Hperm).
  apply Forall_forall. intros [k p] Hin. simpl. split.
  - assert (k ∈ expected_symbols (build_frequency_map text)) as Hk.
    { rewrite <-Hperm. apply list_elem_of_fmap. by exists (k, p). }
    unfold expected_symbols in Hk. apply elem_of_app in Hk as [Hk|Hk].
    + apply frequency_keys in Hk. unfold chars in Hk.
      apply list_elem_of_fmap in Hk as (c & -> & Hc). simpl.
      rewrite andb_true_r. rewrite forallb_forall in Htext. apply Htext.
      by apply list_elem_of_In.
    + case_decide; [|by apply elem_of_nil in Hk].
      by apply list_elem_of_singleton in Hk as ->.
  - apply forallb_bit_scalar. by eapply pc_bits.
Qed.

(** What [compress_file] writes for a non-empty text: the header holds the
    code table and the padding, the payload is the padded bit string.  It
    fails only when the header is too long for its four-byte length. *)
Lemma compress_file_spec text :
  text ≠ [] → forallb is_scalar text = true →
  ∃ bits payload header_bytes,
    encode_text text (code_table text) = Ok bits
    ∧ bits ≠ []
    ∧ forallb is_bit bits = true
    ∧ bytes_to_bits payload = bits ++ replicate (Z.to_nat (padding_of bits)) c0
    ∧ utf8_encode (dumps_header (code_table text) (padding_of bits)) = Some header_bytes
    ∧ compress_file id_of text =
        len_bytes ← int_to_bytes4 (Z.of_nat (length header_bytes));
        Ok (len_bytes ++ header_bytes ++ payload).
Proof.
  intros Hne Htext.
  destruct (code_table_spec text Hne) as (root & Hbuild & Hcodes & Hpc & Hperm).
  destruct (encode_chars_ok (code_table text) (chars text) Hpc)
    as (bits & Henc & Hbits & Hbne).
  { apply Forall_forall. intros c Hc. by apply code_table_keys. }
  destruct (bits_to_bytes_spec bits Hbits) as (payload & Hpack & Hunpack & _).
  destruct (utf8_encode_scalars (dumps_header (code_table text) (padding_of bits)))
    as [header_bytes Hhdr].
  { apply dumps_header_scalar; [by apply code_table_scalar|apply padding_of_range]. }
  exists bits, payload, header_bytes.
  split; [done|]. split; [|split; [done|split; [done|split; [done|]]]].
  { apply Hbne. by destruct text. }
  unfold compress_file. unfold code_table in *. rewrite Hbuild in *.
  rewrite Ok_bind. unfold encode_text. rewrite Henc, Ok_bind, Hpack, Ok_bind.
  unfold write_huff_file, str_encode. by rewrite Hhdr, Ok_bind.
Qed.
End code_table.

(** ** The greedy merge keeps the tree shallow

    The heap orders the nodes by weight, so that the two lightest trees are
    merged at each step.  Then the weight of a tree is at least the Fibonacci
    number of its height, and the codes of a text of fewer than 2^63 symbols
    have at most 90 bits. *)

Definition freq_le (a b : Node) : Prop := (freq a ≤ freq b)%Z.

#[global] Instance freq_le_preorder : PreOrder freq_le.
Proof. split; unfold freq_le; [intros ?; lia|intros ???; lia]. Qed.

Lemma Node_lt_le id_of a b : Node_lt id_of a b = true → freq_le a b.
Proof. unfold Node_lt, freq_le. destruct (freq a =? freq b)%Z eqn:?; lia. Qed.

Lemma Node_nlt_le id_of a b : Node_lt id_of a b = false → freq_le b a.
Proof. unfold Node_lt, freq_le. destruct (freq a =? freq b)%Z eqn:?; lia. Qed.

(** The children of [a], if any, weigh at most [b]. *)
Definition uncle (a b : Node) : Prop :=
  match left a, right a with
  | Some x, Some y => (freq x ≤ freq b)%Z ∧ (freq y ≤ freq b)%Z
  | _, _ => True
  end.

(** A tree as the greedy merge builds it: leaves weigh at least 1, the weight
    of a node is the sum of its two children's, and a child weighs at least
    the children of its sibling. *)
Fixpoint greedy (t : Node) : Prop :=
  match t with
  | mkNode f _ l r _ =>
      match l, r with
      | None, None => (1 ≤ f)%Z
      | Some a, Some b =>
          f = (freq a + freq b)%Z ∧ greedy a ∧ greedy b ∧ uncle a b ∧ uncle b a
      | _, _ => False
      end
  end.

Fixpoint height (t : Node) : nat :=
  match t with
  | mkNode _ _ l r _ =>
      match l, r with
      | None, None => 0
      | _, _ =>
          S (Nat.max (match l with Some a => height a | None => 0 end)
                     (match r with Some b => height b | None => 0 end))
      end
  end.

(** The Fibonacci numbers 1, 2, 3, 5, 8, ... *)
Definition fib_pair (n : nat) : Z * Z := Nat.iter n (λ ab, (ab.2, ab.1 + ab.2)%Z) (1, 2)%Z.
Definition fib (n : nat) : Z := (fib_pair n).1.

#[global] Arguments fib : simpl never.

Lemma fib_pair_snd n : (fib_pair n).2 = fib (S n).
Proof. done. Qed.

Lemma fib_SS n : fib (S (S n)) = (fib (S n) + fib n)%Z.
Proof. unfold fib, fib_pair. rewrite !Nat.iter_succ. simpl. lia. Qed.

Lemma fib_pos n : (1 ≤ fib n ≤ fib (S n))%Z.
Proof.
  induction n as [|n IH]; [done|]. rewrite fib_SS. lia.
Qed.

Lemma fib_mono n m : n ≤ m → (fib n ≤ fib m)%Z.
Proof.
  induction 1 as [|m _ IH]; [done|]. pose proof (fib_pos m). lia.
Qed.

Lemma greedy_pos t : greedy t → (1 ≤ freq t)%Z.
Proof.
  induction t as [f s l r i IHl IHr] using Node_ind. simpl.
  destruct l as [a|], r as [b|]; try done. simpl in *.
  intros (-> & Ha & Hb & _). specialize (IHl Ha). specialize (IHr Hb). lia.
Qed.

Lemma greedy_fib t :
  greedy t →
  (fib (height t) ≤ freq t)%Z
  ∧ from_option (λ a, fib (height a) ≤ freq a)%Z True (left t)
  ∧ from_option (λ b, fib (height b) ≤ freq b)%Z True (right t).
Proof.
  induction t as [f s l r i IHl IHr] using Node_ind. simpl.
  destruct l as [a|], r as [b|]; try done. simpl in *.
  intros (-> & Ha & Hb & Hab & Hba).
  destruct (IHl Ha) as (Hfa & Hla & Hra). destruct (IHr Hb) as (Hfb & Hlb & Hrb).
  split; [|done].
  pose proof (greedy_pos a Ha). pose proof (greedy_pos b Hb).
  assert (∀ u v, greedy u → uncle u v →
                 (fib (height u) ≤ freq u)%Z →
                 from_option (λ a, fib (height a) ≤ freq a)%Z True (left u) →
                 from_option (λ b, fib (height b) ≤ freq b)%Z True (right u) →
                 (1 ≤ freq v)%Z →
                 (fib (S (height u)) ≤ freq u + freq v)%Z) as Hside.
  { clear. intros [fu su lu ru iu] v Hu Huv Hfu Hlu Hru Hv. simpl in *.
    unfold uncle in Huv. simpl in Huv.
    destruct lu as [x|], ru as [y|]; try done; simpl in *.
    - destruct Huv as [Hx Hy]. rewrite fib_SS.
      destruct (Nat.max_spec (height x) (height y)) as [[_ Hm]|[_ Hm]];
        rewrite Hm in *; lia.
    - change (fib 1) with 2%Z. lia. }
  destruct (Nat.max_spec (height a) (height b)) as [[_ Hm]|[_ Hm]]; rewrite Hm.
  - rewrite (comm Z.add). by apply Hside.
  - by apply Hside.
Qed.

Lemma leaf_paths_height t : ∀ a p, (a, p) ∈ leaf_paths t → length p ≤ height t.
Proof.
  induction t as [f s l r i IHl IHr] using Node_ind. intros a p.
  rewrite leaf_paths_unfold. destruct (is_leaf _) eqn:Hleaf.
  { intros ?%list_elem_of_singleton. simplify_eq. simpl. lia. }
  rewrite elem_of_app, !elem_of_child_paths.
  intros [(n & p' & -> & -> & Hp)|(n & p' & -> & -> & Hp)]; simpl in *.
  - apply IHl in Hp. destruct r; lia.
  - apply IHr in Hp. destruct l; lia.
Qed.

(** *** The invariant of the merge loop *)

Definition forest_weight (heap : list Node) : Z := foldr (λ t acc, freq t + acc)%Z 0%Z heap.

#[global] Instance forest_weight_perm : Proper ((≡ₚ) ==> (=)) forest_weight.
Proof.
  intros h h' Hperm. unfold forest_weight.
  induction Hperm; simpl; lia.
Qed.

Lemma forest_weight_imap (items : dict str Z) k :
  forest_weight (imap (λ i sf, leaf sf.1 sf.2 (k + i)) items) = sum_values items.
Proof.
  revert k. induction items as [|[s f] items IH]; intros k; [done|].
  rewrite imap_cons. unfold forest_weight, sum_values in *. simpl. rewrite <-(IH (S k)).
  do 2 f_equal. apply imap_ext. intros i [??] _. simpl. f_equal. lia.
Qed.

Section build_greedy.
Variable id_of : nat → Z.

Lemma Node_heappush_ok heap item heap' :
  heap_ok freq_le heap → heappush (Node_lt id_of) heap item = Ok heap' →
  heap_ok freq_le heap'.
Proof.
  apply (heappush_ok (Node_lt id_of) freq_le (Node_lt_le id_of) (Node_nlt_le id_of)).
Qed.

Lemma Node_heappop_ok heap x heap' :
  heap_ok freq_le heap → heappop (Node_lt id_of) heap = Ok (x, heap') →
  (∀ y, y ∈ heap → freq_le x y) ∧ heap_ok freq_le heap'.
Proof.
  apply (heappop_ok (Node_lt id_of) freq_le (Node_lt_le id_of) (Node_nlt_le id_of)).
Qed.

Lemma build_greedy (freq_map : dict str Z) :
  1 < length freq_map →
  Forall (λ sf, 1 ≤ sf.2)%Z freq_map →
  ∃ root, build_huffman_tree id_of freq_map = Ok (Some root)
          ∧ greedy root ∧ freq root = sum_values freq_map.
Proof.
  intros Hlen Hfreq.
  destruct (build_rule id_of
    (λ heap n, heap_ok freq_le heap)
    (λ heap n, 1 < length freq_map →
               heap_ok freq_le heap ∧ Forall greedy heap
               ∧ (∀ r t, r ∈ heap → t ∈ heap → uncle r t)
               ∧ forest_weight heap = sum_values freq_map)
    freq_map) as (heap & n & Heq & HP & Hlen').
  - by intros i x p Hi Hx.
  - intros heap n sym f heap' _ Hok Hpush.
    by eapply Node_heappush_ok.
  - intros heap Hok Hperm _ _. split; [done|].
    assert (Forall (λ t, greedy t ∧ left t = None) heap) as Hleaves.
    { rewrite Hperm. apply Forall_forall. intros t Ht.
      apply list_elem_of_lookup in Ht as [i Ht].
      apply list_lookup_imap_Some in Ht as ([s f] & Hsf & ->).
      split; [|done]. simpl. rewrite Forall_forall in Hfreq.
      apply (Hfreq (s, f)). eapply list_elem_of_lookup_2, Hsf. }
    split; [|split].
    + eapply Forall_impl; [done|]. by intros ? [??].
    + intros r t Hr _. rewrite Forall_forall in Hleaves.
      destruct (Hleaves r Hr) as [_ Hl]. unfold uncle. by rewrite Hl.
    + rewrite Hperm. apply (forest_weight_imap freq_map 0).
  - intros sole _ Hsole ?. destruct freq_map as [|? [|??]]; simplify_eq/=; lia.
  - intros heap n a h1 b h2 h3 HP _ Hpop1 Hpop2 Hpush Hp1 Hp2 Hp3 Hl.
    destruct (HP Hl) as (Hok & Hgreedy & Huncle & Hweight).
    apply Node_heappop_ok in Hpop1 as [Hamin Hok1]; [|done].
    apply Node_heappop_ok in Hpop2 as [Hbmin Hok2]; [|done].
    apply Node_heappush_ok in Hpush; [|done].
    assert (heap ≡ₚ a :: b :: h2) as Hheap by (by rewrite <-Hp1, <-Hp2).
    assert (∀ x, x ∈ a :: b :: h2 → x ∈ heap) as Hin.
    { intros x Hx. by rewrite Hheap. }
    assert (∀ x, x ∈ h2 → x ∈ h1) as Hin1.
    { intros x Hx. rewrite <-Hp2. by right. }
    rewrite Hheap in Hgreedy, Hweight.
    apply Forall_cons in Hgreedy as [Ha Hgreedy].
    apply Forall_cons in Hgreedy as [Hb Hgreedy].
    pose proof (greedy_pos a Ha). pose proof (greedy_pos b Hb).
    assert (greedy (merged a b n)) as Hm.
    { simpl. split; [done|]. split; [done|]. split; [done|].
      split; apply Huncle; apply Hin; (rewrite ?elem_of_cons; auto). }
    split; [done|]. split; [|split].
    + rewrite Hp3. by constructor.
    + intros r t. rewrite Hp3, !elem_of_cons.
      intros [->|Hr] [->|Ht].
      * unfold uncle, freq_le in *. simpl. lia.
      * unfold uncle. simpl. split.
        -- apply Hamin, Hin. (rewrite ?elem_of_cons; auto).
        -- apply Hbmin, Hin1. done.
      * assert (uncle r a) as Hra by (apply Huncle; apply Hin; (rewrite ?elem_of_cons; auto)).
        unfold uncle in *. simpl. destruct (left r), (right r); try done. lia.
      * apply Huncle; apply Hin; (rewrite ?elem_of_cons; auto).
    + rewrite Hp3, <-Hweight. unfold forest_weight. simpl. lia.
  - assert (length heap = 1) as Hone by lia.
    destruct heap as [|root [|??]]; try done.
    destruct (HP Hlen) as (_ & Hgreedy & _ & Hweight).
    exists root. split; [done|].
    apply Forall_cons in Hgreedy as [Hroot _]. split; [done|].
    unfold forest_weight in Hweight. simpl in Hweight. lia.
Qed.
End build_greedy.

(** ** The header fits its four-byte length *)

Lemma fib_91 : (2 ^ 63 ≤ fib 91)%Z.
Proof. by vm_compute. Qed.

Lemma greedy_height t : greedy t → (freq t < 2 ^ 63)%Z → height t ≤ 90.
Proof.
  intros Hg Hf. destruct (greedy_fib t Hg) as [Hfib _].
  destruct (decide (height t ≤ 90)) as [|Hgt]; [done|].
  pose proof (fib_mono 91 (height t)) as Hmono. pose proof fib_91. lia.
Qed.

(** Distinct integers of a range are at most as many as the range has. *)
Lemma NoDup_range_length (n : nat) : ∀ l : list Z,
  NoDup l → Forall (λ x, 0 ≤ x < Z.of_nat n)%Z l → length l ≤ n.
Proof.
  induction n as [|n IH]; intros l Hnd Hl.
  - destruct l as [|x l]; [done|]. apply Forall_cons in Hl as [? _]. lia.
  - destruct (decide (Z.of_nat n ∈ l)) as [Hin|Hnin].
    + apply elem_of_Permutation in Hin as [l' Hperm].
      rewrite Hperm in Hnd, Hl. rewrite Hperm. simpl.
      apply NoDup_cons in Hnd as [Hn Hnd]. apply Forall_cons in Hl as [_ Hl].
      apply le_n_S, IH; [done|].
      apply Forall_forall. intros x Hx. rewrite Forall_forall in Hl.
      specialize (Hl x Hx). assert (x ≠ Z.of_nat n) by (by intros ->). lia.
    + etrans; [apply IH; [done|]|lia].
      apply Forall_forall. intros x Hx. rewrite Forall_forall in Hl.
      specialize (Hl x Hx). assert (x ≠ Z.of_nat n) by (by intros ->). lia.
Qed.

Lemma chars_NoDup_length (text : str) (keys : list str) :
  NoDup keys → (∀ k, k ∈ keys → k ∈ chars text) → forallb is_scalar text = true →
  (Z.of_nat (length keys) ≤ 1114112)%Z.
Proof.
  intros Hnd Hkeys Htext.
  pose proof (NoDup_range_length (Z.to_nat 1114112) ((λ k, default 0%Z (head k)) <$> keys))
    as Hlen.
  rewrite length_fmap in Hlen.
  enough (length keys ≤ Z.to_nat 1114112) by lia. apply Hlen.
  - apply NoDup_fmap_2_strong; [|done].
    intros k k' Hk%Hkeys Hk'%Hkeys Heq. unfold chars in *.
    apply list_elem_of_fmap in Hk as (c & -> & _).
    apply list_elem_of_fmap in Hk' as (c' & -> & _). simpl in Heq. by subst.
  - apply Forall_fmap, Forall_forall. intros k Hk%Hkeys. unfold chars in Hk.
    apply list_elem_of_fmap in Hk as (c & -> & Hc). simpl.
    rewrite forallb_forall in Htext. apply list_elem_of_In, Htext, is_scalar_range in Hc.
    lia.
Qed.

(** *** The size of what [json.dumps] writes *)

Lemma escape_char_length c : length (escape_char c) ≤ 6.
Proof. unfold escape_char. repeat case_match; simpl; lia. Qed.

Lemma body_length s : length (body s) ≤ 6 * length s.
Proof.
  induction s as [|c s IH]; [done|].
  rewrite body_cons, length_app. pose proof (escape_char_length c). simpl. lia.
Qed.

Lemma dumps_str_length s : length (dumps_str s) ≤ 6 * length s + 2.
Proof.
  rewrite dumps_str_body. simpl. rewrite length_app. pose proof (body_length s).
  simpl. lia.
Qed.

Lemma join_comma_length_le (xs : list str) B :
  Forall (λ x, length x ≤ B) xs → length (join_comma xs) ≤ (B + 2) * length xs.
Proof.
  intros Hxs. destruct xs as [|x xs]; [simpl; lia|].
  apply Forall_cons in Hxs as [Hx Hxs].
  rewrite join_comma_cons, length_app. cbn [length].
  enough (length (mjoin ((λ y, [44; 32]%Z ++ y) <$> xs)) ≤ (B + 2) * length xs) by lia.
  induction Hxs as [|y xs Hy Hxs IH]; [simpl; lia|].
  rewrite fmap_cons. change (mjoin (?x :: ?l)) with (x ++ mjoin l).
  rewrite !length_app. cbn [length]. lia.
Qed.

Lemma str_of_int_length padding : (0 ≤ padding ≤ 7)%Z → length (str_of_int padding) = 1.
Proof.
  intros Hp.
  assert (padding = 0 ∨ padding = 1 ∨ padding = 2 ∨ padding = 3 ∨ padding = 4
          ∨ padding = 5 ∨ padding = 6 ∨ padding = 7)%Z as Hcases by lia.
  destruct Hcases as [->|[->|[->|[->|[->|[->|[->| ->]]]]]]]; done.
Qed.

Lemma dumps_header_length codes padding :
  Forall (λ kv, length kv.1 ≤ 1 ∧ length kv.2 ≤ 90) codes → (0 ≤ padding ≤ 7)%Z →
  length (dumps_header codes padding) ≤ 27 + 554 * length codes.
Proof.
  intros Hcodes Hp. unfold dumps_header, dumps_codes.
  rewrite !length_app, str_of_int_length by done.
  pose proof (join_comma_length_le
    ((λ kv, dumps_str kv.1 ++ [58; 32]%Z ++ dumps_str kv.2) <$> codes) 552) as Hjoin.
  rewrite length_fmap in Hjoin.
  change (length (dumps_str [99; 111; 100; 101; 115]%Z)) with 7.
  change (length (dumps_str [112; 97; 100; 100; 105; 110; 103]%Z)) with 9.
  cbn [length].
  match goal with
  | |- context [length (join_comma ?l)] => set (J := length (join_comma l)) in *
  end.
  enough (J ≤ 554 * length codes) by lia.
  apply Hjoin. apply Forall_fmap. eapply Forall_impl; [done|].
  intros [k v] [Hk Hv]. unfold compose. cbn [fst snd] in *.
  rewrite !length_app. cbn [length].
  pose proof (dumps_str_length k). pose proof (dumps_str_length v). lia.
Qed.

Lemma utf8_encode_length s : ∀ b, utf8_encode s = Some b → length b ≤ 4 * length s.
Proof.
  induction s as [|c s IH]; intros b; simpl.
  - by intros [= <-].
  - destruct (utf8_encode_char c) as [bc|] eqn:Hc; [|done]. simpl.
    destruct (utf8_encode s) as [bs|]; [|done]. simpl. intros [= <-].
    rewrite length_app. specialize (IH bs eq_refl).
    assert (length bc ≤ 4); [|lia].
    unfold utf8_encode_char in Hc. repeat case_match; simplify_eq; simpl; lia.
Qed.

Section header_fits.
Variable id_of : nat → Z.

Lemma build_single s f :
  build_huffman_tree id_of [(s, f)] = Ok (Some (placeholder_parent (leaf s f 0) 1)).
Proof. done. Qed.

Lemma sum_values_frequency text :
  sum_values (build_frequency_map text) = Z.of_nat (length text).
Proof.
  rewrite build_frequency_map_fold, sum_values_fold. unfold chars.
  rewrite length_fmap. done.
Qed.

(** The tree of a text of fewer than 2^63 symbols has height 90 at most. *)
Lemma build_height text root :
  (Z.of_nat (length text) < 2 ^ 63)%Z →
  build_huffman_tree id_of (build_frequency_map text) = Ok (Some root) →
  height root ≤ 90.
Proof.
  intros Hlen Hbuild.
  destruct (build_frequency_map text) as [|[s f] [|sf freq_map]] eqn:Hfm.
  - done.
  - rewrite build_single in Hbuild. simplify_eq. simpl. lia.
  - destruct (build_greedy id_of ((s, f) :: sf :: freq_map)) as (root' & Hb' & Hg & Hw).
    + simpl. lia.
    + rewrite <-Hfm. apply Forall_forall. intros [s' f'] Hin.
      by apply frequency_entries in Hin as (_ & _ & ?).
    + rewrite Hb' in Hbuild. simplify_eq.
      apply greedy_height; [done|].
      by rewrite Hw, <-Hfm, sum_values_frequency.
Qed.

Lemma code_table_bounds text :
  text ≠ [] → forallb is_scalar text = true → (Z.of_nat (length text) < 2 ^ 63)%Z →
  Forall (λ kv, length kv.1 ≤ 1 ∧ length kv.2 ≤ 90) (code_table id_of text)
  ∧ (Z.of_nat (length (code_table id_of text)) ≤ 1114113)%Z.
Proof.
  intros Hne Htext Hlen.
  destruct (code_table_spec id_of text Hne) as (root & Hbuild & Hcodes & Hpc & Hperm).
  split.
  - apply Forall_forall. intros [k p] Hin. simpl. split.
    + assert (k ∈ expected_symbols (build_frequency_map text)) as Hk.
      { rewrite <-Hperm. apply list_elem_of_fmap. by exists (k, p). }
      unfold expected_symbols in Hk. apply elem_of_app in Hk as [Hk|Hk].
      * apply frequency_keys, chars_length in Hk. lia.
      * case_decide; [|by apply elem_of_nil in Hk].
        apply list_elem_of_singleton in Hk as ->. simpl. lia.
    + rewrite Hcodes in Hin. apply leaf_paths_height in Hin.
      pose proof (build_height text root Hlen Hbuild). lia.
  - rewrite <-(length_fmap fst), Hperm. unfold expected_symbols.
    rewrite length_app.
    pose proof (chars_NoDup_length text (build_frequency_map text).*1
                  (frequency_NoDup text)) as Hkeys.
    assert (Z.of_nat (length (build_frequency_map text).*1) ≤ 1114112)%Z.
    { apply Hkeys; [|done]. intros k. apply frequency_keys. }
    case_decide; simpl; lia.
Qed.

(** The header of a text of fewer than 2^63 symbols is shorter than 2^32
    bytes. *)
Lemma header_fits text padding header_bytes :
  text ≠ [] → forallb is_scalar text = true → (Z.of_nat (length text) < 2 ^ 63)%Z →
  (0 ≤ padding ≤ 7)%Z →
  utf8_encode (dumps_header (code_table id_of text) padding) = Some header_bytes →
  (0 ≤ Z.of_nat (length header_bytes) < 2 ^ 32)%Z.
Proof.
  intros Hne Htext Hlen Hp Henc.
  destruct (code_table_bounds text Hne Htext Hlen) as [Hentries Hcount].
  apply utf8_encode_length in Henc.
  pose proof (dumps_header_length _ _ Hentries Hp).
  change (2 ^ 32)%Z with 4294967296%Z. unfold dict, str, bytes in *. lia.
Qed.
End header_fits.

(** ** The pipelines *)

Definition abracadabra : str := [97; 98; 114; 97; 99; 97; 100; 97; 98; 114; 97]%Z.

Lemma str_encode_scalars text : forallb is_scalar text = true → ∃ b, str_encode text = Ok b.
Proof.
  intros [b Hb]%utf8_encode_scalars. exists b. unfold str_encode. by rewrite Hb.
Qed.

Lemma decode_bits_padded codes bits :
  decode_bits_to_text (bits ++ replicate (Z.to_nat (padding_of bits)) c0)
                      (codes_json codes) (JInt (padding_of bits))
  = (let '(cur, out_chars) := decode_loop (rev_of codes) bits [] [] in
     if decide (cur ≠ []) then Raise ValueError else Ok (mjoin out_chars)).
Proof.
  unfold decode_bits_to_text.
  by rewrite remove_padding_spec, Ok_bind, reverse_map_codes, Ok_bind.
Qed.

Section pipelines.
Variable id_of : nat → Z.

(** What the two pipelines do on a text that [compress_file] accepts. *)
Lemma compress_decompress text :
  text ≠ [] → forallb is_scalar text = true → (Z.of_nat (length text) < 2 ^ 63)%Z →
  ∃ bits payload header_bytes len_bytes,
    encode_text text (code_table id_of text) = Ok bits
    ∧ bits ≠ []
    ∧ bytes_to_bits payload = bits ++ replicate (Z.to_nat (padding_of bits)) c0
    ∧ compress_file id_of text = Ok (len_bytes ++ header_bytes ++ payload)
    ∧ ∀ payload',
        decompress_file (len_bytes ++ header_bytes ++ payload') =
          text' ← decode_bits_to_text (bytes_to_bits payload')
                    (codes_json (code_table id_of text)) (JInt (padding_of bits));
          _ ← str_encode text';
          Ok text'.
Proof.
  intros Hne Htext Hlen.
  destruct (compress_file_spec id_of text Hne Htext)
    as (bits & payload & header_bytes & Henc & Hbne & Hbits & Hunpack & Hhdr & Hcomp).
  destruct (int_to_bytes4_spec (Z.of_nat (length header_bytes)))
    as (len_bytes & Hlb & Hlen4 & Hint).
  { apply (header_fits id_of text (padding_of bits) header_bytes);
      [done|done|done|apply padding_of_range|done]. }
  rewrite Hlb, Ok_bind in Hcomp.
  exists bits, payload, header_bytes, len_bytes.
  split; [done|]. split; [done|]. split; [done|]. split; [done|].
  intros payload'.
  destruct (code_table_spec id_of text Hne) as (root & _ & _ & Hpc & _).
  apply decompress_file_container; try done.
  - by apply scalar_codes_valid, code_table_scalar.
  - by destruct Hpc.
  - apply padding_of_range.
Qed.

(** Decoding the padded bits of a text with its own table gives the text. *)
Lemma decode_encoded (text : str) bits :
  text ≠ [] → forallb is_scalar text = true →
  encode_text text (code_table id_of text) = Ok bits →
  (text' ← decode_bits_to_text (bits ++ replicate (Z.to_nat (padding_of bits)) c0)
             (codes_json (code_table id_of text)) (JInt (padding_of bits));
   _ ← str_encode text';
   Ok text') = Ok text.
Proof.
  intros Hne Htext Henc.
  destruct (code_table_spec id_of text Hne) as (root & _ & _ & Hpc & _).
  rewrite decode_bits_padded.
  pose proof (decode_loop_encode _ Hpc (chars text) bits [] [] Henc) as Hloop.
  rewrite (right_id_L [] (++)) in Hloop. rewrite Hloop. simpl.
  rewrite mjoin_chars. destruct (str_encode_scalars text Htext) as [b ->]. done.
Qed.
End pipelines.

(** ** The containers written and the recursion limit

    On a container that holds a header written by [write_huff_file],
    [decompress_file] does the same under every limit of two levels or
    more. *)

Lemma read_huff_file_limit_container depth len_bytes header_bytes payload text header :
  length len_bytes = 4 →
  int_from_bytes len_bytes = Z.of_nat (length header_bytes) →
  utf8_decode header_bytes = Some text →
  json_loads_limit depth text = Ok header →
  read_huff_file_limit depth (len_bytes ++ header_bytes ++ payload) = Ok (header, payload).
Proof.
  intros Hlen Hint Hdec Hjson. unfold read_huff_file_limit.
  rewrite take_app_length', drop_app_length' by done.
  rewrite decide_False by lia. rewrite Hint, Nat2Z.id.
  rewrite take_app_length, drop_app_length. unfold bytes_decode. rewrite Hdec, Ok_bind.
  by rewrite Hjson.
Qed.

Lemma decompress_file_limit_container depth codes padding header_bytes len_bytes payload :
  2 ≤ depth →
  valid_codes codes → NoDup codes.*1 → (0 ≤ padding ≤ 7)%Z →
  utf8_encode (dumps_header codes padding) = Some header_bytes →
  length len_bytes = 4 →
  int_from_bytes len_bytes = Z.of_nat (length header_bytes) →
  decompress_file_limit depth (len_bytes ++ header_bytes ++ payload)
  = decompress_file (len_bytes ++ header_bytes ++ payload).
Proof.
  intros Hdepth Hvalid Hnd Hp Henc Hlen Hint.
  unfold decompress_file_limit, decompress_file.
  rewrite (read_huff_file_limit_container depth _ _ _ (dumps_header codes padding)
             (header_json codes padding)); try done.
  - rewrite (read_huff_file_container _ _ _ (dumps_header codes padding)
               (header_json codes padding)); try done.
    + by apply utf8_roundtrip.
    + by apply json_loads_dumps_header.
  - by apply utf8_roundtrip.
  - by apply json_loads_limit_dumps_header.
Qed.

Section compressed.
Variable id_of : nat → Z.

(** What [compress_file] writes is a length, a header and a payload, and
    with this header and any payload [decompress_file] does the same under
    every limit of two levels or more. *)
Lemma decompress_file_limit_compressed (text : str) (data : bytes) :
  forallb is_scalar text = true → (Z.of_nat (length text) < 2 ^ 63)%Z →
  compress_file id_of text = Ok data →
  ∃ len_bytes header_bytes payload,
    data = len_bytes ++ header_bytes ++ payload
    ∧ length len_bytes = 4
    ∧ int_from_bytes len_bytes = Z.of_nat (length header_bytes)
    ∧ ∀ depth payload', 2 ≤ depth →
        decompress_file_limit depth (len_bytes ++ header_bytes ++ payload')
        = decompress_file (len_bytes ++ header_bytes ++ payload').
Proof.
  intros Htext Hlen Hcomp.
  destruct (decide (text = [])) as [->|Hne].
  { assert (data = [0; 0; 0; 27]%Z
              ++ [123; 34; 99; 111; 100; 101; 115; 34; 58; 32; 123; 125; 44; 32; 34;
                  112; 97; 100; 100; 105; 110; 103; 34; 58; 32; 48; 125]%Z ++ []) as ->.
    { assert (compress_file id_of [] =
                Ok ([0; 0; 0; 27]%Z
                    ++ [123; 34; 99; 111; 100; 101; 115; 34; 58; 32; 123; 125; 44; 32;
                        34; 112; 97; 100; 100; 105; 110; 103; 34; 58; 32; 48; 125]%Z
                    ++ [])) as Heq by reflexivity.
      rewrite Heq in Hcomp. by injection Hcomp as <-. }
    eexists _, _, _. split; [done|]. split; [done|]. split; [done|].
    intros depth payload' Hdepth.
    apply (decompress_file_limit_container depth [] 0);
      [done|constructor|constructor|lia|reflexivity|reflexivity|reflexivity]. }
  destruct (compress_file_spec id_of text Hne Htext)
    as (bits & payload & header_bytes & Henc & Hbne & Hbits & Hunpack & Hhdr & Hcomp').
  destruct (int_to_bytes4_spec (Z.of_nat (length header_bytes)))
    as (len_bytes & Hlb & Hlen4 & Hint).
  { apply (header_fits id_of text (padding_of bits) header_bytes);
      [done|done|done|apply padding_of_range|done]. }
  rewrite Hlb, Ok_bind, Hcomp in Hcomp'. injection Hcomp' as ->.
  exists len_bytes, header_bytes, payload.
  split; [done|]. split; [done|]. split; [done|].
  intros depth payload' Hdepth.
  destruct (code_table_spec id_of text Hne) as (root & _ & _ & Hpc & _).
  apply (decompress_file_limit_container depth (code_table id_of text) (padding_of bits));
    try done.
  - by apply scalar_codes_valid, code_table_scalar.
  - by destruct Hpc.
  - apply padding_of_range.
Qed.
End compressed.

(** ** heapq and the tree depend on the order of the identities only *)

Section heapq_ext.
Context {A : Type} (lt lt' : A → A → bool).
Hypothesis lt_ext : ∀ a b, lt a b = lt' a b.

Lemma siftdown_loop_ext fuel : ∀ heap newitem startpos pos,
  siftdown_loop lt fuel heap newitem startpos pos
  = siftdown_loop lt' fuel heap newitem startpos pos.
Proof using lt_ext.
  induction fuel as [|fuel IH]; intros heap newitem startpos pos; [done|].
  rewrite !siftdown_loop_S. case_decide; [|done].
  destruct (getitem heap ((pos - 1) `div` 2)) as [parent| |]; [|done..].
  rewrite !Ok_bind, lt_ext. by rewrite IH.
Qed.

Lemma siftdown_ext heap startpos pos :
  _siftdown lt heap startpos pos = _siftdown lt' heap startpos pos.
Proof using lt_ext.
  unfold _siftdown. destruct (getitem heap pos); [|done..].
  rewrite !Ok_bind. apply siftdown_loop_ext.
Qed.

Lemma siftup_loop_ext fuel : ∀ heap endpos pos childpos,
  siftup_loop lt fuel heap endpos pos childpos
  = siftup_loop lt' fuel heap endpos pos childpos.
Proof using lt_ext.
  induction fuel as [|fuel IH]; intros heap endpos pos childpos; [done|].
  rewrite !siftup_loop_S. case_decide; [|done].
  assert ((if decide (childpos + 1 < endpos)
           then c ← getitem heap childpos; r ← getitem heap (childpos + 1);
                Ok (if lt c r then childpos else childpos + 1)
           else Ok childpos)
          = (if decide (childpos + 1 < endpos)
             then c ← getitem heap childpos; r ← getitem heap (childpos + 1);
                  Ok (if lt' c r then childpos else childpos + 1)
             else Ok childpos)) as ->.
  { case_decide; [|done].
    destruct (getitem heap childpos); [|done..].
    destruct (getitem heap (childpos + 1)); [|done..].
    by rewrite !Ok_bind, lt_ext. }
  destruct (if decide (childpos + 1 < endpos) then _ else _) as [c'| |]; [|done..].
  rewrite !Ok_bind. destruct (getitem heap c'); [|done..].
  rewrite !Ok_bind. apply IH.
Qed.

Lemma siftup_ext heap pos : _siftup lt heap pos = _siftup lt' heap pos.
Proof using lt_ext.
  unfold _siftup. destruct (getitem heap pos); [|done..].
  rewrite !Ok_bind, siftup_loop_ext.
  destruct (siftup_loop lt' _ _ _ _ _) as [[heap' pos']| |]; [|done..].
  rewrite !Ok_bind. apply siftdown_ext.
Qed.

Lemma heappush_ext heap item : heappush lt heap item = heappush lt' heap item.
Proof using lt_ext. apply siftdown_ext. Qed.

Lemma heappop_ext heap : heappop lt heap = heappop lt' heap.
Proof using lt_ext.
  unfold heappop. destruct (last heap); [|done].
  destruct (removelast heap); [done|]. by rewrite siftup_ext.
Qed.
End heapq_ext.

Section build_ext.
Variables id1 id2 : nat → Z.
Hypothesis same_order : ∀ i j, (id1 i < id1 j)%Z ↔ (id2 i < id2 j)%Z.

Lemma Node_lt_ext a b : Node_lt id1 a b = Node_lt id2 a b.
Proof using same_order.
  unfold Node_lt. destruct (freq a =? freq b)%Z; [|done].
  specialize (same_order (ref a) (ref b)).
  destruct (id1 (ref a) <? id1 (ref b))%Z eqn:H1,
           (id2 (ref a) <? id2 (ref b))%Z eqn:H2; try done; lia.
Qed.

Lemma push_leaves_ext items : ∀ heap n,
  push_leaves id1 items heap n = push_leaves id2 items heap n.
Proof using same_order.
  induction items as [|[sym f] items IH]; intros heap n; [done|].
  simpl. rewrite (heappush_ext _ _ Node_lt_ext).
  destruct (heappush _ _ _); [|done..]. rewrite !Ok_bind. apply IH.
Qed.

Lemma merge_loop_ext fuel : ∀ heap n,
  merge_loop id1 fuel heap n = merge_loop id2 fuel heap n.
Proof using same_order.
  induction fuel as [|fuel IH]; intros heap n; [done|].
  simpl. case_decide; [|done].
  rewrite (heappop_ext _ _ Node_lt_ext).
  destruct (heappop (Node_lt id2) heap) as [[a h1]| |]; [|done..].
  rewrite !Ok_bind, (heappop_ext _ _ Node_lt_ext).
  destruct (heappop (Node_lt id2) h1) as [[b h2]| |]; [|done..].
  rewrite !Ok_bind, (heappush_ext _ _ Node_lt_ext).
  destruct (heappush _ _ _); [|done..]. rewrite !Ok_bind. apply IH.
Qed.

Lemma build_ext freq_map :
  build_huffman_tree id1 freq_map = build_huffman_tree id2 freq_map.
Proof using same_order.
  unfold build_huffman_tree. rewrite push_leaves_ext.
  destruct (push_leaves id2 freq_map [] 0) as [[heap n]| |]; [|done..].
  rewrite !Ok_bind. case_decide.
  - rewrite (heappop_ext _ _ Node_lt_ext).
    destruct (heappop (Node_lt id2) heap) as [[sole h1]| |]; [|done..].
    rewrite !Ok_bind, (heappush_ext _ _ Node_lt_ext).
    destruct (heappush _ _ _); [|done..]. rewrite !Ok_bind.
    by rewrite merge_loop_ext.
  - rewrite !Ok_bind. by rewrite merge_loop_ext.
Qed.
End build_ext.

Lemma build_total id_of freq_map : ∃ root, build_huffman_tree id_of freq_map = Ok root.
Proof.
  destruct freq_map as [|sf freq_map]; [by exists None|].
  destruct (build_symbols id_of (sf :: freq_map)) as (root & -> & _); [done|]. eauto.
Qed.

(** ** A payload cut short *)


Lemma bytes_to_bits_length bs : length (bytes_to_bits bs) = 8 * length bs.
Proof.
  induction bs as [|v bs IH]; [done|].
  rewrite bytes_to_bits_cons, length_app, IH. simpl. lia.
Qed.






(** ** One repeated symbol *)

Lemma count_step_same c k : count_step [([c], k)] [c] = [([c], (k + 1)%Z)].
Proof. unfold count_step. simpl. rewrite !decide_True by done. done. Qed.

Lemma frequency_replicate c n :
  0 < n → build_frequency_map (replicate n c) = [([c], Z.of_nat n)].
Proof.
  intros Hn. rewrite build_frequency_map_fold.
  assert (∀ m k, foldl count_step [([c], k)] (chars (replicate m c))
                 = [([c], (k + Z.of_nat m)%Z)]) as Hgen.
  { induction m as [|m IH]; intros k.
    - simpl. by rewrite Z.add_0_r.
    - change (chars (replicate (S m) c)) with ([c] :: chars (replicate m c)).
      cbn [foldl]. rewrite count_step_same, IH. do 2 f_equal. lia. }
  destruct n as [|n]; [lia|].
  change (chars (replicate (S n) c)) with ([c] :: chars (replicate n c)).
  cbn [foldl]. change (count_step [] [c]) with [([c], 1%Z)].
  rewrite Hgen. do 2 f_equal. lia.
Qed.

(** ** Containers that are not well formed *)

Definition header_block (data : bytes) : bytes :=
  take (Z.to_nat (int_from_bytes (take 4 data))) (drop 4 data).

(** The header read from a container, when it is the text of a JSON object
    (by the grammar, whatever its nesting). *)
Definition parsed_header (data : bytes) : option (list (str * json)) :=
  text ← utf8_decode (header_block data);
  match json_loads text with
  | Ok (JDict d) => Some d
  | _ => None
  end.

Lemma json_loads_error text : json_loads text = Raise ValueError ∨ ∃ v, json_loads text = Ok v.
Proof.
  unfold json_loads. destruct text as [|c text]; repeat case_match; eauto.
Qed.

(** What the code asks of the entries of the header. *)

(** [codes.items()] needs an object. *)
Definition is_object (v : json) : bool :=
  match v with
  | JDict _ => true
  | _ => false
  end.

(** A key of the reverse map must be hashable: an array or an object is
    not. *)
Definition unhashable (v : json) : bool :=
  match v with
  | JList _ | JDict _ => true
  | _ => false
  end.

(** [bits[:-padding]] needs an integer: an int or a bool. *)
Definition is_integer (v : json) : bool :=
  match v with
  | JInt _ | JBool _ => true
  | _ => false
  end.

(** A header that the code does not accept: it has no entry "codes", or this
    entry is not an object, or a value of this object is not hashable, or the
    entry "padding" is true in a condition and is not an integer. *)
Definition bad_header (d : list (str * json)) : Prop :=
  dict_get d key_codes = None
  ∨ (∃ codes, dict_get d key_codes = Some codes ∧ is_object codes = false)
  ∨ (∃ cd k v, dict_get d key_codes = Some (JDict cd) ∧ (k, v) ∈ cd ∧ unhashable v = true)
  ∨ (∃ p, dict_get d key_padding = Some p ∧ truthy p = true ∧ is_integer p = false).

Lemma build_rev_unhashable items : ∀ rev k v,
  (k, v) ∈ items → unhashable v = true → build_rev items rev = Raise TypeError.
Proof.
  induction items as [|[k0 v0] items IH]; intros rev k v Hin Hv.
  { by apply elem_of_nil in Hin. }
  apply elem_of_cons in Hin as [Heq|Hin].
  - injection Heq as <- <-. by destruct v.
  - simpl. destruct v0; try done; by eapply IH.
Qed.

Lemma remove_padding_error bits p :
  remove_padding bits p = Raise TypeError ∨ ∃ b, remove_padding bits p = Ok b.
Proof.
  unfold remove_padding, strip_padding. destruct (truthy p); [|eauto].
  destruct p; eauto.
Qed.

(** What [decode_bits_to_text] does with a header that the code does not
    accept. *)
Lemma decode_bad_header d bits :
  bad_header d →
  ∃ e, (codes ← dict_getitem d key_codes;
        text ← decode_bits_to_text bits codes (default (JInt 0) (dict_get d key_padding));
        _ ← str_encode text;
        Ok text) = Raise e
       ∧ (e = TypeError ∨ e = KeyError ∨ e = AttributeError).
Proof.
  unfold dict_getitem, decode_bits_to_text.
  intros [Hnone|[(codes & Hc & Hobj)|[(cd & k & v & Hc & Hin & Hv)|(p & Hp & Ht & Hi)]]].
  - rewrite Hnone. eauto.
  - rewrite Hc, Ok_bind.
    destruct (remove_padding_error bits (default (JInt 0) (dict_get d key_padding)))
      as [->|[b ->]]; [eauto|].
    rewrite Ok_bind. destruct codes; try done; simpl; eauto.
  - rewrite Hc, Ok_bind.
    destruct (remove_padding_error bits (default (JInt 0) (dict_get d key_padding)))
      as [->|[b ->]]; [eauto|].
    rewrite Ok_bind. simpl. rewrite (build_rev_unhashable cd [] k v Hin Hv). eauto.
  - destruct (dict_get d key_codes) as [codes|]; [|eauto].
    rewrite Ok_bind, Hp. simpl. unfold remove_padding. rewrite Ht.
    destruct p; try done; simpl; eauto.
Qed.

(** Without the limit: a container that is not well formed is refused. *)
Lemma decompress_file_malformed (data : bytes) :
  length data < 4
  ∨ parsed_header data = None
  ∨ (∃ d, parsed_header data = Some d ∧ bad_header d) →
  ∃ e, decompress_file data = Raise e
       ∧ (e = ValueError ∨ e = TypeError ∨ e = KeyError ∨ e = AttributeError).
Proof.
  unfold decompress_file, read_huff_file, parsed_header, header_block.
  intros [Hlen|Hbad].
  { rewrite decide_True; [eauto|]. rewrite length_take. lia. }
  case_decide; [eauto|].
  unfold bytes_decode.
  destruct (utf8_decode _) as [text|]; [|eauto]. rewrite Ok_bind. simpl in Hbad.
  destruct (json_loads_error text) as [->|[v Hv]]; [eauto|].
  rewrite Hv in *. rewrite !Ok_bind.
  destruct v as [| | | | | |d]; try (simpl; eauto 6).
  destruct Hbad as [?|(d' & [= <-] & Hbad)]; [done|].
  destruct (decode_bad_header d (bytes_to_bits
     (drop (Z.to_nat (int_from_bytes (take 4 data))) (drop 4 data))) Hbad)
    as (e & He & Hcases).
  exists e. split; [exact He|].
  destruct Hcases as [->|[->| ->]]; auto.
Qed.

(** The two pipelines under the limit raise RecursionError or do what they
    do without the limit. *)
Lemma read_huff_file_limit_agree depth data :
  read_huff_file_limit depth data = Raise RecursionError
  ∨ read_huff_file_limit depth data = read_huff_file data.
Proof.
  unfold read_huff_file_limit, read_huff_file.
  case_decide; [by right|].
  destruct (bytes_decode _) as [text| |]; [|by right..].
  rewrite !Ok_bind.
  destruct (json_loads_limit_agree depth text) as [->| ->]; [by left|by right].
Qed.

Lemma decompress_file_limit_agree depth data :
  decompress_file_limit depth data = Raise RecursionError
  ∨ decompress_file_limit depth data = decompress_file data.
Proof.
  unfold decompress_file_limit, decompress_file.
  destruct (read_huff_file_limit_agree depth data) as [->| ->]; [by left|by right].
Qed.

(** Where [decompress_file] does not raise RecursionError, a greater limit
    gives the same result. *)
Lemma decompress_file_limit_mono depth depth' data :
  depth ≤ depth' →
  decompress_file_limit depth data ≠ Raise RecursionError →
  decompress_file_limit depth' data = decompress_file_limit depth data.
Proof.
  intros Hd. unfold decompress_file_limit, read_huff_file_limit.
  case_decide; [done|].
  destruct (bytes_decode _) as [text| |]; [|done..].
  rewrite !Ok_bind. intros Hne.
  rewrite (json_loads_limit_mono depth depth' text Hd); [done|].
  intros Heq. rewrite Heq in Hne. by apply Hne.
Qed.

(** * The properties of the specification *)

Definition aaaa : str := [97; 97; 97; 97]%Z.
Definition abc_frequencies : dict str Z := [([97], 1); ([98], 1); ([99], 1)]%Z.

(** The identities of nodes whose addresses grow, or decrease, with the
    order of allocation. *)
Definition id_up (n : nat) : Z := Z.of_nat n.
Definition id_down (n : nat) : Z := (- Z.of_nat n)%Z.

(** C1: for every non-empty text (of scalar values, as a text read from a
    UTF-8 file is, and of fewer than 2^63 characters, as every [str] is),
    [compress_file] returns a container, and [decompress_file] on that
    container returns the text. *)
Theorem round_trip (id_of : nat → Z) (text : str) :
  text ≠ [] → forallb is_scalar text = true → (Z.of_nat (length text) < 2 ^ 63)%Z →
  ∃ container,
    compress_file id_of text = Ok container ∧ decompress_file container = Ok text.
Proof.
  intros Hne Htext Hlen.
  destruct (compress_decompress id_of text Hne Htext Hlen)
    as (bits & payload & header_bytes & len_bytes & Henc & _ & Hunpack & Hcomp & Hdec).
  exists (len_bytes ++ header_bytes ++ payload). split; [done|].
  rewrite Hdec, Hunpack. by apply decode_encoded.
Qed.

Lemma round_trip_witness :
  ∃ container,
    compress_file id_up abracadabra = Ok container
    ∧ decompress_file container = Ok abracadabra.
Proof.
  apply (round_trip id_up abracadabra); [discriminate|reflexivity|reflexivity].
Defined.

(** C2, as the code has it: on the empty text nothing fails.  The frequency
    table is empty, [build_huffman_tree] returns [None], the code table is
    empty, and [compress_file] returns a container (a header of 27 bytes and
    no payload). *)
Theorem empty_input_container (id_of : nat → Z) :
  build_frequency_map [] = []
  ∧ build_huffman_tree id_of (build_frequency_map []) = Ok None
  ∧ generate_codes None = []
  ∧ ∃ header_bytes,
      str_encode (dumps_header [] 0) = Ok header_bytes
      ∧ compress_file id_of [] = Ok ([0; 0; 0; 27]%Z ++ header_bytes).
Proof.
  split; [done|]. split; [done|]. split; [done|]. eexists. split; reflexivity.
Qed.

(** C2 fails on the code: [compress_file] on the empty text raises no error
    and produces a container. *)
Lemma empty_input_not_rejected :
  compress_file id_up [] =
    Ok [0; 0; 0; 27; 123; 34; 99; 111; 100; 101; 115; 34; 58; 32; 123; 125; 44; 32; 34;
        112; 97; 100; 100; 105; 110; 103; 34; 58; 32; 48; 125]%Z.
Proof. reflexivity. Qed.

(** C3: for every non-empty frequency table, [build_huffman_tree] returns a
    tree, and in the code table that [generate_codes] makes of it the code of
    a symbol is never a prefix of the code of another symbol. *)
Theorem codes_prefix_free (id_of : nat → Z) (freq_map : dict str Z) :
  freq_map ≠ [] →
  ∃ root,
    build_huffman_tree id_of freq_map = Ok (Some root)
    ∧ ∀ a b code_a code_b,
        a ≠ b →
        dict_get (generate_codes (Some root)) a = Some code_a →
        dict_get (generate_codes (Some root)) b = Some code_b →
        ¬ code_a `prefix_of` code_b.
Proof.
  intros Hne.
  destruct (build_symbols id_of freq_map Hne) as (root & Hbuild & Hsym & _).
  exists root. split; [done|].
  assert (is_leaf root = false) as Hleaf.
  { destruct root. simpl in Hsym. by subst. }
  intros a b code_a code_b Hab Ha Hb Hpre.
  rewrite generate_codes_spec in Ha, Hb.
  apply foldl_record_get in Ha as [?|(p & Hp & ->)]; [done|].
  apply foldl_record_get in Hb as [?|(q & Hq & ->)]; [done|].
  simpl in Hpre. unfold or0 in Hpre.
  rewrite !decide_False in Hpre by (by eapply leaf_paths_nonempty).
  by destruct (leaf_paths_prefix root a p b q Hp Hq Hpre).
Qed.

Lemma codes_prefix_free_witness :
  ∃ root,
    build_huffman_tree id_up (build_frequency_map abracadabra) = Ok (Some root)
    ∧ ∀ a b code_a code_b,
        a ≠ b →
        dict_get (generate_codes (Some root)) a = Some code_a →
        dict_get (generate_codes (Some root)) b = Some code_b →
        ¬ code_a `prefix_of` code_b.
Proof.
  apply (codes_prefix_free id_up (build_frequency_map abracadabra)). discriminate.
Defined.

(** C4, as the code has it: ties between nodes of equal weight are broken by
    [id()].  Two runs in which the identities of the nodes are in the same
    order build the same tree, hence the same code table. *)
Theorem tie_break_by_identity (id1 id2 : nat → Z) (freq_map : dict str Z) :
  (∀ i j, (id1 i < id1 j)%Z ↔ (id2 i < id2 j)%Z) →
  ∃ root,
    build_huffman_tree id1 freq_map = Ok root
    ∧ build_huffman_tree id2 freq_map = Ok root.
Proof.
  intros Horder. destruct (build_total id1 freq_map) as [root Hroot].
  exists root. split; [done|]. by rewrite <-(build_ext id1 id2 Horder).
Qed.

Lemma tie_break_by_identity_witness :
  ∃ root,
    build_huffman_tree id_up abc_frequencies = Ok root
    ∧ build_huffman_tree (λ n, 2 * Z.of_nat n + 5)%Z abc_frequencies = Ok root.
Proof.
  apply (tie_break_by_identity id_up (λ n, 2 * Z.of_nat n + 5)%Z abc_frequencies).
  unfold id_up. intros i j. lia.
Defined.

(** C4 fails on the code: with the same frequency table, a run in which the
    addresses of the nodes grow and a run in which they decrease give
    the symbol a different code. *)
Lemma tie_break_depends_on_identity :
  (∀ i j, id_up i = id_up j → i = j)
  ∧ (∀ i j, id_down i = id_down j → i = j)
  ∧ ∃ root1 root2,
      build_huffman_tree id_up abc_frequencies = Ok root1
      ∧ build_huffman_tree id_down abc_frequencies = Ok root2
      ∧ dict_get (generate_codes root1) [97%Z] = Some [c1; c0]
      ∧ dict_get (generate_codes root2) [97%Z] = Some [c0].
Proof.
  split; [unfold id_up; lia|]. split; [unfold id_down; lia|].
  eexists _, _. repeat split; reflexivity.
Qed.

(** C5 on the code: for a text of one repeated symbol the code table has two
    entries, the symbol with the code "0" and the placeholder, the empty
    string, with the code "1".  The round trip holds. *)
Theorem single_symbol_table (id_of : nat → Z) (c : Z) (n : nat) :
  is_scalar c = true → 0 < n → (Z.of_nat n < 2 ^ 63)%Z →
  let text := replicate n c in
  build_huffman_tree id_of (build_frequency_map text)
    = Ok (Some (placeholder_parent (leaf [c] (Z.of_nat n) 0) 1))
  ∧ generate_codes (Some (placeholder_parent (leaf [c] (Z.of_nat n) 0) 1))
    = [([c], [c0]); ([], [c1])]
  ∧ ∃ container,
      compress_file id_of text = Ok container ∧ decompress_file container = Ok text.
Proof.
  intros Hc Hn Hlen text. unfold text. rewrite frequency_replicate by done.
  split; [apply build_single|]. split; [done|].
  assert (replicate n c ≠ []) as Hne by (destruct n; [lia|done]).
  assert (forallb is_scalar (replicate n c) = true) as Htext.
  { clear -Hc. induction n as [|n IH]; simpl; [done|]. by rewrite Hc. }
  destruct (compress_decompress id_of (replicate n c) Hne Htext)
    as (bits & payload & header_bytes & len_bytes & Henc & _ & Hunpack & Hcomp & Hdec).
  { by rewrite length_replicate. }
  exists (len_bytes ++ header_bytes ++ payload). split; [done|].
  rewrite Hdec, Hunpack. by apply decode_encoded.
Qed.

Lemma single_symbol_table_witness :
  build_huffman_tree id_up (build_frequency_map aaaa)
    = Ok (Some (placeholder_parent (leaf [97%Z] 4 0) 1))
  ∧ generate_codes (Some (placeholder_parent (leaf [97%Z] 4 0) 1))
    = [([97%Z], [c0]); ([], [c1])]
  ∧ ∃ container,
      compress_file id_up aaaa = Ok container ∧ decompress_file container = Ok aaaa.
Proof.
  apply (single_symbol_table id_up 97 4); [reflexivity|lia|reflexivity].
Defined.

(** C6: for every bit string, [bits_to_bytes] returns bytes and a padding
    between 0 and 7, and [bytes_to_bits] of the bytes, with the padding
    removed as [decode_bits_to_text] removes it, is the bit string. *)
Theorem padding_round_trip (bitstring : str) :
  forallb is_bit bitstring = true →
  ∃ b padding,
    bits_to_bytes bitstring = Ok (b, padding)
    ∧ (0 ≤ padding ≤ 7)%Z
    ∧ remove_padding (bytes_to_bits b) (JInt padding) = Ok bitstring.
Proof.
  intros Hbits. destruct (bits_to_bytes_spec bitstring Hbits) as (b & Hpack & Hunpack & _).
  exists b, (padding_of bitstring). split; [done|]. split; [apply padding_of_range|].
  rewrite Hunpack. apply remove_padding_spec.
Qed.

Lemma padding_round_trip_witness :
  ∃ b padding,
    bits_to_bytes [c1; c0; c1; c1; c0] = Ok (b, padding)
    ∧ (0 ≤ padding ≤ 7)%Z
    ∧ remove_padding (bytes_to_bits b) (JInt padding) = Ok [c1; c0; c1; c1; c0].
Proof. apply (padding_round_trip [c1; c0; c1; c1; c0]). reflexivity. Defined.




(** C8, as the code has it: [decompress_file] fails, with ValueError,
    TypeError, KeyError, AttributeError or RecursionError, when the container
    has fewer than four bytes, when the header block (the bytes there are, up
    to the declared length) is not the UTF-8 text of a JSON object, or when
    the object is a header that the code does not accept: it has no entry
    "codes", or this entry is not an object or has an array or an object as a
    value, or the entry "padding" is true in a condition and is not an
    integer.  This holds whatever nesting the interpreter allows to
    [json.loads]; RecursionError is for a header that nests deeper.  The
    declared length is not compared with the bytes there are, a header without
    "padding" is accepted, and the padding is not checked against 0..7. *)
Theorem malformed_container (depth : nat) (data : bytes) :
  length data < 4
  ∨ parsed_header data = None
  ∨ (∃ d, parsed_header data = Some d ∧ bad_header d) →
  ∃ e, decompress_file_limit depth data = Raise e
       ∧ (e = ValueError ∨ e = TypeError ∨ e = KeyError ∨ e = AttributeError
          ∨ e = RecursionError).
Proof.
  intros Hbad.
  destruct (decompress_file_limit_agree depth data) as [->| ->]; [eauto 8|].
  destruct (decompress_file_malformed data Hbad) as (e & -> & He).
  exists e. split; [done|]. destruct He as [->|[->|[->| ->]]]; auto 6.
Qed.

(** The header {"codes": 1}: the entry "codes" is not an object. *)
Lemma malformed_container_witness :
  ∃ e, decompress_file_limit 2
         ([0; 0; 0; 12]%Z ++ [123; 34; 99; 111; 100; 101; 115; 34; 58; 32; 49; 125]%Z)
       = Raise e
       ∧ (e = ValueError ∨ e = TypeError ∨ e = KeyError ∨ e = AttributeError
          ∨ e = RecursionError).
Proof.
  apply (malformed_container 2).
  right. right. exists [(key_codes, JInt 1)]. split; [reflexivity|].
  right. left. exists (JInt 1). split; reflexivity.
Defined.

(** A header that nests one deeper than the interpreter allows is refused
    with RecursionError. *)
Lemma deep_header_RecursionError depth (len_bytes payload : bytes) :
  length len_bytes = 4 → int_from_bytes len_bytes = Z.of_nat (S depth) →
  decompress_file_limit depth (len_bytes ++ replicate (S depth) 91%Z ++ payload)
  = Raise RecursionError.
Proof.
  intros Hlen Hint. unfold decompress_file_limit, read_huff_file_limit.
  rewrite take_app_length', drop_app_length' by done.
  rewrite decide_False by lia. rewrite Hint, Nat2Z.id.
  rewrite take_app_length', drop_app_length' by (by rewrite length_replicate).
  assert (bytes_decode (replicate (S depth) 91%Z) = Ok (replicate (S depth) 91%Z)) as ->.
  { unfold bytes_decode. generalize (S depth). intros n.
    assert (utf8_decode (replicate n 91%Z) = Some (replicate n 91%Z)) as ->; [|done].
    induction n as [|n IH]; [done|]. simpl. by rewrite IH. }
  rewrite Ok_bind.
  pose proof (json_loads_limit_deep depth []) as Hdeep.
  rewrite (right_id_L [] (++)) in Hdeep. by rewrite Hdeep.
Qed.

(** The header {"codes": {"a": "0"}, "padding": p} for a digit p. *)
Definition header_a (p : Z) : bytes :=
  [123; 34; 99; 111; 100; 101; 115; 34; 58; 32; 123; 34; 97; 34; 58; 32; 34; 48; 34; 125;
   44; 32; 34; 112; 97; 100; 100; 105; 110; 103; 34; 58; 32; 48 + p; 125]%Z.

(** The header {"codes": {"a": "0"}}. *)
Definition header_codes_only : bytes :=
  [123; 34; 99; 111; 100; 101; 115; 34; 58; 32; 123; 34; 97; 34; 58; 32; 34; 48; 34; 125;
   125]%Z.

(** C8 fails on the code: a declared header length of 255 with 35 bytes
    there, a padding of 9, and a header without "padding" are all accepted
    (with room for the two levels of the header, and so with any more:
    [decompress_file_limit_mono]). *)
Lemma length_and_padding_unchecked :
  decompress_file_limit 2 ([0; 0; 0; 255]%Z ++ header_a 0) = Ok []
  ∧ decompress_file_limit 2 ([0; 0; 0; 35]%Z ++ header_a 9 ++ [0; 0]%Z)
    = Ok (replicate 7 97%Z)
  ∧ decompress_file_limit 2 ([0; 0; 0; 21]%Z ++ header_codes_only ++ [0]%Z)
    = Ok (replicate 8 97%Z).
Proof. split; [reflexivity|]. split; reflexivity. Qed.

(** C9: the keys of the table of [build_frequency_map] are the distinct
    characters of the text; the counts are the numbers of occurrences, which
    are not negative and whose sum is the length of the text; the table of a
    permutation of the text has the same counts; the table of the empty text
    is empty. *)
Theorem frequency_map_spec (text : str) :
  NoDup (dict_keys (build_frequency_map text))
  ∧ (∀ k, k ∈ dict_keys (build_frequency_map text) ↔ k ∈ chars text)
  ∧ (∀ k v, dict_get (build_frequency_map text) k = Some v →
            (0 ≤ v)%Z ∧ v = Z.of_nat (occurrences k (chars text)))
  ∧ sum_values (build_frequency_map text) = Z.of_nat (length text)
  ∧ (∀ text' k, text ≡ₚ text' →
       dict_get (build_frequency_map text') k = dict_get (build_frequency_map text) k)
  ∧ build_frequency_map [] = [].
Proof.
  split; [apply frequency_NoDup|]. split; [apply frequency_keys|].
  split; [|split; [apply sum_values_frequency|split; [|done]]].
  - intros k v. rewrite frequency_get. case_decide; [|done]. intros [= <-]. split; [lia|done].
  - intros text' k Hperm. rewrite !frequency_get.
    assert (chars text ≡ₚ chars text') as Hchars by (unfold chars; by rewrite Hperm).
    rewrite (occurrences_perm k _ _ Hchars).
    destruct (decide (k ∈ chars text')) as [Hin|Hnin].
    + rewrite decide_True; [done|]. by rewrite Hchars.
    + rewrite decide_False; [done|]. by rewrite Hchars.
Qed.

(** C10: on the empty text [compress_file] returns a container whose header
    holds an empty code table and the padding 0 and whose payload is empty,
    and [decompress_file] on it returns the empty text. *)
Theorem empty_round_trip (id_of : nat → Z) :
  ∃ container,
    compress_file id_of [] = Ok container
    ∧ read_huff_file container = Ok (header_json [] 0, [])
    ∧ decompress_file container = Ok [].
Proof. eexists. split; [reflexivity|]. split; reflexivity. Qed.

(** * Further properties of the code *)

(** ** The tree and its code table *)

(** The leaves of a tree in the order of [dfs]: the symbol, the weight and the
    path of each. *)
Fixpoint leaf_entries (node : Node) : list (str * Z * str) :=
  match node with
  | mkNode f sym l r _ =>
      match sym, l, r with
      | Some s, None, None => [(s, f, [])]
      | _, _, _ =>
          match l with
          | Some l' => (λ e, (e.1, c0 :: e.2)) <$> leaf_entries l'
          | None => []
          end ++
          match r with
          | Some r' => (λ e, (e.1, c1 :: e.2)) <$> leaf_entries r'
          | None => []
          end
      end
  end.

(** The leaves with their weights. *)
Definition leaves (node : Node) : list (str * Z) := (leaf_entries node).*1.

(** Every node is a leaf that holds a symbol, or has no symbol and two
    children whose weights add up to its own. *)
Fixpoint weights_add_up (t : Node) : bool :=
  match t with
  | mkNode f s l r _ =>
      match l, r with
      | None, None => bool_decide (s ≠ None)
      | Some a, Some b =>
          bool_decide (s = None) && (f =? freq a + freq b)%Z
          && weights_add_up a && weights_add_up b
      | _, _ => false
      end
  end.

(** The sum over the codes of 2^(M - length), the Kraft sum scaled by 2^M. *)
Definition kraft (M : nat) (codes : list str) : Z :=
  foldr (λ p acc, 2 ^ Z.of_nat (M - length p) + acc)%Z 0%Z codes.

Lemma leaf_entries_paths t : (λ e, (e.1.1, e.2)) <$> leaf_entries t = leaf_paths t.
Proof.
  induction t as [f s l r i IHl IHr] using Node_ind.
  assert (∀ c (ch : option Node),
            from_option (λ n, (λ e, (e.1.1, e.2)) <$> leaf_entries n = leaf_paths n) True ch →
            (λ e : str * Z * str, (e.1.1, e.2)) <$>
              match ch with
              | Some n => (λ e, (e.1, c :: e.2)) <$> leaf_entries n
              | None => []
              end
            = match ch with
              | Some n => prod_map id (cons c) <$> leaf_paths n
              | None => []
              end) as Hch.
  { intros c [n|] Hn; [|done]. simpl in Hn. rewrite <-Hn, <-!list_fmap_compose.
    apply list_fmap_ext. by intros ? [[??]?]. }
  destruct s as [s|], l as [a|], r as [b|]; simpl in *;
    rewrite ?fmap_app, ?(Hch c0 (Some a)), ?(Hch c1 (Some b)); done.
Qed.

Lemma leaves_merged a b n : leaves (merged a b n) = leaves a ++ leaves b.
Proof.
  unfold leaves. simpl. rewrite fmap_app, <-!list_fmap_compose.
  f_equal; by apply list_fmap_ext; intros ? [[??]?].
Qed.

Definition forest_leaves (heap : list Node) : list (str * Z) := heap ≫= leaves.

#[global] Instance forest_leaves_perm : Proper ((≡ₚ) ==> (≡ₚ)) forest_leaves.
Proof. intros h h' Hperm. unfold forest_leaves. by rewrite Hperm. Qed.

Lemma forest_leaves_imap (items : dict str Z) k :
  forest_leaves (imap (λ i sf, leaf sf.1 sf.2 (k + i)) items) = items.
Proof.
  revert k. induction items as [|[s f] items IH]; intros k; [done|].
  unfold forest_leaves in *. rewrite imap_cons, bind_cons.
  rewrite <-(IH (S k)) at 2. simpl. do 2 f_equal.
  apply imap_ext. intros i [??] _. simpl. f_equal. lia.
Qed.

(** The weight of a tree whose weights add up is the sum of its leaves'. *)
Lemma weights_add_up_sum t : weights_add_up t = true → freq t = sum_values (leaves t).
Proof.
  induction t as [f s l r i IHl IHr] using Node_ind. simpl.
  destruct l as [a|], r as [b|]; try done; simpl in *.
  - rewrite !andb_true_iff, bool_decide_eq_true. intros [[[-> Hf] Ha] Hb].
    change (leaves (mkNode f None (Some a) (Some b) i)) with (leaves (merged a b i)).
    rewrite leaves_merged. unfold sum_values in *. rewrite foldr_app.
    rewrite <-(IHr Hb). clear IHr.
    assert (∀ z (l : list (str * Z)), foldr (λ kv acc, kv.2 + acc)%Z z l
                   = (foldr (λ kv acc, kv.2 + acc) 0 l + z)%Z) as Hz.
    { intros z l0. induction l0 as [|? ? IH]; simpl; lia. }
    rewrite Hz, <-(IHl Ha). lia.
  - rewrite bool_decide_eq_true. destruct s as [s|]; [|done]. intros _.
    unfold leaves, sum_values. simpl. lia.
Qed.

Section build_leaves.
Variable id_of : nat → Z.

(** The tree of a table of two entries or more: its leaves are the entries
    and its weights add up. *)
Lemma build_leaves (freq_map : dict str Z) :
  1 < length freq_map →
  ∃ root, build_huffman_tree id_of freq_map = Ok (Some root)
          ∧ leaves root ≡ₚ freq_map
          ∧ weights_add_up root = true
          ∧ is_leaf root = false.
Proof.
  intros Hlen.
  destruct (build_rule id_of (λ _ _, True)
    (λ heap n, forest_leaves heap ≡ₚ freq_map
               ∧ Forall (λ t, weights_add_up t = true) heap
               ∧ ∀ x, heap = [x] → is_leaf x = false)
    freq_map) as (heap & n & Heq & (Hleaves & Hw & Hroot) & Hlen'); try done.
  - intros heap _ Hperm Hne. split; [|split].
    + rewrite Hperm. pose proof (forest_leaves_imap freq_map 0) as Himap.
      cbn [Nat.add] in Himap. by rewrite Himap.
    + rewrite Hperm. apply Forall_forall. intros t Ht.
      apply list_elem_of_lookup in Ht as [i Ht].
      by apply list_lookup_imap_Some in Ht as ([s f] & Hsf & ->).
    + intros x ->. apply Permutation_length in Hperm.
      rewrite length_imap in Hperm. simpl in Hperm. lia.
  - intros sole _ Hsole. destruct freq_map as [|? [|??]]; simplify_eq/=; lia.
  - intros heap n a h1 b h2 h3 (Hleaves & Hw & Hroot) _ _ _ _ Hp1 Hp2 Hp3.
    assert (heap ≡ₚ a :: b :: h2) as Hheap by (by rewrite <-Hp1, <-Hp2).
    rewrite Hheap in Hw, Hleaves.
    apply Forall_cons in Hw as [Ha Hw]. apply Forall_cons in Hw as [Hb Hw].
    split; [|split].
    + rewrite Hp3, <-Hleaves. unfold forest_leaves. simpl.
      by rewrite leaves_merged, (assoc_L (++)).
    + rewrite Hp3. constructor; [|done]. simpl.
      rewrite Ha, Hb, Z.eqb_refl. done.
    + intros x ->. apply Permutation_singleton_l in Hp3. by simplify_eq.
  - assert (length heap = 1) as Hone by lia.
    destruct heap as [|root [|??]]; try done.
    exists root. split; [done|].
    unfold forest_leaves in Hleaves. simpl in Hleaves.
    rewrite (right_id_L [] (++)) in Hleaves.
    apply Forall_cons in Hw as [Hw _]. split; [done|]. split; [done|].
    by apply Hroot.
Qed.
End build_leaves.

(** *** The order of the heap *)

(** X1: [Node.__lt__] is a strict total order on nodes that are distinct
    objects, as [heapq] needs: no node is less than itself, the comparison is
    transitive, and of two distinct nodes one is less than the other.  Distinct
    objects have distinct identities. *)
Theorem Node_lt_strict_total_order (id_of : nat → Z) :
  (∀ i j, id_of i = id_of j → i = j) →
  (∀ a, Node_lt id_of a a = false)
  ∧ (∀ a b c, Node_lt id_of a b = true → Node_lt id_of b c = true →
              Node_lt id_of a c = true)
  ∧ (∀ a b, ref a ≠ ref b → Node_lt id_of a b = true ∨ Node_lt id_of b a = true).
Proof.
  intros Hinj. unfold Node_lt. split; [|split].
  - intros a. rewrite Z.eqb_refl. lia.
  - intros a b c.
    destruct (freq a =? freq b)%Z eqn:Hab, (freq b =? freq c)%Z eqn:Hbc,
             (freq a =? freq c)%Z eqn:Hac; lia.
  - intros a b Hne. assert (id_of (ref a) ≠ id_of (ref b)) by (intros ?%Hinj; done).
    rewrite (Z.eqb_sym (freq b)). destruct (freq a =? freq b)%Z eqn:Hab; lia.
Qed.

Lemma Node_lt_strict_total_order_witness :
  (∀ a, Node_lt id_up a a = false)
  ∧ (∀ a b c, Node_lt id_up a b = true → Node_lt id_up b c = true →
              Node_lt id_up a c = true)
  ∧ (∀ a b, ref a ≠ ref b → Node_lt id_up a b = true ∨ Node_lt id_up b a = true).
Proof. apply (Node_lt_strict_total_order id_up). unfold id_up. lia. Defined.

(** *** The leaves and the weights *)

(** X2: for a frequency table of two entries or more, [build_huffman_tree]
    returns a tree with one leaf for each entry of the table, which holds its
    symbol and its frequency; every other node has no symbol and two children,
    and its weight is the sum of theirs; the weight of the root is the sum of
    the frequencies. *)
Theorem tree_leaves_are_the_table (id_of : nat → Z) (freq_map : dict str Z) :
  1 < length freq_map →
  ∃ root,
    build_huffman_tree id_of freq_map = Ok (Some root)
    ∧ leaves root ≡ₚ freq_map
    ∧ weights_add_up root = true
    ∧ freq root = sum_values freq_map.
Proof.
  intros Hlen. destruct (build_leaves id_of freq_map Hlen) as (root & Hb & Hl & Hw & _).
  exists root. split; [done|]. split; [done|]. split; [done|].
  rewrite (weights_add_up_sum root Hw). unfold sum_values.
  clear -Hl. induction Hl; simpl; lia.
Qed.

Lemma tree_leaves_are_the_table_witness :
  ∃ root,
    build_huffman_tree id_up abc_frequencies = Ok (Some root)
    ∧ leaves root ≡ₚ abc_frequencies
    ∧ weights_add_up root = true
    ∧ freq root = sum_values abc_frequencies.
Proof. apply (tree_leaves_are_the_table id_up abc_frequencies). simpl. lia. Defined.

(** *** The code table of the tree built *)

Lemma kraft_app M ps qs : kraft M (ps ++ qs) = (kraft M ps + kraft M qs)%Z.
Proof. unfold kraft. induction ps as [|p ps IH]; simpl; lia. Qed.

Lemma kraft_cons_paths M c (l : list (str * str)) :
  kraft (S M) (prod_map id (cons c) <$> l).*2 = kraft M l.*2.
Proof.
  induction l as [|[a p] l IH]; [done|].
  rewrite !fmap_cons. unfold kraft in *. cbn [foldr]. f_equal. exact IH.
Qed.

Lemma weights_add_up_leaf t :
  weights_add_up t = true → ∃ a p, (a, p) ∈ leaf_paths t.
Proof.
  induction t as [f s l r i IHl IHr] using Node_ind. simpl.
  destruct l as [a|], r as [b|]; try done; simpl in *.
  - rewrite !andb_true_iff. intros [[_ Ha] _].
    destruct (IHl Ha) as (k & p & Hin). exists k, (c0 :: p).
    destruct s; apply elem_of_app; left; apply list_elem_of_fmap; by exists (k, p).
  - rewrite bool_decide_eq_true. destruct s as [s|]; [|done]. intros _.
    exists s, []. by left.
Qed.

(** The Kraft sum of the paths of a tree whose inner nodes all have two
    children is one. *)
Lemma kraft_leaf_paths t :
  weights_add_up t = true →
  ∀ M, (∀ a p, (a, p) ∈ leaf_paths t → length p ≤ M) →
       kraft M (leaf_paths t).*2 = (2 ^ Z.of_nat M)%Z.
Proof.
  induction t as [f s l r i IHl IHr] using Node_ind. intros Hw M HM.
  simpl in Hw. destruct l as [a|], r as [b|]; try done; simpl in *.
  - rewrite !andb_true_iff, bool_decide_eq_true in Hw.
    destruct Hw as [[[-> _] Ha] Hb].
    destruct (weights_add_up_leaf a Ha) as (k & p & Hin).
    destruct M as [|M].
    { specialize (HM k (c0 :: p)). simpl in HM.
      assert (S (length p) ≤ 0); [|lia]. apply HM.
      apply elem_of_app; left; apply list_elem_of_fmap; by exists (k, p). }
    rewrite fmap_app, kraft_app, !kraft_cons_paths.
    rewrite IHl, IHr; try done.
    + rewrite Nat2Z.inj_succ, Z.pow_succ_r by lia. lia.
    + intros k' p' Hin'. specialize (HM k' (c1 :: p')). simpl in HM.
      assert (S (length p') ≤ S M); [|lia]. apply HM.
      apply elem_of_app; right; apply list_elem_of_fmap; by exists (k', p').
    + intros k' p' Hin'. specialize (HM k' (c0 :: p')). simpl in HM.
      assert (S (length p') ≤ S M); [|lia]. apply HM.
      apply elem_of_app; left; apply list_elem_of_fmap; by exists (k', p').
  - destruct s as [s|]; [|done]. unfold kraft. simpl. rewrite Nat.sub_0_r. lia.
Qed.

Lemma abc_frequencies_NoDup : NoDup (dict_keys abc_frequencies).
Proof.
  unfold dict_keys. simpl.
  repeat (apply NoDup_cons_2;
          [rewrite ?elem_of_cons, elem_of_nil; intros H; decompose [or] H;
           (discriminate || contradiction)|]).
  apply NoDup_nil_2.
Qed.

Lemma leaves_symbols t : (leaves t).*1 = symbols_of t.
Proof.
  unfold leaves, symbols_of. rewrite <-leaf_entries_paths, <-!list_fmap_compose.
  by apply list_fmap_ext.
Qed.

(** X3: for a frequency table of two entries or more, the keys of the code
    table are the symbols of the frequency table, each once, and every code is
    a non-empty string of '0' and '1'. *)
Theorem code_table_keys_are_the_symbols (id_of : nat → Z) (freq_map : dict str Z) :
  NoDup (dict_keys freq_map) → 1 < length freq_map →
  ∃ root,
    build_huffman_tree id_of freq_map = Ok (Some root)
    ∧ dict_keys (generate_codes (Some root)) ≡ₚ dict_keys freq_map
    ∧ ∀ k p, dict_get (generate_codes (Some root)) k = Some p →
             p ≠ [] ∧ forallb is_bit p = true.
Proof.
  intros Hnd Hlen. unfold dict_keys in *.
  destruct (build_leaves id_of freq_map Hlen) as (root & Hb & Hl & Hw & Hleaf).
  exists root. split; [done|].
  assert (symbols_of root ≡ₚ freq_map.*1) as Hsym.
  { by rewrite <-leaves_symbols, Hl. }
  assert (NoDup (symbols_of root)) as Hnd' by (by rewrite Hsym).
  rewrite generate_codes_NoDup by done. split; [done|].
  intros k p Hget. apply dict_get_Some_elem in Hget. split.
  - by eapply leaf_paths_nonempty.
  - by eapply leaf_paths_bits.
Qed.

Lemma code_table_keys_are_the_symbols_witness :
  ∃ root,
    build_huffman_tree id_up abc_frequencies = Ok (Some root)
    ∧ dict_keys (generate_codes (Some root)) ≡ₚ dict_keys abc_frequencies
    ∧ ∀ k p, dict_get (generate_codes (Some root)) k = Some p →
             p ≠ [] ∧ forallb is_bit p = true.
Proof.
  apply (code_table_keys_are_the_symbols id_up abc_frequencies).
  - apply abc_frequencies_NoDup.
  - simpl. lia.
Defined.

(** X4: the code table of a frequency table of two entries or more is
    complete: the sum over its codes of 2^-length is 1 (here scaled by 2^M, for
    any M that bounds the lengths), so that no code could be made shorter
    and no code added. *)
Theorem code_table_is_complete (id_of : nat → Z) (freq_map : dict str Z) :
  NoDup (dict_keys freq_map) → 1 < length freq_map →
  ∃ root,
    build_huffman_tree id_of freq_map = Ok (Some root)
    ∧ ∀ M, (∀ k p, (k, p) ∈ generate_codes (Some root) → length p ≤ M) →
           kraft M (generate_codes (Some root)).*2 = (2 ^ Z.of_nat M)%Z.
Proof.
  intros Hnd Hlen. unfold dict_keys in *.
  destruct (build_leaves id_of freq_map Hlen) as (root & Hb & Hl & Hw & Hleaf).
  exists root. split; [done|].
  assert (NoDup (symbols_of root)) as Hnd'.
  { by rewrite <-leaves_symbols, Hl. }
  rewrite generate_codes_NoDup by done.
  intros M HM. by apply kraft_leaf_paths.
Qed.

Lemma code_table_is_complete_witness :
  ∃ root,
    build_huffman_tree id_up abc_frequencies = Ok (Some root)
    ∧ ∀ M, (∀ k p, (k, p) ∈ generate_codes (Some root) → length p ≤ M) →
           kraft M (generate_codes (Some root)).*2 = (2 ^ Z.of_nat M)%Z.
Proof.
  apply (code_table_is_complete id_up abc_frequencies).
  - apply abc_frequencies_NoDup.
  - simpl. lia.
Defined.

(** X5: long codes need long texts.  For a text of two distinct characters or
    more, a code of length n is given only when the text has at least
    [fib n] characters, where [fib] is 1, 2, 3, 5, 8, ...; so no code of a
    text of fewer than 2^63 characters is longer than 90 bits. *)
Theorem code_length_bound (id_of : nat → Z) (text : str) :
  1 < length (build_frequency_map text) →
  ∃ root,
    build_huffman_tree id_of (build_frequency_map text) = Ok (Some root)
    ∧ ∀ k p, dict_get (generate_codes (Some root)) k = Some p →
             (fib (length p) ≤ Z.of_nat (length text))%Z
             ∧ ((Z.of_nat (length text) < 2 ^ 63)%Z → length p ≤ 90).
Proof.
  intros Hlen.
  destruct (build_greedy id_of (build_frequency_map text) Hlen) as (root & Hb & Hg & Hw).
  { apply Forall_forall. intros [s f] Hin.
    by apply frequency_entries in Hin as (_ & _ & ?). }
  exists root. split; [done|].
  rewrite (sum_values_frequency text) in Hw.
  assert (is_leaf root = false) as Hleaf.
  { destruct (build_symbols id_of (build_frequency_map text)) as (root' & Hb' & Hs & _).
    - intros Hnil. rewrite Hnil in Hlen. simpl in Hlen. lia.
    - rewrite Hb in Hb'. simplify_eq. destruct root'. simpl in Hs. by subst. }
  intros k p Hget. rewrite generate_codes_spec in Hget.
  apply foldl_record_get in Hget as [?|(q & Hq & ->)]; [done|].
  simpl. unfold or0. rewrite decide_False by (by eapply leaf_paths_nonempty).
  apply leaf_paths_height in Hq.
  destruct (greedy_fib root Hg) as [Hfib _].
  pose proof (fib_mono _ _ Hq). split; [lia|].
  intros Hsmall. pose proof (greedy_height root Hg). lia.
Qed.

Lemma code_length_bound_witness :
  ∃ root,
    build_huffman_tree id_up (build_frequency_map abracadabra) = Ok (Some root)
    ∧ ∀ k p, dict_get (generate_codes (Some root)) k = Some p →
             (fib (length p) ≤ Z.of_nat (length abracadabra))%Z
             ∧ ((Z.of_nat (length abracadabra) < 2 ^ 63)%Z → length p ≤ 90).
Proof. apply (code_length_bound id_up abracadabra). simpl. lia. Defined.

(** ** Encoding and decoding *)

(** The length of the code of a symbol in a table (0 when it has none). *)
Definition code_length (codes : dict str str) (sym : str) : Z :=
  Z.of_nat (length (default [] (dict_get codes sym))).

(** The sum over a frequency table of frequency times code length. *)
Definition weighted_length (freq_map : dict str Z) (codes : dict str str) : Z :=
  foldr (λ sf acc, sf.2 * code_length codes sf.1 + acc)%Z 0%Z freq_map.

Definition sum_over {A} (g : A → Z) (l : list A) : Z := foldr (λ x acc, g x + acc)%Z 0%Z l.

Lemma sum_over_cons {A} (g : A → Z) x l : sum_over g (x :: l) = (g x + sum_over g l)%Z.
Proof. done. Qed.

Lemma sum_over_app {A} (g : A → Z) l k :
  sum_over g (l ++ k) = (sum_over g l + sum_over g k)%Z.
Proof. unfold sum_over. induction l as [|x l IH]; simpl; lia. Qed.

#[global] Instance sum_over_perm {A} (g : A → Z) : Proper ((≡ₚ) ==> (=)) (sum_over g).
Proof. intros l k Hperm. unfold sum_over. induction Hperm; simpl; lia. Qed.

Lemma sum_over_ext {A} (g h : A → Z) l :
  (∀ x, x ∈ l → g x = h x) → sum_over g l = sum_over h l.
Proof.
  unfold sum_over. induction l as [|x l IH]; intros Hext; simpl; [done|].
  rewrite IH, (Hext x); [done|left|]. intros y Hy. apply Hext. by right.
Qed.

Lemma sum_over_le {A} (g h : A → Z) l :
  (∀ x, x ∈ l → (g x ≤ h x)%Z) → (sum_over g l ≤ sum_over h l)%Z.
Proof.
  unfold sum_over. induction l as [|x l IH]; intros Hle; simpl; [done|].
  assert (g x ≤ h x)%Z by (apply Hle; left).
  assert (∀ y, y ∈ l → (g y ≤ h y)%Z) as Hl by (intros y Hy; apply Hle; by right).
  specialize (IH Hl). lia.
Qed.

Lemma sum_over_fmap {A B} (f : A → B) (g : B → Z) l :
  sum_over g (f <$> l) = sum_over (g ∘ f) l.
Proof.
  induction l as [|x l IH]; [done|].
  rewrite fmap_cons. unfold sum_over in *. cbn [foldr]. f_equal. exact IH.
Qed.

Lemma weighted_sum_count_step (g : str → Z) d c :
  sum_over (λ sf, sf.2 * g sf.1)%Z (count_step d c)
  = (sum_over (λ sf, sf.2 * g sf.1)%Z d + g c)%Z.
Proof.
  unfold count_step, sum_over. induction d as [|[k v] d IH]; simpl; [lia|].
  destruct (decide (k = c)) as [->|Hne]; simpl.
  - lia.
  - rewrite IH. lia.
Qed.

(** Summing over the characters of a text is summing over its frequency
    table, each symbol counted with its frequency. *)
Lemma weighted_sum_frequency (g : str → Z) text :
  sum_over (λ sf, sf.2 * g sf.1)%Z (build_frequency_map text) = sum_over g (chars text).
Proof.
  rewrite build_frequency_map_fold.
  assert (∀ cs d, sum_over (λ sf, sf.2 * g sf.1)%Z (foldl count_step d cs)
                  = (sum_over (λ sf, sf.2 * g sf.1)%Z d + sum_over g cs)%Z) as Hfold.
  { induction cs as [|c cs IH]; intros d; cbn [foldl].
    - change (sum_over g []) with 0%Z. lia.
    - rewrite IH, weighted_sum_count_step, sum_over_cons. lia. }
  rewrite Hfold. change (sum_over (λ sf : str * Z, (sf.2 * g sf.1)%Z) []) with 0%Z. lia.
Qed.

Lemma encode_chars_length codes cs : ∀ bits,
  encode_chars cs codes = Ok bits →
  Z.of_nat (length bits) = sum_over (code_length codes) cs.
Proof.
  induction cs as [|c cs IH]; intros bits Henc.
  { simpl in Henc. by simplify_eq. }
  apply encode_chars_cons in Henc as (p & bits' & Hget & Henc & ->).
  rewrite length_app, Nat2Z.inj_add, (IH _ Henc), sum_over_cons.
  unfold code_length at 2. by rewrite Hget.
Qed.

(** X6: the number of bits that [encode_text] returns is the sum, over the
    entries of the frequency table of the text, of the frequency times the
    length of the code of the symbol. *)
Theorem encoded_length (text : str) (codes : dict str str) (bits : str) :
  encode_text text codes = Ok bits →
  Z.of_nat (length bits) = weighted_length (build_frequency_map text) codes.
Proof.
  intros Henc. apply encode_chars_length in Henc. rewrite Henc.
  symmetry. apply (weighted_sum_frequency (code_length codes)).
Qed.

Lemma encoded_length_witness :
  Z.of_nat (length [c0; c1; c0; c1; c0; c1; c0; c1])
  = weighted_length (build_frequency_map aaaa) [([97%Z], [c0; c1]); ([98%Z], [c1])].
Proof.
  apply (encoded_length aaaa [([97%Z], [c0; c1]); ([98%Z], [c1])]). reflexivity.
Defined.

(** *** Packing the bits *)

(** X7: for a string of n characters '0' and '1', [bits_to_bytes] returns the
    padding (8 - n % 8) % 8 and (n + padding) / 8 bytes, each between 0 and
    255, whose bits are the string followed by the padding, all '0'. *)
Theorem bits_to_bytes_size (bitstring : str) :
  forallb is_bit bitstring = true →
  ∃ b padding,
    bits_to_bytes bitstring = Ok (b, padding)
    ∧ padding = ((8 - Z.of_nat (length bitstring) `mod` 8) `mod` 8)%Z
    ∧ (8 * Z.of_nat (length b) = Z.of_nat (length bitstring) + padding)%Z
    ∧ Forall (λ v, 0 ≤ v < 256)%Z b
    ∧ bytes_to_bits b = bitstring ++ replicate (Z.to_nat padding) c0.
Proof.
  intros Hbits.
  destruct (bits_to_bytes_spec bitstring Hbits) as (b & Hpack & Hunpack & Hrange).
  exists b, (padding_of bitstring). split; [done|]. split; [done|].
  split; [|done].
  pose proof (bytes_to_bits_length b) as Hlen.
  rewrite Hunpack, length_app, length_replicate in Hlen.
  pose proof (padding_of_range bitstring). lia.
Qed.

Lemma bits_to_bytes_size_witness :
  ∃ b padding,
    bits_to_bytes [c1; c0; c1] = Ok (b, padding)
    ∧ padding = ((8 - Z.of_nat (length [c1; c0; c1]) `mod` 8) `mod` 8)%Z
    ∧ (8 * Z.of_nat (length b) = Z.of_nat (length [c1; c0; c1]) + padding)%Z
    ∧ Forall (λ v, 0 ≤ v < 256)%Z b
    ∧ bytes_to_bits b = [c1; c0; c1] ++ replicate (Z.to_nat padding) c0.
Proof. apply (bits_to_bytes_size [c1; c0; c1]). reflexivity. Defined.

Lemma format_08b_bits v : forallb is_bit (format_08b v) = true.
Proof.
  unfold format_08b. cbn [fmap list_fmap].
  by destruct (Z.testbit v 7), (Z.testbit v 6), (Z.testbit v 5), (Z.testbit v 4),
              (Z.testbit v 3), (Z.testbit v 2), (Z.testbit v 1), (Z.testbit v 0).
Qed.

Lemma bytes_to_bits_bits b : forallb is_bit (bytes_to_bits b) = true.
Proof.
  induction b as [|v b IH]; [done|].
  rewrite bytes_to_bits_cons. apply forallb_app_true. split; [apply format_08b_bits|done].
Qed.

(** The eight bits of a byte are its binary digits. *)
Lemma int_base2_format_08b v : (0 ≤ v < 256)%Z → int_base2 (format_08b v) = Ok v.
Proof.
  intros Hv.
  assert (forallb (λ v, match int_base2 (format_08b v) with
                        | Ok w => (w =? v)%Z
                        | _ => false
                        end) (seqZ 0 256) = true) as Hall by (by vm_compute).
  rewrite forallb_forall in Hall. specialize (Hall v).
  destruct (int_base2 (format_08b v)) as [w| |].
  - f_equal. apply Z.eqb_eq, Hall, list_elem_of_In, elem_of_seqZ. lia.
  - discriminate Hall. apply list_elem_of_In, elem_of_seqZ. lia.
  - discriminate Hall. apply list_elem_of_In, elem_of_seqZ. lia.
Qed.

Lemma bytes_to_bits_inj b b' :
  Forall (λ v, 0 ≤ v < 256)%Z b → Forall (λ v, 0 ≤ v < 256)%Z b' →
  bytes_to_bits b = bytes_to_bits b' → b = b'.
Proof.
  intros Hb. revert b'. induction Hb as [|v b Hv Hb IH]; intros b' Hb' Heq.
  - destruct b' as [|w b']; [done|]. by rewrite bytes_to_bits_cons in Heq.
  - destruct Hb' as [|w b' Hw Hb']; [by rewrite bytes_to_bits_cons in Heq|].
    rewrite !bytes_to_bits_cons in Heq.
    apply app_inj_1 in Heq as [Hvw Heq]; [|done].
    f_equal; [|by apply IH].
    pose proof (int_base2_format_08b v Hv) as H1.
    rewrite Hvw, (int_base2_format_08b w Hw) in H1. by simplify_eq.
Qed.

(** X8: packing the bits of bytes gives the bytes back, with no padding:
    [bits_to_bytes (bytes_to_bits b)] is [(b, 0)] for every sequence of bytes. *)
Theorem bytes_to_bits_round_trip (b : bytes) :
  Forall (λ v, 0 ≤ v < 256)%Z b →
  bits_to_bytes (bytes_to_bits b) = Ok (b, 0%Z).
Proof.
  intros Hb.
  destruct (bits_to_bytes_spec (bytes_to_bits b) (bytes_to_bits_bits b))
    as (b' & Hpack & Hunpack & Hrange).
  assert (padding_of (bytes_to_bits b) = 0%Z) as Hpad.
  { unfold padding_of. rewrite bytes_to_bits_length, Nat2Z.inj_mul.
    rewrite (Z.mul_comm (Z.of_nat 8)), Z.mod_mul by lia. done. }
  rewrite Hpad in *. simpl in Hunpack. rewrite (right_id_L [] (++)) in Hunpack.
  rewrite Hpack. do 2 f_equal. by apply bytes_to_bits_inj.
Qed.

Lemma bytes_to_bits_round_trip_witness :
  bits_to_bytes (bytes_to_bits [0; 7; 255]%Z) = Ok ([0; 7; 255]%Z, 0%Z).
Proof.
  apply (bytes_to_bits_round_trip [0; 7; 255]%Z).
  repeat constructor; lia.
Defined.

(** *** Decoding with any table *)

(** X9: [decode_bits_to_text] inverts [encode_text] for every prefix code, not
    only for the tables that [generate_codes] makes: when the table has
    distinct symbols and non-empty codes of '0' and '1' none of which is a
    prefix of another, and every character of the text has a code, the text is
    encoded, and decoding the bits, with the padding that [bits_to_bytes] adds
    and reports, gives the text. *)
Theorem prefix_code_round_trip (codes : dict str str) (text : str) :
  prefix_code codes →
  (∀ c, c ∈ chars text → c ∈ dict_keys codes) →
  ∃ bits b padding,
    encode_text text codes = Ok bits
    ∧ bits_to_bytes bits = Ok (b, padding)
    ∧ decode_bits_to_text (bytes_to_bits b) (codes_json codes) (JInt padding) = Ok text.
Proof.
  intros Hpc Hkeys.
  destruct (encode_chars_ok codes (chars text) Hpc) as (bits & Henc & Hbits & _).
  { apply Forall_forall. exact Hkeys. }
  destruct (bits_to_bytes_spec bits Hbits) as (b & Hpack & Hunpack & _).
  exists bits, b, (padding_of bits). split; [done|]. split; [done|].
  rewrite Hunpack, decode_bits_padded.
  pose proof (decode_loop_encode _ Hpc (chars text) bits [] [] Henc) as Hloop.
  rewrite (right_id_L [] (++)) in Hloop. rewrite Hloop. simpl.
  by rewrite mjoin_chars.
Qed.

Definition ab_codes : dict str str := [([97%Z], [c0]); ([98%Z], [c1; c0]); ([99%Z], [c1; c1])].

Lemma ab_codes_prefix_code : prefix_code ab_codes.
Proof.
  split.
  - unfold ab_codes. simpl.
    repeat (apply NoDup_cons_2;
            [rewrite ?elem_of_cons, elem_of_nil; intros H; decompose [or] H;
             (discriminate || contradiction)|]).
    apply NoDup_nil_2.
  - intros a p. unfold ab_codes. rewrite !elem_of_cons, elem_of_nil.
    intros H; decompose [or] H; by simplify_eq.
  - intros a p. unfold ab_codes. rewrite !elem_of_cons, elem_of_nil.
    intros H; decompose [or] H; by simplify_eq.
  - intros a p b q. unfold ab_codes. rewrite !elem_of_cons, !elem_of_nil.
    intros H H'; decompose [or] H; decompose [or] H'; simplify_eq; try done;
      intros [k Hk]; simplify_eq/=.
Qed.

Lemma prefix_code_round_trip_witness :
  ∃ bits b padding,
    encode_text [97; 98; 99; 97]%Z ab_codes = Ok bits
    ∧ bits_to_bytes bits = Ok (b, padding)
    ∧ decode_bits_to_text (bytes_to_bits b) (codes_json ab_codes) (JInt padding)
      = Ok [97; 98; 99; 97]%Z.
Proof.
  apply (prefix_code_round_trip ab_codes [97; 98; 99; 97]%Z).
  - apply ab_codes_prefix_code.
  - intros c. unfold chars, dict_keys, ab_codes. simpl.
    rewrite !elem_of_cons, !elem_of_nil. intros H; decompose [or] H; subst; auto 6.
Defined.

(** What the loop of [decode_bits_to_text] has emitted: each symbol for a run
    of bits that the reverse map sends to it. *)
Lemma decode_loop_segments rev : ∀ bits cur out cur' out',
  decode_loop rev bits cur out = (cur', out') →
  ∃ segs : list (str * str),
    Forall (λ sc, dict_get rev sc.2 = Some sc.1) segs
    ∧ out' = out ++ segs.*1
    ∧ cur ++ bits = mjoin segs.*2 ++ cur'.
Proof.
  induction bits as [|bit bits IH]; intros cur out cur' out' Hloop; simpl in Hloop.
  { simplify_eq. exists []. split; [constructor|]. simpl.
    by rewrite !(right_id_L [] (++)). }
  destruct (dict_get rev (cur ++ [bit])) as [ch|] eqn:Hget.
  - apply IH in Hloop as (segs & Hsegs & -> & Hbits).
    exists ((ch, cur ++ [bit]) :: segs). split; [by constructor|].
    split; [by rewrite <-(assoc_L (++))|].
    simpl in *. rewrite Hbits. by rewrite <-!(assoc_L (++)).
  - apply IH in Hloop as (segs & Hsegs & -> & Hbits).
    exists segs. split; [done|]. split; [done|].
    by rewrite <-Hbits, <-(assoc_L (++)).
Qed.

Lemma chars_mjoin (syms : list str) :
  Forall (λ k, length k = 1) syms → chars (mjoin syms) = syms.
Proof.
  induction 1 as [|k syms Hk _ IH]; [done|].
  destruct k as [|c [|??]]; try done. simpl. by rewrite IH.
Qed.

(** X10: a text that [decode_bits_to_text] returns is never wrong for the
    table: when the symbols of the table are distinct single characters and its
    codes are distinct, and the bits (with no padding) are decoded to a text
    with no error, then [encode_text] on that text and that table gives exactly
    those bits. *)
Theorem decode_is_sound (codes : dict str str) (bits text : str) :
  NoDup (dict_keys codes) → NoDup codes.*2 →
  (∀ k, k ∈ dict_keys codes → length k = 1) →
  decode_bits_to_text bits (codes_json codes) (JInt 0) = Ok text →
  encode_text text codes = Ok bits.
Proof.
  intros Hkeys Hcodes Hone. unfold decode_bits_to_text, dict_keys in *.
  unfold remove_padding. cbn [truthy Z.eqb negb]. rewrite Ok_bind, reverse_map_codes, Ok_bind.
  destruct (decode_loop (rev_of codes) bits [] []) as [cur out] eqn:Hloop.
  case_decide as Hcur; [done|]. intros [= <-].
  assert (cur = []) as -> by (by destruct (decide (cur = []))).
  apply decode_loop_segments in Hloop as (segs & Hsegs & -> & Hbits).
  simpl in Hbits. rewrite (right_id_L [] (++)) in Hbits. subst bits. simpl.
  assert (∀ a p, dict_get (rev_of codes) p = Some a ↔ (a, p) ∈ codes) as Hrev.
  { apply rev_of_get. intros a p b q Ha Hb ->.
    apply list_elem_of_lookup in Ha as [i Hi]. apply list_elem_of_lookup in Hb as [j Hj].
    assert (i = j) as ->; [|by simplify_eq].
    apply (NoDup_lookup codes.*2 i j q); [done|..]; rewrite list_lookup_fmap.
    - by rewrite Hi.
    - by rewrite Hj. }
  assert (Forall (λ sc, (sc.1, sc.2) ∈ codes) segs) as Hin.
  { eapply Forall_impl; [exact Hsegs|]. intros [a p] ?. by apply Hrev. }
  unfold encode_text. rewrite chars_mjoin.
  2:{ apply Forall_fmap. eapply Forall_impl; [exact Hin|]. intros [a p] Hap. simpl.
      apply Hone. apply list_elem_of_fmap. by exists (a, p). }
  clear Hsegs. induction Hin as [|[a p] segs Hap _ IH]; [done|].
  rewrite !fmap_cons. cbn [encode_chars fst snd] in *. unfold dict_getitem.
  rewrite (dict_get_NoDup codes a p Hkeys Hap), Ok_bind, IH, Ok_bind. done.
Qed.

Lemma decode_is_sound_witness :
  encode_text [97; 98; 99; 97]%Z ab_codes = Ok [c0; c1; c0; c1; c1; c0].
Proof.
  apply (decode_is_sound ab_codes [c0; c1; c0; c1; c1; c0] [97; 98; 99; 97]%Z).
  - apply ab_codes_prefix_code.
  - unfold ab_codes. simpl.
    repeat (apply NoDup_cons_2;
            [rewrite ?elem_of_cons, elem_of_nil; intros H; decompose [or] H;
             (discriminate || contradiction)|]).
    apply NoDup_nil_2.
  - intros k. unfold dict_keys, ab_codes. simpl. rewrite !elem_of_cons, elem_of_nil.
    intros H; decompose [or] H; subst; (reflexivity || contradiction).
  - reflexivity.
Defined.

(** ** The container, for any table and any padding *)

Lemma digits_value_snoc ds d : digits_value (ds ++ [d]) = (10 * digits_value ds + (d - 48))%Z.
Proof. unfold digits_value. by rewrite foldl_app. Qed.

Lemma dec_digits_S fuel n acc :
  dec_digits (S fuel) n acc =
    if (n / 10 =? 0)%Z then (48 + n `mod` 10)%Z :: acc
    else dec_digits fuel (n / 10)%Z ((48 + n `mod` 10)%Z :: acc).
Proof. done. Qed.

(** The decimal digits of a natural number. *)
Lemma dec_digits_spec fuel : ∀ m acc,
  (0 ≤ m < 2 ^ Z.of_nat (S fuel))%Z →
  ∃ ds, dec_digits (S fuel) m acc = ds ++ acc
        ∧ Forall (λ d, is_digit d = true) ds
        ∧ digits_value ds = m
        ∧ (m = 0%Z → ds = [48%Z])
        ∧ (m ≠ 0%Z → ∃ d ds', ds = d :: ds' ∧ d ≠ 48%Z).
Proof.
  induction fuel as [|fuel IH]; intros m acc Hm.
  - assert (m = 0 ∨ m = 1)%Z as [-> | ->] by (change (2 ^ Z.of_nat 1)%Z with 2%Z in Hm; lia).
    + exists [48%Z]. repeat split; try done. by repeat constructor.
    + exists [49%Z]. repeat split; try done; [by repeat constructor|].
      intros _. by exists 49%Z, [].
  - rewrite (dec_digits_S (S fuel)).
    pose proof (Z.div_mod m 10) as Hdm. pose proof (Z.mod_pos_bound m 10) as Hmod.
    destruct (m / 10 =? 0)%Z eqn:Hq.
    + apply Z.eqb_eq in Hq. exists [(48 + m `mod` 10)%Z].
      split; [done|]. split.
      { repeat constructor. unfold is_digit. lia. }
      split; [unfold digits_value; simpl; lia|]. split.
      * intros ->. done.
      * intros Hne. eexists _, []. split; [done|]. lia.
    + apply Z.eqb_neq in Hq.
      assert (0 ≤ m / 10 < 2 ^ Z.of_nat (S fuel))%Z as Hq'.
      { rewrite (Nat2Z.inj_succ (S fuel)), Z.pow_succ_r in Hm by lia.
        split; [apply Z.div_pos; lia|].
        apply Z.div_lt_upper_bound; lia. }
      destruct (IH (m / 10)%Z ((48 + m `mod` 10)%Z :: acc) Hq')
        as (ds & Heq & Hds & Hval & _ & Hhead).
      destruct (Hhead Hq) as (d & ds' & -> & Hd).
      exists ((d :: ds') ++ [(48 + m `mod` 10)%Z]). split.
      { rewrite Heq. by rewrite <-(assoc_L (++)). }
      split.
      { apply Forall_app. split; [done|]. repeat constructor. unfold is_digit. lia. }
      split; [rewrite digits_value_snoc, Hval; lia|]. split.
      * intros ->. done.
      * intros _. by eexists _, _.
Qed.

Lemma digits_spec m :
  (0 ≤ m)%Z →
  ∃ ds, dec_digits (S (Z.to_nat (Z.log2 m))) m [] = ds
        ∧ Forall (λ d, is_digit d = true) ds
        ∧ digits_value ds = m
        ∧ (m = 0%Z → ds = [48%Z])
        ∧ (m ≠ 0%Z → ∃ d ds', ds = d :: ds' ∧ d ≠ 48%Z).
Proof.
  intros Hm.
  destruct (dec_digits_spec (Z.to_nat (Z.log2 m)) m []) as (ds & Heq & H).
  - pose proof (Z.log2_nonneg m).
    rewrite Nat2Z.inj_succ, Z2Nat.id by done.
    destruct (decide (m = 0%Z)) as [->|Hne]; [done|].
    pose proof (Z.log2_spec m). lia.
  - exists ds. by rewrite Heq, (right_id_L [] (++)).
Qed.

Lemma take_digits_app ds c rest :
  Forall (λ d, is_digit d = true) ds → is_digit c = false →
  take_digits (ds ++ c :: rest) = (ds, c :: rest).
Proof.
  intros Hds Hc. induction Hds as [|d ds Hd _ IH]; simpl.
  - by rewrite Hc.
  - by rewrite Hd, IH.
Qed.

(** [parse_number] reads the digits of an integer, with its sign. *)
Lemma parse_number_int (neg : bool) ds c rest :
  Forall (λ d, is_digit d = true) ds →
  (ds = [48%Z] ∨ ∃ d ds', ds = d :: ds' ∧ d ≠ 48%Z) →
  c = 44%Z ∨ c = 125%Z →
  parse_number ((if neg then [45%Z] else []) ++ ds ++ c :: rest)
  = Some (JInt (if neg then - digits_value ds else digits_value ds)%Z, c :: rest).
Proof.
  intros Hds Hshape Hc.
  assert (is_digit c = false) as Hcd by (by destruct Hc as [-> | ->]).
  destruct Hshape as [->|(d & ds' & -> & Hd)].
  { destruct neg, Hc as [-> | ->]; reflexivity. }
  apply Forall_cons in Hds as [Hdd Hds'].
  apply Z.eqb_neq in Hd.
  assert ((d =? 45)%Z = false) as Hd45 by (unfold is_digit in Hdd; lia).
  pose proof (take_digits_app ds' c rest Hds' Hcd) as Htake.
  unfold parse_number.
  destruct neg; cbn [app].
  - rewrite Z.eqb_refl. rewrite Hd, Hdd, Htake. cbn [mbind option_bind].
    destruct Hc as [-> | ->]; reflexivity.
  - rewrite Hd45. rewrite Hd, Hdd, Htake. cbn [mbind option_bind].
    destruct Hc as [-> | ->]; reflexivity.
Qed.

(** The text of an integer is read back as the integer. *)
Lemma scans_int n : scans 1 (str_of_int n) (JInt n).
Proof.
  assert (∃ (neg : bool) ds,
    str_of_int n = (if neg then [45%Z] else []) ++ ds
    ∧ Forall (λ d, is_digit d = true) ds
    ∧ (ds = [48%Z] ∨ ∃ d ds', ds = d :: ds' ∧ d ≠ 48%Z)
    ∧ n = (if (neg : bool) then - digits_value ds else digits_value ds)%Z)
    as (neg & ds & Hstr & Hds & Hshape & Hn).
  { unfold str_of_int. destruct (n <? 0)%Z eqn:Hneg.
    - destruct (digits_spec (- n)) as (ds & Heq & Hds & Hval & _ & Hhead); [lia|].
      exists true, ds. rewrite Heq. split; [done|]. split; [done|].
      split; [right; apply Hhead; lia|lia].
    - destruct (digits_spec n) as (ds & Heq & Hds & Hval & Hzero & Hhead); [lia|].
      exists false, ds. rewrite Heq. split; [done|]. split; [done|].
      split; [|done].
      destruct (decide (n = 0%Z)) as [?|?]; [left|right]; auto. }
  assert (∃ d ds', ds = d :: ds' ∧ is_digit d = true) as (d & ds' & Hcons & Hd).
  { destruct Hshape as [->|(d & ds' & -> & _)]; [by eexists _, _|].
    apply Forall_cons in Hds as [? _]. by eexists _, _. }
  split.
  - rewrite Hstr. destruct neg; [by eexists _, _|].
    exists d, ds'. split; [by rewrite Hcons|].
    unfold is_digit, is_ws in *. lia.
  - intros fuel c rest Hfuel Hc. destruct fuel as [|fuel]; [lia|].
    pose proof (parse_number_int neg ds c rest Hds Hshape Hc) as Hparse.
    rewrite <-Hn in Hparse. rewrite Hstr, <-(assoc_L (++)).
    set (s := (if neg then [45%Z] else []) ++ ds ++ c :: rest) in *.
    assert (∃ h t, s = h :: t ∧ (h = 45%Z ∨ is_digit h = true)) as (h & t & Hs & Hh).
    { unfold s. destruct neg; [eexists _, _; split; [done|by left]|].
      rewrite Hcons. eexists _, _. split; [done|by right]. }
    rewrite scan_once_unfold. rewrite Hs at 1.
    assert ((h =? 34)%Z = false) as -> by (unfold is_digit in Hh; lia).
    assert ((h =? 123)%Z = false) as -> by (unfold is_digit in Hh; lia).
    assert ((h =? 91)%Z = false) as -> by (unfold is_digit in Hh; lia).
    assert (∀ p ps, (p =? h)%Z = false → strip_prefix (p :: ps) s = None) as Hstrip.
    { intros p ps Hp. rewrite Hs. simpl. by rewrite Hp. }
    rewrite !Hstrip by (unfold is_digit in Hh; lia).
    by rewrite Hparse.
Qed.

Lemma json_loads_dumps_header_int codes padding :
  valid_codes codes → NoDup codes.*1 →
  json_loads (dumps_header codes padding) = Ok (header_json codes padding).
Proof.
  intros Hvalid Hnd. unfold json_loads.
  assert (∀ fuel, length codes + 5 < fuel →
    scan_once fuel (skip_ws (dumps_header codes padding))
    = Some (header_json codes padding, [])) as Hscan.
  { intros fuel Hfuel. rewrite dumps_header_entries.
    rewrite (skip_ws_nonws 123) by done.
    rewrite (scan_once_object (length codes + 3)); [done| | |simpl; lia].
    - split; [by repeat constructor|]. split.
      + eexists 123%Z, _. split; [reflexivity|done].
      + intros fuel' c rest Hfuel' _. apply scan_once_codes; [done..|lia].
    - constructor; [|done]. split; [by repeat constructor|].
      destruct (scans_int padding) as [Hstart Hscan]. split; [done|].
      intros fuel' c rest Hfuel' Hc. apply Hscan; [lia|done]. }
  pose proof (dumps_codes_length codes) as Hlen.
  rewrite Hscan.
  - unfold dumps_header. done.
  - unfold dumps_header. rewrite !length_app. cbn [length]. lia.
Qed.

(** X11: what [write_huff_file] writes, [read_huff_file] reads back.  For a
    table with distinct symbols, any bytes as payload and any integer as
    padding, when the header is encoded and is shorter than 2^32 bytes, the
    file is four bytes, the header and the payload, and reading it gives the
    header, with the same table and the same padding, and the same payload. *)
Theorem container_round_trip (codes : dict str str) (payload : bytes) (padding : Z)
    (header_bytes : bytes) :
  NoDup (dict_keys codes) → valid_codes codes →
  str_encode (dumps_header codes padding) = Ok header_bytes →
  (Z.of_nat (length header_bytes) < 2 ^ 32)%Z →
  ∃ data,
    write_huff_file codes payload padding = Ok data
    ∧ length data = 4 + length header_bytes + length payload
    ∧ read_huff_file data = Ok (header_json codes padding, payload).
Proof.
  intros Hnd Hvalid Henc Hlen. unfold write_huff_file. rewrite Henc, Ok_bind.
  destruct (int_to_bytes4_spec (Z.of_nat (length header_bytes)))
    as (len_bytes & -> & Hfour & Hint); [lia|].
  rewrite Ok_bind. exists (len_bytes ++ header_bytes ++ payload).
  split; [done|]. split; [rewrite !length_app; lia|].
  unfold str_encode in Henc.
  destruct (utf8_encode (dumps_header codes padding)) as [hb|] eqn:Hutf; [|done].
  simplify_eq.
  apply (read_huff_file_container _ _ _ (dumps_header codes padding)); try done.
  - by apply utf8_roundtrip.
  - by apply json_loads_dumps_header_int.
Qed.

Lemma container_round_trip_witness :
  ∃ data,
    write_huff_file ab_codes [1; 2; 3]%Z (-12) = Ok data
    ∧ length data = 4 + length (default [] (utf8_encode (dumps_header ab_codes (-12))))
                    + length [1; 2; 3]%Z
    ∧ read_huff_file data = Ok (header_json ab_codes (-12), [1; 2; 3]%Z).
Proof.
  apply (container_round_trip ab_codes [1; 2; 3]%Z (-12)
           (default [] (utf8_encode (dumps_header ab_codes (-12))))).
  - apply ab_codes_prefix_code.
  - unfold valid_codes, ab_codes. repeat constructor; done.
  - reflexivity.
  - reflexivity.
Defined.

(** ** The greedy merge is optimal

    A code for weighted symbols is kept as the list of the weights with the
    lengths of their codes.  Its cost is the sum of weight times length; a
    prefix code satisfies Kraft's inequality, the sum of 2^-length is at most
    1.  Merging the two lightest symbols costs their weights and leaves a
    problem of the same kind: from any code for the symbols a code for the
    merged symbols is made that costs at least that much less. *)

Definition cost (wd : list (Z * nat)) : Z := sum_over (λ x, x.1 * Z.of_nat x.2)%Z wd.

Definition kraft_sum (M : nat) (ds : list nat) : Z :=
  sum_over (λ d, 2 ^ Z.of_nat (M - d))%Z ds.

(** Kraft's inequality, scaled by 2^M, for lengths of at most M. *)
Definition kraft_ok (M : nat) (ds : list nat) : Prop :=
  Forall (λ d, d ≤ M) ds ∧ (kraft_sum M ds ≤ 2 ^ Z.of_nat M)%Z.

#[global] Instance kraft_ok_perm M : Proper ((≡ₚ) ==> iff) (kraft_ok M).
Proof.
  intros ds ds' Hperm. unfold kraft_ok, kraft_sum. by rewrite Hperm.
Qed.

Lemma cost_cons w d wd : cost ((w, d) :: wd) = (w * Z.of_nat d + cost wd)%Z.
Proof. done. Qed.

Lemma kraft_sum_cons M d ds :
  kraft_sum M (d :: ds) = (2 ^ Z.of_nat (M - d) + kraft_sum M ds)%Z.
Proof. done. Qed.

Lemma cost_nonneg wd : Forall (λ w, 0 ≤ w)%Z wd.*1 → (0 ≤ cost wd)%Z.
Proof.
  induction wd as [|[w d] wd IH]; intros Hw; [done|].
  apply Forall_cons in Hw as [Hw0 Hw]. rewrite cost_cons. specialize (IH Hw).
  simpl in Hw0. nia.
Qed.

#[global] Instance cost_perm : Proper ((≡ₚ) ==> (=)) cost.
Proof. intros l k Hperm. unfold cost. by rewrite Hperm. Qed.

(** The symbol at the head takes the greatest length, by exchanging its
    length with the length of a symbol that is at least as heavy. *)
Lemma lift_head a : ∀ (tl : list (Z * nat)) da,
  Forall (λ w, a ≤ w)%Z tl.*1 →
  ∃ da' tl',
    tl'.*1 = tl.*1
    ∧ da' :: tl'.*2 ≡ₚ da :: tl.*2
    ∧ Forall (λ d, d ≤ da') tl'.*2
    ∧ (a * Z.of_nat da' + cost tl' ≤ a * Z.of_nat da + cost tl)%Z.
Proof.
  induction tl as [|[x dx] tl IH]; intros da Hw.
  { exists da, []. split; [done|]. split; [done|]. split; [constructor|lia]. }
  rewrite fmap_cons in Hw. apply Forall_cons in Hw as [Hx Hw]. simpl in Hx.
  destruct (IH da Hw) as (da1 & tl1 & Hw1 & Hp & Hle & Hc).
  destruct (decide (dx ≤ da1)) as [Hd|Hd].
  - exists da1, ((x, dx) :: tl1). rewrite !fmap_cons. cbn [fst snd].
    split; [by f_equal|]. split.
    { rewrite (Permutation_swap dx da1), Hp. apply Permutation_swap. }
    split; [by constructor|]. rewrite !cost_cons. lia.
  - exists dx, ((x, da1) :: tl1). rewrite !fmap_cons. cbn [fst snd].
    split; [by f_equal|]. split.
    { rewrite Hp. apply Permutation_swap. }
    split.
    { constructor; [lia|]. eapply Forall_impl; [done|]. intros d ?. simpl in *. lia. }
    rewrite !cost_cons. nia.
Qed.

(** Lengths of at most [D] are counted in units of 2^(M - D). *)
Lemma kraft_sum_scale M D ds :
  D ≤ M → Forall (λ d, d ≤ D) ds →
  kraft_sum M ds = (2 ^ Z.of_nat (M - D) * kraft_sum D ds)%Z.
Proof.
  intros HD. induction 1 as [|d ds Hd _ IH].
  { unfold kraft_sum, sum_over. simpl. lia. }
  rewrite !kraft_sum_cons, IH.
  replace (Z.of_nat (M - d)) with (Z.of_nat (M - D) + Z.of_nat (D - d))%Z by lia.
  rewrite Z.pow_add_r by lia. lia.
Qed.

Lemma kraft_sum_nonneg M ds : (0 ≤ kraft_sum M ds)%Z.
Proof.
  induction ds as [|d ds IH]; [done|]. rewrite kraft_sum_cons.
  pose proof (Z.pow_pos_nonneg 2 (Z.of_nat (M - d))). lia.
Qed.

(** When one symbol alone has the greatest length, its code can be cut to
    the next length. *)
Lemma kraft_lower M da D ds :
  D ≤ da → Forall (λ d, d ≤ D) ds →
  kraft_ok M (da :: D :: ds) → kraft_ok M (D :: D :: ds) ∧ 1 ≤ D.
Proof.
  intros HD Hds [Hall Hsum].
  apply Forall_cons in Hall as [Hda Hall]. apply Forall_cons in Hall as [HDM Hall].
  assert (Forall (λ d, d ≤ D) (D :: ds)) as HDs by (by constructor).
  rewrite kraft_sum_cons, (kraft_sum_scale M D (D :: ds)) in Hsum by done.
  pose proof (Z.pow_pos_nonneg 2 (Z.of_nat (M - da))) as Hpos.
  pose proof (Z.pow_pos_nonneg 2 (Z.of_nat (M - D))) as Hu.
  assert (2 ^ Z.of_nat M = 2 ^ Z.of_nat (M - D) * 2 ^ Z.of_nat D)%Z as HM.
  { rewrite <-Z.pow_add_r by lia. f_equal. lia. }
  pose proof (kraft_sum_nonneg D ds) as Hnn.
  assert (kraft_sum D (D :: ds) = 1 + kraft_sum D ds)%Z as HK.
  { rewrite kraft_sum_cons, Nat.sub_diag. done. }
  assert (kraft_sum D (D :: ds) + 1 ≤ 2 ^ Z.of_nat D)%Z as Hlt.
  { rewrite HM in Hsum. nia. }
  split.
  - split; [by repeat constructor|].
    rewrite kraft_sum_cons, (kraft_sum_scale M D (D :: ds)), HM by done. nia.
  - destruct D as [|D]; [|lia]. change (2 ^ Z.of_nat 0)%Z with 1%Z in Hlt. lia.
Qed.

(** Merging the two lightest symbols: from a code for all the symbols, a code
    for the others and the merged symbol whose cost is less by the weight of
    the merged symbol at least. *)
Lemma exchange M a b da db (rest : list (Z * nat)) :
  (0 ≤ a)%Z → (a ≤ b)%Z → Forall (λ w, b ≤ w)%Z rest.*1 →
  kraft_ok M (da :: db :: rest.*2) →
  ∃ d' rest',
    rest'.*1 = rest.*1
    ∧ kraft_ok M (d' :: rest'.*2)
    ∧ (cost ((a + b, d') :: rest') + (a + b) ≤ cost ((a, da) :: (b, db) :: rest))%Z.
Proof.
  intros Ha Hab Hrest Hk.
  destruct (lift_head a ((b, db) :: rest) da) as (da1 & tl1 & Hw1 & Hp1 & Hle1 & Hc1).
  { rewrite fmap_cons. constructor; [done|].
    eapply Forall_impl; [done|]. intros w ?. simpl in *. lia. }
  destruct tl1 as [|[b' db1] rest1]; [done|].
  rewrite !fmap_cons in Hw1. rewrite !fmap_cons in Hp1. rewrite fmap_cons in Hle1.
  cbn [fst snd] in *. injection Hw1 as -> Hw1.
  destruct (lift_head b rest1 db1) as (db2 & rest2 & Hw2 & Hp2 & Hle2 & Hc2).
  { by rewrite Hw1. }
  apply Forall_cons in Hle1 as [Hdb1 Hle1].
  assert (db2 ≤ da1) as Hdb2.
  { assert (db2 ∈ db1 :: rest1.*2) as Hin by (rewrite <-Hp2; left).
    apply elem_of_cons in Hin as [->|Hin]; [done|].
    rewrite Forall_forall in Hle1. by apply Hle1. }
  assert (kraft_ok M (da1 :: db2 :: rest2.*2)) as Hk2.
  { rewrite Hp2, Hp1. done. }
  destruct (kraft_lower M da1 db2 rest2.*2 Hdb2 Hle2 Hk2) as [[Hall Hsum] Hpos].
  exists (db2 - 1), rest2. split; [by rewrite Hw2|]. split.
  - apply Forall_cons in Hall as [HdM Hall]. apply Forall_cons in Hall as [_ Hall].
    split; [constructor; [lia|done]|].
    rewrite !kraft_sum_cons in *.
    replace (Z.of_nat (M - (db2 - 1))) with (Z.succ (Z.of_nat (M - db2))) by lia.
    rewrite Z.pow_succ_r by lia. lia.
  - rewrite !cost_cons in *.
    replace (Z.of_nat (db2 - 1)) with (Z.of_nat db2 - 1)%Z by lia.
    assert (a * Z.of_nat db2 ≤ a * Z.of_nat da1)%Z by nia. lia.
Qed.

(** Taking an entry with a given weight out of a code. *)
Lemma weights_cons_inv (wd : list (Z * nat)) w ws :
  wd.*1 ≡ₚ w :: ws → ∃ d rest, wd ≡ₚ (w, d) :: rest ∧ rest.*1 ≡ₚ ws.
Proof.
  intros Hperm.
  assert (w ∈ wd.*1) as Hin by (rewrite Hperm; left).
  apply list_elem_of_fmap in Hin as ([w' d] & -> & Hin).
  apply elem_of_Permutation in Hin as [rest Hrest].
  exists d, rest. split; [done|].
  rewrite Hrest, fmap_cons in Hperm. by apply Permutation_cons_inv in Hperm.
Qed.

(** The same, on the forest of [build_huffman_tree]: when the two lightest
    trees are merged, a code for the weights of the forest gives a code for
    the weights of the new forest. *)
Lemma exchange_weights M (wd : list (Z * nat)) a b ws :
  (0 ≤ a)%Z → (a ≤ b)%Z → Forall (λ w, b ≤ w)%Z ws →
  wd.*1 ≡ₚ a :: b :: ws → kraft_ok M wd.*2 →
  ∃ wd', wd'.*1 ≡ₚ (a + b)%Z :: ws ∧ kraft_ok M wd'.*2
         ∧ (cost wd' + (a + b) ≤ cost wd)%Z.
Proof.
  intros Ha Hab Hws Hperm Hk.
  destruct (weights_cons_inv wd a (b :: ws) Hperm) as (da & wd1 & Hwd & Hperm1).
  destruct (weights_cons_inv wd1 b ws Hperm1) as (db & rest & Hwd1 & Hperm2).
  assert (wd ≡ₚ (a, da) :: (b, db) :: rest) as Hwd' by (by rewrite Hwd, Hwd1).
  destruct (exchange M a b da db rest Ha Hab) as (d' & rest' & Hw' & Hk' & Hc').
  - by rewrite Hperm2.
  - rewrite Hwd' in Hk. done.
  - exists ((a + b, d')%Z :: rest'). rewrite !fmap_cons. cbn [fst snd].
    split; [by rewrite Hw', Hperm2|]. split; [done|]. by rewrite Hwd'.
Qed.

(** *** Kraft's inequality for prefix-free codes *)

(** Distinct codes none of which is a prefix of another. *)
Definition prefix_free (cs : list str) : Prop :=
  NoDup cs ∧ ∀ p q, p ∈ cs → q ∈ cs → p `prefix_of` q → p = q.

(** The rest of a code that starts with [c]. *)
Definition strip (c : Z) (p : str) : option str :=
  match p with
  | x :: t => if decide (x = c) then Some t else None
  | [] => None
  end.

Lemma strip_Some c p t : strip c p = Some t ↔ p = c :: t.
Proof.
  destruct p as [|x p]; simpl; [done|].
  case_decide; split; intros; simplify_eq; done.
Qed.

Lemma kraft_cons M p cs : kraft M (p :: cs) = (2 ^ Z.of_nat (M - length p) + kraft M cs)%Z.
Proof. done. Qed.

Lemma kraft_lengths M cs : kraft_sum M (length <$> cs) = kraft M cs.
Proof.
  induction cs as [|p cs IH]; [done|].
  rewrite fmap_cons, kraft_sum_cons, kraft_cons. by rewrite IH.
Qed.

Lemma elem_of_strip c (cs : list str) t : t ∈ omap (strip c) cs ↔ c :: t ∈ cs.
Proof.
  rewrite list_elem_of_omap. split.
  - intros (p & Hp & ->%strip_Some). done.
  - intros Hin. exists (c :: t). split; [done|]. by apply strip_Some.
Qed.

Lemma prefix_free_strip c (cs : list str) : prefix_free cs → prefix_free (omap (strip c) cs).
Proof.
  intros [Hnd Hpre]. split.
  - clear Hpre. induction Hnd as [|p cs Hp Hnd IH]; [constructor|].
    simpl. destruct (strip c p) as [t|] eqn:Hs; [|done].
    apply strip_Some in Hs as ->. constructor; [|done].
    by rewrite elem_of_strip.
  - intros p q. rewrite !elem_of_strip. intros Hp Hq Hpq.
    assert (c :: p = c :: q) as Heq; [|by simplify_eq].
    apply Hpre; [done..|]. by apply prefix_cons.
Qed.

(** The codes that start with '0' and those that start with '1'. *)
Lemma kraft_split M (cs : list str) :
  Forall (λ p, p ≠ [] ∧ forallb is_bit p = true) cs →
  kraft (S M) cs = (kraft M (omap (strip c0) cs) + kraft M (omap (strip c1) cs))%Z.
Proof.
  induction 1 as [|p cs [Hne Hbits] _ IH]; [done|].
  destruct p as [|x t]; [done|]. rewrite kraft_cons, IH.
  apply forallb_cons_true in Hbits as [Hx _].
  apply is_bit_cases in Hx as [-> | ->].
  - change (omap (strip c0) ((c0 :: t) :: cs)) with (t :: omap (strip c0) cs).
    change (omap (strip c1) ((c0 :: t) :: cs)) with (omap (strip c1) cs).
    rewrite kraft_cons. cbn [length]. rewrite Nat.sub_succ. lia.
  - change (omap (strip c0) ((c1 :: t) :: cs)) with (omap (strip c0) cs).
    change (omap (strip c1) ((c1 :: t) :: cs)) with (t :: omap (strip c1) cs).
    rewrite kraft_cons. cbn [length]. rewrite Nat.sub_succ. lia.
Qed.

Lemma kraft_prefix_free M : ∀ cs,
  prefix_free cs →
  Forall (λ p, forallb is_bit p = true) cs →
  Forall (λ p, length p ≤ M) cs →
  (kraft M cs ≤ 2 ^ Z.of_nat M)%Z.
Proof.
  induction M as [|M IH]; intros cs Hpf Hbits Hlen.
  - (* every code is empty: there is one at most *)
    destruct cs as [|p [|q cs]].
    + done.
    + rewrite kraft_cons, Nat.sub_0_l. change (kraft 0 []) with 0%Z.
      change (2 ^ Z.of_nat 0)%Z with 1%Z. lia.
    + destruct Hpf as [Hnd _].
      apply Forall_cons in Hlen as [Hp Hlen]. apply Forall_cons in Hlen as [Hq _].
      destruct p, q; simpl in *; try lia.
      apply NoDup_cons in Hnd as [Hnin _]. destruct Hnin. left.
  - destruct (decide ([] ∈ cs)) as [Hnil|Hnil].
    + (* the empty code is a prefix of every code: it is the only one *)
      assert (∀ q, q ∈ cs → q = []) as Hall.
      { intros q Hq. symmetry. apply (proj2 Hpf [] q); [done..|]. apply prefix_nil. }
      destruct Hpf as [Hnd _].
      destruct cs as [|p [|q cs]].
      * by apply elem_of_nil in Hnil.
      * rewrite (Hall p) by left. rewrite kraft_cons. cbn [length].
        rewrite Nat.sub_0_r. change (kraft (S M) []) with 0%Z. lia.
      * rewrite (Hall p) in Hnd by left.
        rewrite (Hall q) in Hnd by (right; left).
        apply NoDup_cons in Hnd as [Hnin _]. destruct Hnin. left.
    + assert (Forall (λ p, p ≠ [] ∧ forallb is_bit p = true) cs) as Hne.
      { apply Forall_forall. intros p Hp. split.
        - intros ->. done.
        - rewrite Forall_forall in Hbits. by apply Hbits. }
      rewrite kraft_split by done.
      assert (∀ c, (kraft M (omap (strip c) cs) ≤ 2 ^ Z.of_nat M)%Z) as Hhalf.
      { intros c. apply IH.
        - by apply prefix_free_strip.
        - apply Forall_forall. intros t Ht%elem_of_strip.
          rewrite Forall_forall in Hbits. apply Hbits in Ht.
          by apply forallb_cons_true in Ht as [_ ?].
        - apply Forall_forall. intros t Ht%elem_of_strip.
          rewrite Forall_forall in Hlen. apply Hlen in Ht. simpl in Ht. lia. }
      pose proof (Hhalf c0). pose proof (Hhalf c1).
      rewrite Nat2Z.inj_succ, Z.pow_succ_r by lia. lia.
Qed.

(** *** The tree built has the least weighted path length *)

(** The weighted path length of a tree: the sum over its leaves of weight
    times depth. *)
Definition wpl (t : Node) : Z :=
  sum_over (λ e, e.1.2 * Z.of_nat (length e.2))%Z (leaf_entries t).

Definition forest_wpl (heap : list Node) : Z := sum_over wpl heap.

Lemma sum_over_plus {A} (g h : A → Z) l :
  sum_over (λ x, g x + h x)%Z l = (sum_over g l + sum_over h l)%Z.
Proof. induction l as [|x l IH]; [done|]. rewrite !sum_over_cons, IH. lia. Qed.

Lemma sum_over_zero {A} (g : A → Z) l : (∀ x, x ∈ l → g x = 0%Z) → sum_over g l = 0%Z.
Proof.
  induction l as [|x l IH]; intros Hz; [done|].
  rewrite sum_over_cons, IH, (Hz x); [done|left|]. intros y Hy. apply Hz. by right.
Qed.

Lemma sum_values_sum_over (d : dict str Z) : sum_values d = sum_over snd d.
Proof. done. Qed.

Lemma leaf_entries_merged a b n :
  leaf_entries (merged a b n)
  = ((λ e, (e.1, c0 :: e.2)) <$> leaf_entries a) ++ ((λ e, (e.1, c1 :: e.2)) <$> leaf_entries b).
Proof. done. Qed.

Lemma wpl_child c t :
  weights_add_up t = true →
  sum_over (λ e, e.1.2 * Z.of_nat (length e.2))%Z ((λ e, (e.1, c :: e.2)) <$> leaf_entries t)
  = (wpl t + freq t)%Z.
Proof.
  intros Hw. rewrite sum_over_fmap.
  rewrite (sum_over_ext _ (λ e, e.1.2 * Z.of_nat (length e.2) + e.1.2)%Z).
  2:{ intros [[s f] p] _. simpl. lia. }
  rewrite sum_over_plus. fold (wpl t). f_equal.
  rewrite (weights_add_up_sum t Hw), sum_values_sum_over. unfold leaves.
  by rewrite sum_over_fmap.
Qed.

Lemma wpl_merged a b n :
  weights_add_up a = true → weights_add_up b = true →
  wpl (merged a b n) = (wpl a + wpl b + (freq a + freq b))%Z.
Proof.
  intros Ha Hb. unfold wpl at 1.
  rewrite leaf_entries_merged, sum_over_app, !wpl_child by done. lia.
Qed.

Lemma wpl_leaf s f i : wpl (leaf s f i) = 0%Z.
Proof. unfold wpl, sum_over. simpl. lia. Qed.

Lemma freq_imap (items : dict str Z) k :
  freq <$> imap (λ i sf, leaf sf.1 sf.2 (k + i)) items = items.*2.
Proof.
  revert k. induction items as [|[s f] items IH]; intros k; [done|].
  rewrite imap_cons, !fmap_cons. simpl. f_equal.
  rewrite <-(IH (S k)). f_equal. apply imap_ext. intros i [??] _. simpl. f_equal. lia.
Qed.

Section build_optimal.
Variable id_of : nat → Z.

(** The weighted path length of the tree built is at most the cost of any
    assignment of lengths to the weights that satisfies Kraft's
    inequality. *)
Lemma build_optimal (freq_map : dict str Z) M (wd0 : list (Z * nat)) :
  1 < length freq_map →
  Forall (λ sf, 0 ≤ sf.2)%Z freq_map →
  wd0.*1 ≡ₚ freq_map.*2 → kraft_ok M wd0.*2 →
  ∃ root, build_huffman_tree id_of freq_map = Ok (Some root)
          ∧ leaves root ≡ₚ freq_map
          ∧ is_leaf root = false
          ∧ (wpl root ≤ cost wd0)%Z.
Proof.
  intros Hlen Hfreq Hwd0 Hk0.
  destruct (build_rule id_of
    (λ heap n, heap_ok freq_le heap)
    (λ heap n, heap_ok freq_le heap
               ∧ forest_leaves heap ≡ₚ freq_map
               ∧ Forall (λ t, weights_add_up t = true) heap
               ∧ Forall (λ t, 0 ≤ freq t)%Z heap
               ∧ (∀ x, heap = [x] → is_leaf x = false)
               ∧ ∃ wd, wd.*1 ≡ₚ freq <$> heap ∧ kraft_ok M wd.*2
                       ∧ (cost wd + forest_wpl heap ≤ cost wd0)%Z)
    freq_map) as (heap & n & Heq & (_ & Hleaves & Hw & Hnn & Hroot & Hopt) & Hlen').
  - by intros i x p Hi Hx.
  - intros heap n sym f heap' _ Hok Hpush. by eapply Node_heappush_ok.
  - intros heap Hok Hperm Hne.
    assert (∀ t, t ∈ heap → ∃ s f, (s, f) ∈ freq_map ∧ ∃ i, t = leaf s f i) as Hleaf.
    { intros t Ht. rewrite Hperm in Ht.
      apply list_elem_of_lookup in Ht as [i Ht].
      apply list_lookup_imap_Some in Ht as ([s f] & Hsf & ->).
      exists s, f. split; [by eapply list_elem_of_lookup_2|by exists i]. }
    split; [done|]. split; [|split; [|split; [|split]]].
    + rewrite Hperm. pose proof (forest_leaves_imap freq_map 0) as Himap.
      cbn [Nat.add] in Himap. by rewrite Himap.
    + apply Forall_forall. intros t Ht.
      by destruct (Hleaf t Ht) as (s & f & _ & i & ->).
    + apply Forall_forall. intros t Ht.
      destruct (Hleaf t Ht) as (s & f & Hin & i & ->). simpl.
      rewrite Forall_forall in Hfreq. apply (Hfreq (s, f) Hin).
    + intros x ->. apply Permutation_length in Hperm.
      rewrite length_imap in Hperm. simpl in Hperm. lia.
    + exists wd0. split; [|split; [done|]].
      * rewrite Hperm. pose proof (freq_imap freq_map 0) as Himap.
        cbn [Nat.add] in Himap. by rewrite Himap.
      * unfold forest_wpl. rewrite sum_over_zero; [lia|].
        intros t Ht. destruct (Hleaf t Ht) as (s & f & _ & i & ->). apply wpl_leaf.
  - intros sole _ Hsole. destruct freq_map as [|? [|??]]; simplify_eq/=; lia.
  - intros heap n a h1 b h2 h3 (Hok & Hleaves & Hw & Hnn & Hroot & wd & Hwd & Hk & Hc)
           _ Hpop1 Hpop2 Hpush Hp1 Hp2 Hp3.
    apply Node_heappop_ok in Hpop1 as [Hamin Hok1]; [|done].
    apply Node_heappop_ok in Hpop2 as [Hbmin Hok2]; [|done].
    apply Node_heappush_ok in Hpush; [|done].
    assert (heap ≡ₚ a :: b :: h2) as Hheap by (by rewrite <-Hp1, <-Hp2).
    rewrite Hheap in Hw, Hleaves, Hnn, Hwd.
    assert (forest_wpl heap = wpl a + wpl b + forest_wpl h2)%Z as Hfw.
    { unfold forest_wpl. rewrite Hheap, !sum_over_cons. lia. }
    apply Forall_cons in Hw as [Ha Hw]. apply Forall_cons in Hw as [Hb Hw].
    apply Forall_cons in Hnn as [Hna Hnn]. apply Forall_cons in Hnn as [Hnb Hnn].
    rewrite !fmap_cons in Hwd.
    destruct (exchange_weights M wd (freq a) (freq b) (freq <$> h2))
      as (wd' & Hwd' & Hk' & Hc'); [done| | |done|done|].
    { apply Hamin. rewrite Hheap. right; left. }
    { apply Forall_fmap, Forall_forall. intros y Hy. apply Hbmin.
      rewrite <-Hp2. by right. }
    split; [done|]. split; [|split; [|split; [|split]]].
    + rewrite Hp3, <-Hleaves. unfold forest_leaves. simpl.
      by rewrite leaves_merged, (assoc_L (++)).
    + rewrite Hp3. constructor; [|done]. simpl.
      rewrite Ha, Hb, Z.eqb_refl. done.
    + rewrite Hp3. constructor; [simpl; lia|done].
    + intros x ->. apply Permutation_singleton_l in Hp3. by simplify_eq.
    + exists wd'. split; [by rewrite Hp3|]. split; [done|].
      unfold forest_wpl in *. rewrite Hp3, sum_over_cons, wpl_merged by done. lia.
  - assert (length heap = 1) as Hone by lia.
    destruct heap as [|root [|??]]; try done.
    exists root. split; [done|].
    unfold forest_leaves in Hleaves. simpl in Hleaves.
    rewrite (right_id_L [] (++)) in Hleaves.
    split; [done|]. split; [by apply Hroot|].
    destruct Hopt as (wd & Hwd & _ & Hc).
    assert (0 ≤ cost wd)%Z.
    { apply cost_nonneg. rewrite Hwd. by apply Forall_fmap. }
    unfold forest_wpl in Hc. rewrite sum_over_cons in Hc.
    change (sum_over wpl []) with 0%Z in Hc. lia.
Qed.
End build_optimal.

(** The cost of the code table of a tree is its weighted path length. *)
Lemma weighted_length_wpl (freq_map : dict str Z) root :
  NoDup freq_map.*1 → leaves root ≡ₚ freq_map → is_leaf root = false →
  weighted_length freq_map (generate_codes (Some root)) = wpl root.
Proof.
  intros Hnd Hl Hleaf.
  assert (NoDup (symbols_of root)) as Hnd' by (by rewrite <-leaves_symbols, Hl).
  rewrite generate_codes_NoDup by done.
  change (weighted_length freq_map (leaf_paths root))
    with (sum_over (λ sf, sf.2 * code_length (leaf_paths root) sf.1)%Z freq_map).
  rewrite <-Hl. unfold leaves, wpl. rewrite sum_over_fmap.
  apply sum_over_ext. intros [[s f] p] Hin. simpl. f_equal.
  unfold code_length. rewrite (dict_get_NoDup (leaf_paths root) s p); [done|done|].
  rewrite <-leaf_entries_paths. apply list_elem_of_fmap. by exists (s, f, p).
Qed.

(** The codes that a table gives to the symbols of a frequency table. *)
Definition codes_of (codes : dict str str) (freq_map : dict str Z) : list str :=
  (λ sf, default [] (dict_get codes sf.1)) <$> freq_map.

Lemma codes_of_prefix_free codes (freq_map : dict str Z) :
  prefix_code codes → NoDup freq_map.*1 →
  (∀ k, k ∈ freq_map.*1 → k ∈ codes.*1) →
  prefix_free (codes_of codes freq_map)
  ∧ Forall (λ p, forallb is_bit p = true) (codes_of codes freq_map).
Proof.
  intros Hpc Hnd Hkeys.
  assert (∀ sf, sf ∈ freq_map → (sf.1, default [] (dict_get codes sf.1)) ∈ codes) as Hget.
  { intros [s f] Hin. simpl.
    assert (s ∈ codes.*1) as Hs.
    { apply Hkeys, list_elem_of_fmap. by exists (s, f). }
    destruct (dict_get codes s) as [p|] eqn:Hp.
    - by apply dict_get_Some_elem.
    - by apply dict_get_None in Hp. }
  split; [split|].
  - apply NoDup_fmap_2_strong; [|by eapply NoDup_fmap_1].
    intros [s f] [s' f'] Hin Hin' Heq. simpl in Heq.
    pose proof (Hget _ Hin) as H1. pose proof (Hget _ Hin') as H2. simpl in *.
    rewrite <-Heq in H2.
    destruct (pc_prefix _ Hpc _ _ _ _ H1 H2) as [-> _]; [done|].
    apply list_elem_of_lookup in Hin as [i Hi]. apply list_elem_of_lookup in Hin' as [j Hj].
    assert (i = j) as ->; [|by simplify_eq].
    apply (NoDup_lookup freq_map.*1 i j s'); [done|..]; rewrite list_lookup_fmap.
    + by rewrite Hi.
    + by rewrite Hj.
  - intros p q. unfold codes_of. rewrite !list_elem_of_fmap.
    intros (sf & -> & Hin) (sf' & -> & Hin') Hpre.
    by destruct (pc_prefix _ Hpc _ _ _ _ (Hget _ Hin) (Hget _ Hin') Hpre).
  - apply Forall_fmap, Forall_forall. intros sf Hin. simpl.
    eapply (pc_bits _ Hpc). by apply Hget.
Qed.

Section code_table_optimal.
Variable id_of : nat → Z.

(** No prefix code for the symbols of a text costs less than the code table
    that [compress_file] computes. *)
Lemma code_table_optimal (text : str) (codes : dict str str) :
  text ≠ [] → prefix_code codes →
  (∀ c, c ∈ chars text → c ∈ codes.*1) →
  (weighted_length (build_frequency_map text) (code_table id_of text)
   ≤ weighted_length (build_frequency_map text) codes)%Z.
Proof.
  intros Hne Hpc Hkeys.
  set (fm := build_frequency_map text).
  assert (NoDup fm.*1) as Hnd by apply frequency_NoDup.
  assert (∀ k, k ∈ fm.*1 → k ∈ codes.*1) as Hkeys'.
  { intros k Hk. by apply Hkeys, frequency_keys. }
  assert (Forall (λ sf, 1 ≤ sf.2)%Z fm) as Hpos.
  { apply Forall_forall. intros [s f] Hin.
    by apply frequency_entries in Hin as (_ & _ & ?). }
  destruct fm as [|[s f] [|sf fm']] eqn:Hfm.
  - by apply frequency_nonempty in Hne.
  - (* one symbol: its code is "0" *)
    unfold code_table. fold fm. rewrite Hfm, build_single.
    assert (s ∈ chars text) as Hs.
    { apply frequency_keys. fold fm. rewrite Hfm. left. }
    apply chars_length in Hs. destruct s as [|c [|??]]; try done.
    assert ([c] ∈ codes.*1) as Hc by (apply Hkeys'; left).
    destruct (dict_get codes [c]) as [p|] eqn:Hp; [|by apply dict_get_None in Hp].
    apply dict_get_Some_elem in Hp as Hin. apply (pc_nonempty _ Hpc) in Hin.
    apply Forall_cons in Hpos as [Hf _]. simpl in Hf.
    unfold weighted_length, code_length. simpl. rewrite Hp.
    rewrite decide_True by done. simpl.
    destruct p; [done|]. simpl length. lia.
  - set (wd0 := (λ sf, (sf.2, length (default [] (dict_get codes sf.1)))) <$> fm).
    set (M := max_list wd0.*2).
    destruct (codes_of_prefix_free codes fm Hpc) as [Hpf Hbits].
    { by rewrite Hfm. } { by rewrite Hfm. }
    assert (wd0.*2 = length <$> codes_of codes fm) as Hdepths.
    { unfold wd0, codes_of. rewrite <-!list_fmap_compose. by apply list_fmap_ext. }
    assert (kraft_ok M wd0.*2) as Hk.
    { assert (Forall (λ d, d ≤ M) wd0.*2) as HM.
      { apply Forall_forall. intros d Hd. by apply max_list_elem_of_le. }
      split; [done|]. rewrite Hdepths, kraft_lengths.
      apply kraft_prefix_free; [done..|].
      rewrite Hdepths in HM. by apply Forall_fmap in HM. }
    destruct (build_optimal id_of fm M wd0) as (root & Hb & Hl & Hleaf & Hopt).
    + rewrite Hfm. simpl. lia.
    + rewrite Hfm. eapply Forall_impl; [done|]. intros ??. simpl in *. lia.
    + unfold wd0. rewrite <-list_fmap_compose. apply eq_reflexivity_perm.
      by apply list_fmap_ext.
    + done.
    + unfold code_table. fold fm. rewrite <-Hfm, Hb.
      rewrite (weighted_length_wpl fm root) by (done || by rewrite Hfm).
      etrans; [exact Hopt|]. unfold cost, wd0. rewrite sum_over_fmap.
      apply Z.eq_le_incl. by apply sum_over_ext.
Qed.

(** The table of a text encodes the text. *)
Lemma code_table_encodes (text : str) :
  text ≠ [] →
  ∃ root bits,
    build_huffman_tree id_of (build_frequency_map text) = Ok (Some root)
    ∧ code_table id_of text = generate_codes (Some root)
    ∧ prefix_code (code_table id_of text)
    ∧ (∀ c, c ∈ chars text → c ∈ (code_table id_of text).*1)
    ∧ encode_text text (code_table id_of text) = Ok bits
    ∧ Z.of_nat (length bits)
      = weighted_length (build_frequency_map text) (code_table id_of text).
Proof.
  intros Hne.
  destruct (code_table_spec id_of text Hne) as (root & Hbuild & Hcodes & Hpc & Hperm).
  destruct (encode_chars_ok (code_table id_of text) (chars text) Hpc)
    as (bits & Henc & _).
  { apply Forall_forall. intros c Hc. by apply code_table_keys. }
  exists root, bits. split; [done|]. split.
  { unfold code_table. by rewrite Hbuild. }
  split; [done|]. split; [intros c Hc; by apply code_table_keys|].
  split; [done|].
  rewrite (encode_chars_length _ _ _ Henc).
  symmetry. apply (weighted_sum_frequency (code_length (code_table id_of text))).
Qed.
End code_table_optimal.

Lemma encode_text_keys (text : str) codes bits :
  encode_text text codes = Ok bits → ∀ c, c ∈ chars text → c ∈ codes.*1.
Proof.
  unfold encode_text. revert bits.
  induction (chars text) as [|c cs IH]; intros bits Henc k Hk.
  { by apply elem_of_nil in Hk. }
  apply encode_chars_cons in Henc as (p & bits' & Hget & Henc & ->).
  apply elem_of_cons in Hk as [->|Hk]; [|by eapply IH].
  apply dict_get_Some_elem in Hget. apply list_elem_of_fmap. by exists (c, p).
Qed.

(** X12: the code of [compress_file] is optimal.  Whatever prefix code (a
    table with distinct symbols and non-empty codes of '0' and '1' none of
    which is a prefix of another) encodes a text, the table that
    [generate_codes] makes of the tree of [build_huffman_tree] encodes the text
    in at most as many bits. *)
Theorem huffman_code_is_optimal (id_of : nat → Z) (text : str)
    (codes : dict str str) (bits' : str) :
  prefix_code codes →
  encode_text text codes = Ok bits' →
  ∃ root bits,
    build_huffman_tree id_of (build_frequency_map text) = Ok root
    ∧ encode_text text (generate_codes root) = Ok bits
    ∧ length bits ≤ length bits'.
Proof.
  intros Hpc Henc'.
  destruct (decide (text = [])) as [->|Hne].
  { exists None, []. split; [done|]. split; [done|]. simpl. lia. }
  destruct (code_table_encodes id_of text Hne)
    as (root & bits & Hb & Hct & _ & _ & Henc & Hlen).
  exists (Some root), bits. split; [done|]. rewrite <-Hct. split; [done|].
  pose proof (encode_text_keys text codes bits' Henc') as Hkeys.
  pose proof (code_table_optimal id_of text codes Hne Hpc Hkeys) as Hopt.
  apply encode_chars_length in Henc'.
  rewrite <-(weighted_sum_frequency (code_length codes)) in Henc'.
  change (sum_over (λ sf, sf.2 * code_length codes sf.1)%Z (build_frequency_map text))
    with (weighted_length (build_frequency_map text) codes) in Henc'.
  lia.
Qed.

Lemma huffman_code_is_optimal_witness :
  ∃ root bits,
    build_huffman_tree id_up (build_frequency_map [97; 98; 99; 97]%Z) = Ok root
    ∧ encode_text [97; 98; 99; 97]%Z (generate_codes root) = Ok bits
    ∧ length bits ≤ length [c0; c1; c0; c1; c1; c0].
Proof.
  apply (huffman_code_is_optimal id_up [97; 98; 99; 97]%Z ab_codes).
  - apply ab_codes_prefix_code.
  - reflexivity.
Defined.

(** X13: the size of the encoded text does not depend on the identities of
    the nodes.  Two runs may break ties differently and give different
    tables, but both encode the text in the same number of bits. *)
Theorem encoded_size_independent_of_identity (id1 id2 : nat → Z) (text : str) :
  ∃ root1 root2 bits1 bits2,
    build_huffman_tree id1 (build_frequency_map text) = Ok root1
    ∧ build_huffman_tree id2 (build_frequency_map text) = Ok root2
    ∧ encode_text text (generate_codes root1) = Ok bits1
    ∧ encode_text text (generate_codes root2) = Ok bits2
    ∧ length bits1 = length bits2.
Proof.
  destruct (decide (text = [])) as [->|Hne].
  { by exists None, None, [], []. }
  destruct (code_table_encodes id1 text Hne)
    as (root1 & bits1 & Hb1 & Hct1 & Hpc1 & Hk1 & Henc1 & Hlen1).
  destruct (code_table_encodes id2 text Hne)
    as (root2 & bits2 & Hb2 & Hct2 & Hpc2 & Hk2 & Henc2 & Hlen2).
  exists (Some root1), (Some root2), bits1, bits2.
  rewrite <-Hct1, <-Hct2. split; [done|]. split; [done|]. split; [done|]. split; [done|].
  pose proof (code_table_optimal id1 text (code_table id2 text) Hne Hpc2 Hk2).
  pose proof (code_table_optimal id2 text (code_table id1 text) Hne Hpc1 Hk1).
  lia.
Qed.

(** *** Consequences of optimality *)

(** The table in which the symbols [a] and [b] have exchanged their codes
    [pa] and [pb]. *)
Definition swap_code (a b pa pb : str) (k p : str) : str :=
  if decide (k = a) then pb else if decide (k = b) then pa else p.

Definition swap_codes (a b pa pb : str) (codes : dict str str) : dict str str :=
  (λ kp, (kp.1, swap_code a b pa pb kp.1 kp.2)) <$> codes.

Lemma dict_get_fmap_val (h : str → str → str) (d : dict str str) k :
  dict_get ((λ kp, (kp.1, h kp.1 kp.2)) <$> d) k = h k <$> dict_get d k.
Proof.
  induction d as [|[k0 v0] d IH]; [done|].
  rewrite fmap_cons. simpl. case_decide; simplify_eq; [done|]. exact IH.
Qed.

Lemma swap_codes_keys a b pa pb codes : (swap_codes a b pa pb codes).*1 = codes.*1.
Proof. unfold swap_codes. rewrite <-list_fmap_compose. by apply list_fmap_ext. Qed.

Lemma swap_codes_prefix_code a b pa pb codes :
  prefix_code codes → a ≠ b → (a, pa) ∈ codes → (b, pb) ∈ codes →
  prefix_code (swap_codes a b pa pb codes).
Proof.
  intros Hpc Hab Ha Hb.
  set (σ := λ x : str, if decide (x = a) then b else if decide (x = b) then a else x).
  assert (∀ x y, σ x = σ y → x = y) as Hinj.
  { intros x y. unfold σ. repeat case_decide; congruence. }
  assert (∀ x p, (x, p) ∈ swap_codes a b pa pb codes → (σ x, p) ∈ codes) as Hin.
  { intros x p (kp & Heq & Hkp)%list_elem_of_fmap. destruct kp as [k q].
    simpl in Heq. injection Heq as -> ->. unfold σ, swap_code.
    repeat case_decide; simplify_eq; done. }
  split.
  - rewrite swap_codes_keys. apply (pc_keys _ Hpc).
  - intros x p Hx%Hin. by eapply (pc_nonempty _ Hpc).
  - intros x p Hx%Hin. by eapply (pc_bits _ Hpc).
  - intros x p y q Hx%Hin Hy%Hin Hpre.
    destruct (pc_prefix _ Hpc _ _ _ _ Hx Hy Hpre) as [Hσ ->]. split; [|done].
    by apply Hinj.
Qed.

(** Changing the length of the code of one symbol changes the weighted
    length by the frequency of the symbol times the change. *)
Lemma sum_over_update (g g' : str → Z) (a : str) (fa : Z) : ∀ (fm : dict str Z),
  NoDup fm.*1 → (a, fa) ∈ fm → (∀ s, s ≠ a → g' s = g s) →
  sum_over (λ sf, sf.2 * g' sf.1)%Z fm
  = (sum_over (λ sf, sf.2 * g sf.1)%Z fm + fa * (g' a - g a))%Z.
Proof.
  induction fm as [|[s f] fm IH]; intros Hnd Hin Hg.
  { by apply elem_of_nil in Hin. }
  rewrite fmap_cons in Hnd. apply NoDup_cons in Hnd as [Hs Hnd]. simpl in Hs.
  rewrite !sum_over_cons. cbn [fst snd].
  apply elem_of_cons in Hin as [Heq|Hin].
  - injection Heq as <- <-.
    rewrite (sum_over_ext (λ sf, sf.2 * g' sf.1)%Z (λ sf, sf.2 * g sf.1)%Z); [lia|].
    intros [s f] Hsf. simpl. rewrite Hg; [done|]. intros ->.
    apply Hs, list_elem_of_fmap. by exists (a, f).
  - rewrite IH by done. rewrite Hg; [lia|]. intros ->.
    apply Hs, list_elem_of_fmap. by exists (a, fa).
Qed.

Lemma weighted_length_swap (fm : dict str Z) codes a b fa fb pa pb :
  NoDup fm.*1 → a ≠ b →
  (a, fa) ∈ fm → (b, fb) ∈ fm →
  dict_get codes a = Some pa → dict_get codes b = Some pb →
  weighted_length fm (swap_codes a b pa pb codes)
  = (weighted_length fm codes
     + (fa - fb) * (Z.of_nat (length pb) - Z.of_nat (length pa)))%Z.
Proof.
  intros Hnd Hab Ha Hb Hpa Hpb.
  set (g := code_length codes).
  set (g1 := λ s : str, if decide (s = a) then Z.of_nat (length pb) else g s).
  set (g2 := code_length (swap_codes a b pa pb codes)).
  change (weighted_length fm (swap_codes a b pa pb codes))
    with (sum_over (λ sf, sf.2 * g2 sf.1)%Z fm).
  change (weighted_length fm codes) with (sum_over (λ sf, sf.2 * g sf.1)%Z fm).
  assert (∀ s, g2 s = if decide (s = a) then Z.of_nat (length pb)
                     else if decide (s = b) then Z.of_nat (length pa) else g s) as Hg2.
  { intros s. unfold g2, g, code_length, swap_codes. rewrite dict_get_fmap_val.
    unfold swap_code. repeat case_decide; simplify_eq.
    - by rewrite Hpa.
    - by rewrite Hpb.
    - by destruct (dict_get codes s). }
  rewrite (sum_over_update g1 g2 b fb fm Hnd Hb).
  2:{ intros s Hs. rewrite Hg2. unfold g1. repeat case_decide; congruence. }
  rewrite (sum_over_update g g1 a fa fm Hnd Ha).
  2:{ intros s Hs. unfold g1. by rewrite decide_False. }
  assert (g2 b = Z.of_nat (length pa)) as ->.
  { rewrite Hg2, decide_False, decide_True; done. }
  assert (g1 b = Z.of_nat (length pb)) as ->.
  { unfold g1, g, code_length. rewrite decide_False, Hpb; done. }
  assert (g1 a = Z.of_nat (length pb)) as ->.
  { unfold g1. by rewrite decide_True. }
  assert (g a = Z.of_nat (length pa)) as ->.
  { unfold g, code_length. by rewrite Hpa. }
  lia.
Qed.

(** X14: a more frequent character never gets a longer code.  When [b]
    occurs more often in the text than [a], the code that the table of
    [generate_codes] gives to [b] is at most as long as the code of [a]. *)
Theorem frequent_symbols_get_short_codes (id_of : nat → Z) (text : str)
    (a b : str) (fa fb : Z) :
  dict_get (build_frequency_map text) a = Some fa →
  dict_get (build_frequency_map text) b = Some fb →
  (fa < fb)%Z →
  ∃ root pa pb,
    build_huffman_tree id_of (build_frequency_map text) = Ok root
    ∧ dict_get (generate_codes root) a = Some pa
    ∧ dict_get (generate_codes root) b = Some pb
    ∧ length pb ≤ length pa.
Proof.
  intros Ha Hb Hlt.
  assert (text ≠ []) as Hne by (by intros ->).
  destruct (code_table_encodes id_of text Hne)
    as (root & bits & Hbuild & Hct & Hpc & Hkeys & _ & _).
  pose proof (frequency_NoDup text) as Hnd.
  apply dict_get_Some_elem in Ha as Hina. apply dict_get_Some_elem in Hb as Hinb.
  assert (∀ s f, (s, f) ∈ build_frequency_map text →
            ∃ p, dict_get (code_table id_of text) s = Some p) as Hcode.
  { intros s f Hin.
    assert (s ∈ (code_table id_of text).*1) as Hs.
    { apply Hkeys, frequency_keys, list_elem_of_fmap. by exists (s, f). }
    destruct (dict_get (code_table id_of text) s) as [p|] eqn:Hp; [by exists p|].
    by apply dict_get_None in Hp. }
  destruct (Hcode a fa Hina) as [pa Hpa]. destruct (Hcode b fb Hinb) as [pb Hpb].
  exists (Some root), pa, pb. rewrite <-Hct. split; [done|]. split; [done|].
  split; [done|].
  assert (a ≠ b) as Hab by (intros ->; simplify_eq; lia).
  pose proof (swap_codes_prefix_code a b pa pb (code_table id_of text) Hpc Hab
                (dict_get_Some_elem _ _ _ Hpa) (dict_get_Some_elem _ _ _ Hpb)) as Hpc'.
  pose proof (code_table_optimal id_of text _ Hne Hpc') as Hopt.
  rewrite (weighted_length_swap _ _ a b fa fb pa pb) in Hopt by done.
  assert (∀ c, c ∈ chars text → c ∈ (swap_codes a b pa pb (code_table id_of text)).*1)
    as Hkeys' by (intros c Hc; rewrite swap_codes_keys; by apply Hkeys).
  specialize (Hopt Hkeys'). nia.
Qed.

Lemma frequent_symbols_get_short_codes_witness :
  ∃ root pa pb,
    build_huffman_tree id_up (build_frequency_map [97; 98; 114; 97; 99; 97]%Z) = Ok root
    ∧ dict_get (generate_codes root) [114%Z] = Some pa
    ∧ dict_get (generate_codes root) [97%Z] = Some pb
    ∧ length pb ≤ length pa.
Proof.
  apply (frequent_symbols_get_short_codes id_up [97; 98; 114; 97; 99; 97]%Z
           [114%Z] [97%Z] 1 3).
  - reflexivity.
  - reflexivity.
  - lia.
Defined.

Lemma cost_fixed (L : nat) (fm : dict str Z) :
  cost ((λ sf, (sf.2, L)) <$> fm) = (Z.of_nat L * sum_values fm)%Z.
Proof.
  induction fm as [|[s f] fm IH]; [simpl; unfold cost, sum_over; simpl; lia|].
  rewrite fmap_cons, cost_cons, IH. simpl. lia.
Qed.

Lemma kraft_sum_fixed (L : nat) (fm : dict str Z) :
  kraft_sum L (((λ sf, (sf.2, L)) <$> fm).*2) = Z.of_nat (length fm).
Proof.
  induction fm as [|[s f] fm IH]; [done|].
  rewrite !fmap_cons, kraft_sum_cons, IH. cbn [snd length].
  rewrite Nat.sub_diag. change (2 ^ Z.of_nat 0)%Z with 1%Z. lia.
Qed.

(** X15: the encoded text is never longer than with a code of fixed width.
    When the text has at most 2^L distinct characters (L at least 1), the
    table of [generate_codes] encodes it in at most L bits per character. *)
Theorem encoded_length_at_most_fixed_width (id_of : nat → Z) (text : str) (L : nat) :
  1 ≤ L →
  (Z.of_nat (length (build_frequency_map text)) ≤ 2 ^ Z.of_nat L)%Z →
  ∃ root bits,
    build_huffman_tree id_of (build_frequency_map text) = Ok root
    ∧ encode_text text (generate_codes root) = Ok bits
    ∧ length bits ≤ L * length text.
Proof.
  intros HL Hk.
  destruct (decide (text = [])) as [->|Hne].
  { exists None, []. split; [done|]. split; [done|]. simpl. lia. }
  destruct (code_table_encodes id_of text Hne)
    as (root & bits & Hb & Hct & _ & _ & Henc & Hlen).
  exists (Some root), bits. split; [done|]. rewrite <-Hct. split; [done|].
  pose proof (sum_values_frequency text) as Htotal.
  set (fm := build_frequency_map text) in *.
  assert (Forall (λ sf, 1 ≤ sf.2)%Z fm) as Hpos.
  { apply Forall_forall. intros [s f] Hin.
    by apply frequency_entries in Hin as (_ & _ & ?). }
  destruct (decide (1 < length fm)) as [Hmany|Hone].
  - set (wd0 := (λ sf : str * Z, (sf.2, L)) <$> fm).
    destruct (build_optimal id_of fm L wd0) as (root' & Hb' & Hl & Hleaf & Hopt).
    + done.
    + eapply Forall_impl; [done|]. intros ??. simpl in *. lia.
    + unfold wd0. rewrite <-list_fmap_compose. apply eq_reflexivity_perm.
      by apply list_fmap_ext.
    + split.
      * unfold wd0. rewrite <-list_fmap_compose. apply Forall_fmap, Forall_forall.
        intros ??. simpl. lia.
      * unfold wd0. by rewrite kraft_sum_fixed.
    + rewrite Hb in Hb'. injection Hb' as <-.
      rewrite Hct, (weighted_length_wpl fm root) in Hlen
        by (done || apply frequency_NoDup).
      unfold wd0 in Hopt. rewrite cost_fixed in Hopt. nia.
  - destruct fm as [|[s f] [|??]] eqn:Hfm.
    + by apply frequency_nonempty in Hne.
    + unfold code_table in Hlen. fold fm in Hlen. rewrite Hfm, build_single in Hlen.
      assert (s ∈ chars text) as Hs.
      { apply frequency_keys. fold fm. rewrite Hfm. left. }
      apply chars_length in Hs. destruct s as [|c [|??]]; try done.
      unfold weighted_length, code_length in Hlen. simpl in Hlen.
      rewrite decide_True in Hlen by done. simpl in *. nia.
    + simpl in Hone. lia.
Qed.

Lemma encoded_length_at_most_fixed_width_witness :
  ∃ root bits,
    build_huffman_tree id_up (build_frequency_map [97; 98; 114; 97; 99; 97]%Z) = Ok root
    ∧ encode_text [97; 98; 114; 97; 99; 97]%Z (generate_codes root) = Ok bits
    ∧ length bits ≤ 2 * length [97; 98; 114; 97; 99; 97]%Z.
Proof.
  apply (encoded_length_at_most_fixed_width id_up [97; 98; 114; 97; 99; 97]%Z 2).
  - lia.
  - vm_compute. discriminate.
Defined.

(** *** The container of any prefix code *)

(** What [write_huff_file] returns: the length in four bytes, the header and
    the payload. *)
Lemma write_huff_file_inv codes payload padding data :
  write_huff_file codes payload padding = Ok data →
  ∃ len_bytes header_bytes,
    utf8_encode (dumps_header codes padding) = Some header_bytes
    ∧ length len_bytes = 4
    ∧ int_from_bytes len_bytes = Z.of_nat (length header_bytes)
    ∧ data = len_bytes ++ header_bytes ++ payload.
Proof.
  unfold write_huff_file, str_encode.
  destruct (utf8_encode (dumps_header codes padding)) as [header_bytes|]; [|done].
  rewrite Ok_bind. intros Hw.
  destruct (decide (0 ≤ Z.of_nat (length header_bytes) < 2 ^ 32)%Z) as [Hlen|Hlen].
  - destruct (int_to_bytes4_spec _ Hlen) as (len_bytes & Hlb & Hlen4 & Hint).
    rewrite Hlb, Ok_bind in Hw. injection Hw as <-. by exists len_bytes, header_bytes.
  - unfold int_to_bytes4 in Hw. by rewrite decide_False in Hw.
Qed.

Lemma encode_text_scalar codes text bits :
  scalar_codes codes → encode_text text codes = Ok bits → forallb is_scalar text = true.
Proof.
  intros Hsc Henc. pose proof (encode_text_keys text codes bits Henc) as Hkeys.
  apply forallb_forall. intros c Hc.
  assert ([c] ∈ codes.*1) as Hin.
  { apply Hkeys. unfold chars. apply list_elem_of_fmap. exists c. split; [done|].
    by apply list_elem_of_In. }
  apply list_elem_of_fmap in Hin as ([k v] & Hk & Hin). simpl in Hk. subst k.
  unfold scalar_codes in Hsc. rewrite Forall_forall in Hsc.
  destruct (Hsc _ Hin) as [Hs _]. simpl in Hs. by apply andb_true_iff in Hs as [? _].
Qed.

(** X16: [decompress_file] reads back what the steps of [compress_file] write
    for any prefix code, not only for the table of [generate_codes].  When the
    table is a prefix code of scalar values (no surrogates), [encode_text]
    encodes the text with it, [bits_to_bytes] packs the bits and
    [write_huff_file] writes the container, then [decompress_file] on the
    container returns the text. *)
Theorem written_container_decodes (codes : dict str str) (text bits : str)
    (payload : bytes) (padding : Z) (data : bytes) :
  prefix_code codes → scalar_codes codes →
  encode_text text codes = Ok bits →
  bits_to_bytes bits = Ok (payload, padding) →
  write_huff_file codes payload padding = Ok data →
  decompress_file data = Ok text.
Proof.
  intros Hpc Hsc Henc Hpack Hwrite.
  pose proof (encode_text_keys text codes bits Henc) as Hkeys.
  destruct (encode_chars_ok codes (chars text) Hpc) as (bits0 & Henc0 & Hbits & _).
  { apply Forall_forall. exact Hkeys. }
  assert (bits0 = bits) as -> by (unfold encode_text in Henc; congruence).
  destruct (bits_to_bytes_spec bits Hbits) as (b & Hpack' & Hunpack & _).
  rewrite Hpack in Hpack'. injection Hpack' as <- ->.
  destruct (write_huff_file_inv _ _ _ _ Hwrite)
    as (len_bytes & header_bytes & Hhdr & Hlen4 & Hint & ->).
  rewrite (decompress_file_container codes (padding_of bits)); try done.
  - rewrite Hunpack, decode_bits_padded.
    pose proof (decode_loop_encode _ Hpc (chars text) bits [] [] Henc) as Hloop.
    rewrite (right_id_L [] (++)) in Hloop. rewrite Hloop. simpl.
    rewrite mjoin_chars.
    destruct (str_encode_scalars text) as [tb ->]; [|done].
    by eapply encode_text_scalar.
  - by apply scalar_codes_valid.
  - by destruct Hpc.
  - apply padding_of_range.
Qed.

Lemma ab_codes_scalar : scalar_codes ab_codes.
Proof. unfold scalar_codes, ab_codes. repeat constructor. Qed.

Lemma written_container_decodes_witness :
  decompress_file
    [0; 0; 0; 57; 123; 34; 99; 111; 100; 101; 115; 34; 58; 32; 123; 34; 97; 34; 58; 32;
     34; 48; 34; 44; 32; 34; 98; 34; 58; 32; 34; 49; 48; 34; 44; 32; 34; 99; 34; 58; 32;
     34; 49; 49; 34; 125; 44; 32; 34; 112; 97; 100; 100; 105; 110; 103; 34; 58; 32; 50;
     125; 88]%Z
  = Ok [97; 98; 99; 97]%Z.
Proof.
  apply (written_container_decodes ab_codes [97; 98; 99; 97]%Z
           [c0; c1; c0; c1; c1; c0] [88%Z] 2).
  - apply ab_codes_prefix_code.
  - apply ab_codes_scalar.
  - reflexivity.
  - reflexivity.
  - reflexivity.
Defined.

(** *** The sizes that [compress_file] reports *)

(** X17: the compressed size that [compress_file] reports is the size of the
    file it has written.  When [compress_file] returns a container, its tree,
    bits, payload and padding are computed, and [comp_size] on its table,
    padding and payload is the number of bytes of the container. *)
Theorem reported_size_is_file_size (id_of : nat → Z) (text : str) (data : bytes) :
  compress_file id_of text = Ok data →
  ∃ root bits payload padding,
    build_huffman_tree id_of (build_frequency_map text) = Ok root
    ∧ encode_text text (generate_codes root) = Ok bits
    ∧ bits_to_bytes bits = Ok (payload, padding)
    ∧ write_huff_file (generate_codes root) payload padding = Ok data
    ∧ comp_size (generate_codes root) padding payload = Ok (Z.of_nat (length data)).
Proof.
  unfold compress_file. intros Hc.
  destruct (build_huffman_tree id_of (build_frequency_map text))
    as [root| |] eqn:Hbuild; [|done..].
  rewrite Ok_bind in Hc.
  destruct (encode_text text (generate_codes root)) as [bits| |] eqn:Henc; [|done..].
  rewrite Ok_bind in Hc.
  destruct (bits_to_bytes bits) as [[payload padding]| |] eqn:Hpack; [|done..].
  rewrite Ok_bind in Hc.
  exists root, bits, payload, padding. do 3 (split; [done|]). split; [exact Hc|].
  destruct (write_huff_file_inv _ _ _ _ Hc)
    as (len_bytes & header_bytes & Hhdr & Hlen4 & _ & ->).
  unfold comp_size, str_encode. rewrite Hhdr, Ok_bind. f_equal.
  rewrite !length_app. lia.
Qed.

Lemma reported_size_is_file_size_witness :
  ∃ root bits payload padding,
    build_huffman_tree id_up (build_frequency_map [97; 98; 97]%Z) = Ok root
    ∧ encode_text [97; 98; 97]%Z (generate_codes root) = Ok bits
    ∧ bits_to_bytes bits = Ok (payload, padding)
    ∧ write_huff_file (generate_codes root) payload padding
      = Ok ([0; 0; 0; 45; 123; 34; 99; 111; 100; 101; 115; 34; 58; 32; 123; 34; 98; 34;
             58; 32; 34; 48; 34; 44; 32; 34; 97; 34; 58; 32; 34; 49; 34; 125; 44; 32; 34;
             112; 97; 100; 100; 105; 110; 103; 34; 58; 32; 53; 125; 160]%Z)
    ∧ comp_size (generate_codes root) padding payload = Ok 50%Z.
Proof.
  apply (reported_size_is_file_size id_up [97; 98; 97]%Z).
  reflexivity.
Defined.

(** *** A header without padding *)

(** The JSON text of a header that has the code table only:
    [{"codes": {...}}]. *)
Definition header_without_padding (codes : dict str str) : str :=
  [123%Z] ++ dumps_str key_codes ++ [58; 32]%Z ++ dumps_codes codes ++ [125%Z].

Lemma json_loads_header_without_padding codes :
  valid_codes codes → NoDup codes.*1 →
  json_loads (header_without_padding codes) = Ok (JDict [(key_codes, codes_json codes)]).
Proof.
  intros Hvalid Hnd. unfold json_loads.
  assert (header_without_padding codes
          = 123%Z :: join_comma (entry_text <$>
              [(key_codes, dumps_codes codes, codes_json codes)]) ++ [125%Z]) as Htext.
  { unfold header_without_padding, entry_text. simpl. rewrite <-!(assoc_L (++)). done. }
  assert (∀ fuel, length codes + 5 < fuel →
    scan_once fuel (skip_ws (header_without_padding codes))
    = Some (JDict [(key_codes, codes_json codes)], [])) as Hscan.
  { intros fuel Hfuel. rewrite Htext.
    rewrite (skip_ws_nonws 123) by done.
    rewrite (scan_once_object (length codes + 3)); [done| |done|simpl; lia].
    split; [by repeat constructor|]. split.
    - eexists 123%Z, _. split; [reflexivity|done].
    - intros fuel' c rest Hfuel' _. apply scan_once_codes; [done..|lia]. }
  pose proof (dumps_codes_length codes) as Hlen.
  rewrite Hscan.
  - unfold header_without_padding. done.
  - unfold header_without_padding. rewrite !length_app. cbn [length]. lia.
Qed.

(** X18: a header without a 'padding' entry means no padding.  On a container
    whose header is the JSON object with the code table only,
    [decompress_file] decodes all the bits of the payload: it does what
    [decode_bits_to_text] does with the padding 0. *)
Theorem missing_padding_is_zero (codes : dict str str)
    (len_bytes header_bytes payload : bytes) :
  valid_codes codes → NoDup (dict_keys codes) →
  str_encode (header_without_padding codes) = Ok header_bytes →
  length len_bytes = 4 →
  int_from_bytes len_bytes = Z.of_nat (length header_bytes) →
  decompress_file (len_bytes ++ header_bytes ++ payload) =
    text ← decode_bits_to_text (bytes_to_bits payload) (codes_json codes) (JInt 0);
    _ ← str_encode text;
    Ok text.
Proof.
  intros Hvalid Hnd Henc Hlen Hint. unfold decompress_file.
  unfold str_encode in Henc.
  destruct (utf8_encode (header_without_padding codes)) as [hb|] eqn:Hhb; [|done].
  injection Henc as ->.
  rewrite (read_huff_file_container _ _ _ (header_without_padding codes)
             (JDict [(key_codes, codes_json codes)])); try done.
  - by apply utf8_roundtrip.
  - by apply json_loads_header_without_padding.
Qed.

Lemma missing_padding_is_zero_witness :
  decompress_file
    ([0; 0; 0; 43]%Z
     ++ [123; 34; 99; 111; 100; 101; 115; 34; 58; 32; 123; 34; 97; 34; 58; 32; 34; 48;
         34; 44; 32; 34; 98; 34; 58; 32; 34; 49; 48; 34; 44; 32; 34; 99; 34; 58; 32; 34;
         49; 49; 34; 125; 125]%Z
     ++ [88%Z])
  = Ok [97; 98; 99; 97; 97; 97]%Z.
Proof.
  apply (missing_padding_is_zero ab_codes [0; 0; 0; 43]%Z).
  - apply scalar_codes_valid, ab_codes_scalar.
  - apply (pc_keys _ ab_codes_prefix_code).
  - reflexivity.
  - reflexivity.
  - reflexivity.
Defined.
